(** * MiniPascal code generator (src/codegenerator.cpp)

    A shallow embedding of the instruction-emitting visitor
    [CodeGenerator] and the properties of the instruction stream it
    produces.  The visitor is a state-and-exception computation over the
    generator object; the abstract syntax tree, the symbol entries and the
    symbol table are declared in headers outside the translation unit, so
    their shape is taken from the way codegenerator.cpp uses them. *)

From stdpp Require Import base strings list pretty gmap.
From Stdlib Require Import ZArith Lia.

Local Open Scope Z_scope.
Set Warnings "-register-all".

(** ** Machine integers

    C++ [int] values are kept as [Z].  Arithmetic is reduced to the signed
    32-bit range; overflow, which C++ leaves undefined, is fixed to the
    two's-complement wrap-around of the usual targets. *)

Definition int_min : Z := - 2 ^ 31.
Definition int_max : Z := 2 ^ 31 - 1.
Definition in_int (z : Z) : Prop := int_min <= z <= int_max.
Definition wrap (z : Z) : Z := (z + 2 ^ 31) mod 2 ^ 32 - 2 ^ 31.
Definition int_add (a b : Z) : Z := wrap (a + b).
Definition int_sub (a b : Z) : Z := wrap (a - b).
Definition int_neg (a : Z) : Z := wrap (- a).

(** [std::to_string(int)]. *)
Definition to_string (z : Z) : string := pretty z.

(** ** Symbol entries *)

(** Modelled from the spec: the enumerations [EntryTypeCategory],
    [SymbolKind] and [SymbolScope] and the structure [ArrayDetails] are
    declared in headers outside the translation unit; their enumerators
    and fields are those of the spec's data model, under the names
    codegenerator.cpp uses. *)
Inductive EntryTypeCategory :=
  | PRIMITIVE_INTEGER | PRIMITIVE_REAL | PRIMITIVE_BOOLEAN | ARRAY | UNKNOWN_TYPE.

Inductive SymbolKind := VARIABLE | PARAMETER | FUNCTION | PROCEDURE.

Inductive SymbolScope := GLOBAL | LOCAL.

Global Instance EntryTypeCategory_eq_dec : EqDecision EntryTypeCategory.
Proof. solve_decision. Defined.
Global Instance SymbolKind_eq_dec : EqDecision SymbolKind.
Proof. solve_decision. Defined.
Global Instance SymbolScope_eq_dec : EqDecision SymbolScope.
Proof. solve_decision. Defined.

Record ArrayDetails := mkArrayDetails {
  elementType : EntryTypeCategory;
  lowBound : Z;
  highBound : Z;
  isInitialized : bool
}.

(** Modelled from the spec: the class SymbolEntry is declared in a header
    that is not part of the translation unit.  The fields are the ones the
    spec lists ([name], [kind], [type], [offset], [arrayDetails],
    [mangledName], [numParameters], [functionReturnType]) together with the
    source position its constructor receives; [getMangledName()] reads
    [mangledName]. *)
Record SymbolEntry := mkSymbolEntry {
  name : string;
  kind : SymbolKind;
  type : EntryTypeCategory;
  line : Z;
  column : Z;
  offset : Z;
  arrayDetails : ArrayDetails;
  mangledName : string;
  numParameters : Z;
  functionReturnType : EntryTypeCategory
}.

Definition getMangledName (e : SymbolEntry) : string := mangledName e.

Definition set_offset (o : Z) (e : SymbolEntry) : SymbolEntry :=
  mkSymbolEntry (name e) (kind e) (type e) (line e) (column e) o
    (arrayDetails e) (mangledName e) (numParameters e) (functionReturnType e).

Definition set_arrayDetails (ad : ArrayDetails) (e : SymbolEntry) : SymbolEntry :=
  mkSymbolEntry (name e) (kind e) (type e) (line e) (column e) (offset e)
    ad (mangledName e) (numParameters e) (functionReturnType e).

(** ** External collaborators

    What codegenerator.cpp takes from its headers and from the semantic
    analyzer: the symbol table with its five operations, the values a
    default-constructed [SymbolEntry] and [ArrayDetails] hold, and the
    rendering of a [double].  The properties below hold for every choice
    of them. *)
Class Collaborators := {
  double : Type;
  double_to_string : double → string;
  SymbolTable : Type;
  isGlobalScope : SymbolTable → bool;
  enterScope : SymbolTable → SymbolTable;
  exitScope : SymbolTable → SymbolTable;
  addSymbol : SymbolEntry → SymbolTable → SymbolTable;
  lookupSymbol : string → SymbolTable → option SymbolEntry;
  SymbolEntry_default : SymbolEntry;
  ArrayDetails_default : ArrayDetails
}.

(** [SymbolEntry entry(name, kind, type, line, column)]: the five fields
    given, the others as default-constructed. *)
Definition SymbolEntry_ctor `{Collaborators}
    (n : string) (k : SymbolKind) (t : EntryTypeCategory) (l c : Z) : SymbolEntry :=
  mkSymbolEntry n k t l c (offset SymbolEntry_default)
    (arrayDetails SymbolEntry_default) (mangledName SymbolEntry_default)
    (numParameters SymbolEntry_default) (functionReturnType SymbolEntry_default).

(** ** Abstract syntax tree

    Modelled from the spec: the node classes are declared in a header
    outside the translation unit.  Each class has the fields that
    codegenerator.cpp reads, under their names.  A pointer field is an
    [option] exactly when codegenerator.cpp tests it against null
    somewhere; a [std::list] of pointers is a [list]; the subclass a
    [dynamic_cast] selects is a constructor. *)

Record IdentNode := mkIdent {
  ident_name : string;
  ident_line : Z;
  ident_column : Z
}.

(** [StandardTypeNode::category]; [TYPE_OTHER] stands for any enumerator
    that reaches the [default:] branches of [astToSymbolType]. *)
Inductive StandardTypeCategory := TYPE_INTEGER | TYPE_REAL | TYPE_BOOLEAN | TYPE_OTHER.

Inductive TypeNode :=
  | StandardTypeNode (category : StandardTypeCategory)
  | ArrayTypeNode (elemType : option StandardTypeCategory)
                  (startIndex endIndex : option Z).

Section AST.
Context `{Collaborators}.

Inductive ExprNode :=
  | IntNumNode (determined : EntryTypeCategory) (value : Z)
  | RealNumNode (determined : EntryTypeCategory) (value : double)
  | BooleanLiteralNode (determined : EntryTypeCategory) (value : bool)
  | StringLiteralNode (determined : EntryTypeCategory) (value : string)
  | VariableNode (determined : EntryTypeCategory) (identifier : IdentNode)
                 (index : option ExprNode) (scope : SymbolScope) (var_offset : Z)
  | IdExprNode (determined : EntryTypeCategory) (ident : IdentNode)
               (id_kind : SymbolKind) (scope : SymbolScope)
  | FunctionCallExprNode (determined : EntryTypeCategory) (funcName : IdentNode)
                         (arguments : option (list ExprNode))
                         (resolved_entry : option SymbolEntry)
  | UnaryOpNode (determined : EntryTypeCategory) (op : string) (expression : ExprNode)
  | BinaryOpNode (determined : EntryTypeCategory) (op : string) (lhs rhs : ExprNode).

(** [node.determinedType]. *)
Definition determinedType (e : ExprNode) : EntryTypeCategory :=
  match e with
  | IntNumNode d _ | RealNumNode d _ | BooleanLiteralNode d _
  | StringLiteralNode d _ | VariableNode d _ _ _ _ | IdExprNode d _ _ _
  | FunctionCallExprNode d _ _ _ | UnaryOpNode d _ _ | BinaryOpNode d _ _ _ => d
  end.

Inductive StatementNode :=
  | AssignStatementNode (variable : ExprNode) (expression : ExprNode)
  | IfStatementNode (condition : ExprNode) (thenStatement : StatementNode)
                    (elseStatement : option StatementNode)
  | WhileStatementNode (condition : ExprNode) (body : StatementNode)
  | ProcedureCallStatementNode (procName : IdentNode)
                               (arguments : option (list ExprNode))
                               (resolved_entry : option SymbolEntry)
  | ReturnStatementNode (returnValue : option ExprNode)
  | CompoundStatementNode (stmts : option (list (option StatementNode))).

Record VarDecl := mkVarDecl {
  vd_type : option TypeNode;
  vd_identifiers : list IdentNode
}.

Record ParameterDeclaration := mkParameterDeclaration {
  pd_ids : option (list IdentNode);
  pd_type : option TypeNode
}.

(** [ParameterList::paramDeclarations], reached through
    [ArgumentsNode::params]. *)
Definition ParameterList : Type := list (option ParameterDeclaration).

Record ArgumentsNode := mkArguments { params : option ParameterList }.

Inductive SubprogramHead :=
  | FunctionHeadNode (head_name : IdentNode) (head_arguments : option ArgumentsNode)
  | ProcedureHeadNode (head_name : IdentNode) (head_arguments : option ArgumentsNode).

Definition head_name_of (h : SubprogramHead) : IdentNode :=
  match h with FunctionHeadNode n _ | ProcedureHeadNode n _ => n end.
Definition head_arguments_of (h : SubprogramHead) : option ArgumentsNode :=
  match h with FunctionHeadNode _ a | ProcedureHeadNode _ a => a end.

Record SubprogramDeclaration := mkSubprogramDeclaration {
  head : option SubprogramHead;
  local_declarations : option (list VarDecl);
  sub_body : option (option (list (option StatementNode)))
}.

Record ProgramNode := mkProgram {
  subprogs : option (list (option SubprogramDeclaration));
  decls : option (list VarDecl);
  mainCompoundStmt : option (option (list (option StatementNode)))
}.

(** ** The generator object and its computations *)

(** One line of [code]: what the two overloads of [emit] and [emitLabel]
    send to the stream, kept apart until [render]. *)
Inductive CodeLine :=
  | Ins (instruction : string)
  | InsArg (instruction arg : string)
  | Label (label : string).

(** Modelled from the spec: the members of [CodeGenerator] are declared in
    codegenerator.h, outside the translation unit.  They are the ones
    codegenerator.cpp uses; [labelCounter] is the spec's monotonically
    increasing counter, a natural number; [symbolTable] and
    [currentSubprogramEntry] point into the analyzer's table, whose
    entries the generator never changes, and are kept by value. *)
Record CodeGenerator := mkCodeGenerator {
  code : list CodeLine;
  labelCounter : N;
  symbolTable : SymbolTable;
  local_offset : Z;
  param_offset : Z;
  currentFunctionContext : option SubprogramHead;
  currentSubprogramEntry : option SymbolEntry
}.

Definition set_code (c : list CodeLine) (g : CodeGenerator) : CodeGenerator :=
  mkCodeGenerator c (labelCounter g) (symbolTable g) (local_offset g)
    (param_offset g) (currentFunctionContext g) (currentSubprogramEntry g).
Definition set_labelCounter (n : N) (g : CodeGenerator) : CodeGenerator :=
  mkCodeGenerator (code g) n (symbolTable g) (local_offset g)
    (param_offset g) (currentFunctionContext g) (currentSubprogramEntry g).
Definition set_symbolTable (t : SymbolTable) (g : CodeGenerator) : CodeGenerator :=
  mkCodeGenerator (code g) (labelCounter g) t (local_offset g)
    (param_offset g) (currentFunctionContext g) (currentSubprogramEntry g).
Definition set_local_offset (o : Z) (g : CodeGenerator) : CodeGenerator :=
  mkCodeGenerator (code g) (labelCounter g) (symbolTable g) o
    (param_offset g) (currentFunctionContext g) (currentSubprogramEntry g).
Definition set_param_offset (o : Z) (g : CodeGenerator) : CodeGenerator :=
  mkCodeGenerator (code g) (labelCounter g) (symbolTable g) (local_offset g)
    o (currentFunctionContext g) (currentSubprogramEntry g).
Definition set_currentFunctionContext (h : option SubprogramHead)
    (g : CodeGenerator) : CodeGenerator :=
  mkCodeGenerator (code g) (labelCounter g) (symbolTable g) (local_offset g)
    (param_offset g) h (currentSubprogramEntry g).
Definition set_currentSubprogramEntry (e : option SymbolEntry)
    (g : CodeGenerator) : CodeGenerator :=
  mkCodeGenerator (code g) (labelCounter g) (symbolTable g) (local_offset g)
    (param_offset g) (currentFunctionContext g) e.

(** The outcome of running a member function on the generator: it returns,
    or it throws [std::runtime_error(what)] with the object as it stood at
    the throw, or it dereferences a null pointer. *)
Inductive Outcome (A : Type) :=
  | Done (a : A) (g : CodeGenerator)
  | Thrown (what : string) (g : CodeGenerator)
  | Undefined.
Arguments Done {A} a g.
Arguments Thrown {A} what g.
Arguments Undefined {A}.

Definition Gen (A : Type) : Type := CodeGenerator → Outcome A.

Definition ret {A} (a : A) : Gen A := λ g, Done a g.
Definition bind {A B} (m : Gen A) (k : A → Gen B) : Gen B :=
  λ g, match m g with
       | Done a g' => k a g'
       | Thrown w g' => Thrown w g'
       | Undefined => Undefined
       end.
Definition throw {A} (what : string) : Gen A := λ g, Thrown what g.
Definition undefined {A} : Gen A := λ _, Undefined.
Definition get {A} (f : CodeGenerator → A) : Gen A := λ g, Done (f g) g.
Definition modify (f : CodeGenerator → CodeGenerator) : Gen unit :=
  λ g, Done tt (f g).
Definition when (b : bool) (m : Gen unit) : Gen unit :=
  if b then m else ret tt.

End AST.

Arguments Done {_ _} a g.
Arguments Thrown {_ _} what g.
Arguments Undefined {_ _}.

Declare Scope gen_scope.
Delimit Scope gen_scope with gen.
Notation "'let*' x := m 'in' k" := (bind m (λ x, k))
  (at level 10, x name, m at level 100, k at level 200) : gen_scope.
Notation "m >> k" := (bind m (λ _, k))
  (at level 62, right associativity) : gen_scope.

Section Visitor.
Context `{Collaborators}.
Local Open Scope gen_scope.

(** A range-based [for] over a list, and the same over reverse iterators
    ([rbegin] to [rend]). *)
Definition for_each {A} (f : A → Gen unit) : list A → Gen unit :=
  fix go l :=
    match l with
    | [] => ret tt
    | x :: l' => f x >> go l'
    end.

Definition for_each_rev {A} (f : A → Gen unit) : list A → Gen unit :=
  fix go l :=
    match l with
    | [] => ret tt
    | x :: l' => go l' >> f x
    end.

(** *** Helper methods *)

Definition newLabel (prefix : string) : Gen string :=
  λ g, Done ("L_" +:+ prefix +:+ "_" +:+ pretty (labelCounter g))
            (set_labelCounter (labelCounter g + 1)%N g).

Definition emit (instruction : string) : Gen unit :=
  modify (λ g, set_code (code g ++ [Ins instruction]) g).

Definition emit_arg (instruction arg : string) : Gen unit :=
  modify (λ g, set_code (code g ++ [InsArg instruction arg]) g).

Definition emitLabel (label : string) : Gen unit :=
  modify (λ g, set_code (code g ++ [Label label]) g).

(** [symbolTable->lookupSymbol(name)] and [symbolTable->isGlobalScope()]. *)
Definition lookup (n : string) : Gen (option SymbolEntry) :=
  get (λ g, lookupSymbol n (symbolTable g)).
Definition atGlobalScope : Gen bool :=
  get (λ g, isGlobalScope (symbolTable g)).

Definition quote : string := String (Ascii.ascii_of_nat 34) EmptyString.
Definition newline : string := String (Ascii.ascii_of_nat 10) EmptyString.

Definition standardCategory (c : StandardTypeCategory) : EntryTypeCategory :=
  match c with
  | TYPE_INTEGER => PRIMITIVE_INTEGER
  | TYPE_REAL => PRIMITIVE_REAL
  | TYPE_BOOLEAN => PRIMITIVE_BOOLEAN
  | TYPE_OTHER => UNKNOWN_TYPE
  end.

(** [astToSymbolType(astTypeNode, outArrayDetails)]: the category returned
    and the array details left in the out-parameter. *)
Definition astToSymbolType (astTypeNode : option TypeNode)
    (outArrayDetails : ArrayDetails) : EntryTypeCategory * ArrayDetails :=
  let ad := mkArrayDetails (elementType outArrayDetails) (lowBound outArrayDetails)
              (highBound outArrayDetails) false in
  match astTypeNode with
  | None => (UNKNOWN_TYPE, ad)
  | Some (StandardTypeNode c) => (standardCategory c, ad)
  | Some (ArrayTypeNode elt startIndex endIndex) =>
      let ad1 :=
        match elt with
        | Some c => mkArrayDetails (standardCategory c) (lowBound ad)
                      (highBound ad) (isInitialized ad)
        | None => ad
        end in
      let ad2 :=
        match startIndex, endIndex with
        | Some lo, Some hi => mkArrayDetails (elementType ad1) lo hi true
        | _, _ => ad1
        end in
      (ARRAY, ad2)
  end.

(** *** Expressions *)

Definition binary_instruction (op : string) (is_real_op : bool) : Gen unit :=
  if decide (op = "+") then emit (if is_real_op then "fadd" else "add")
  else if decide (op = "-") then emit (if is_real_op then "fsub" else "sub")
  else if decide (op = "*") then emit (if is_real_op then "fmul" else "mul")
  else if decide (op = "/") then emit "fdiv"
  else if decide (op = "DIV_OP") then emit "div"
  else if decide (op = "EQ_OP") then emit "equal"
  else if decide (op = "NEQ_OP") then emit "equal" >> emit "not"
  else if decide (op = "LT_OP") then emit (if is_real_op then "finf" else "inf")
  else if decide (op = "LTE_OP") then emit (if is_real_op then "finfeq" else "infeq")
  else if decide (op = "GT_OP") then emit (if is_real_op then "fsup" else "sup")
  else if decide (op = "GTE_OP") then emit (if is_real_op then "fsupeq" else "supeq")
  else if decide (op = "AND_OP") then emit "mul"
  else if decide (op = "OR_OP") then emit "add" >> emit_arg "pushi" "0" >> emit "sup"
  else throw ("CodeGen: Unsupported binary op '" +:+ op +:+ "'").

(** [is_real_op] of [visit(BinaryOpNode&)]. *)
Definition is_real_op (op : string) (lt rt : EntryTypeCategory) : bool :=
  let r := bool_decide (lt = PRIMITIVE_REAL) || bool_decide (rt = PRIMITIVE_REAL)
           || bool_decide (op = "/") in
  if bool_decide (op = "AND_OP") || bool_decide (op = "OR_OP") then false else r.

Definition push_slot (scope : SymbolScope) (off : Z) : Gen unit :=
  if decide (scope = LOCAL) then emit_arg "pushl" (to_string off)
  else emit_arg "pushg" (to_string off).

Fixpoint visit_ExprNode (node : ExprNode) : Gen unit :=
  match node with
  | IntNumNode _ value => emit_arg "pushi" (to_string value)
  | RealNumNode _ value => emit_arg "pushf" (double_to_string value)
  | BooleanLiteralNode _ value => emit_arg "pushi" (if value then "1" else "0")
  | StringLiteralNode _ value => emit_arg "pushs" (quote +:+ value +:+ quote)
  | VariableNode _ identifier index scope _ =>
      let* found := lookup (ident_name identifier) in
      match found with
      | None => throw ("CodeGen: Symbol not found: " +:+ ident_name identifier)
      | Some entry =>
          if decide (kind entry = PARAMETER) then
            emit_arg "pushl" (to_string (int_neg (int_add (offset entry) 1)))
          else
            match index with
            | Some idx =>
                if negb (isInitialized (arrayDetails entry)) then
                  throw ("CodeGen: Array details not found for "
                           +:+ ident_name identifier)
                else
                  let lowerBound := lowBound (arrayDetails entry) in
                  push_slot scope (offset entry) >>
                  match idx with
                  | IntNumNode _ value =>
                      emit_arg "load" (to_string (int_sub value lowerBound))
                  | _ =>
                      visit_ExprNode idx >>
                      emit_arg "pushi" (to_string lowerBound) >>
                      emit "sub" >>
                      emit "loadn"
                  end
            | None => push_slot scope (offset entry)
            end
      end
  | IdExprNode _ ident id_kind scope =>
      if decide (id_kind = FUNCTION) then
        let mangledName := "f_" +:+ ident_name ident in
        emit_arg "pushn" "1" >>
        emit_arg "pusha" mangledName >>
        emit "call"
      else
        let* found := lookup (ident_name ident) in
        match found with
        | None => throw ("CodeGen: Symbol not found for identifier: "
                           +:+ ident_name ident)
        | Some entry =>
            if decide (kind entry = PARAMETER) then
              emit_arg "pushl" (to_string (int_neg (int_add (offset entry) 1)))
            else if decide (scope = LOCAL) then
              emit_arg "pushl" (to_string (offset entry))
            else
              emit_arg "pushg" (to_string (offset entry))
        end
  | FunctionCallExprNode _ funcName arguments resolved_entry =>
      match resolved_entry with
      | None => throw ("CodeGen Error: Function call to '" +:+ ident_name funcName
                         +:+ "' was not resolved by semantic analyzer.")
      | Some callee =>
          let mangledName := getMangledName callee in
          emit_arg "pushn" "1" >>
          match arguments with
          | Some exprs => for_each_rev visit_ExprNode exprs
          | None => ret tt
          end >>
          emit_arg "pusha" mangledName >>
          emit "call" >>
          when (bool_decide (numParameters callee > 0))
               (emit_arg "pop" (to_string (numParameters callee)))
      end
  | UnaryOpNode _ op expression =>
      visit_ExprNode expression >>
      if decide (op = "-") then
        if decide (determinedType expression = PRIMITIVE_REAL) then
          emit_arg "pushf" "0.0" >> emit "swap" >> emit "fsub"
        else
          emit_arg "pushi" "0" >> emit "swap" >> emit "sub"
      else if decide (op = "NOT_OP") then emit "not"
      else ret tt
  | BinaryOpNode _ op lhs rhs =>
      let is_real := is_real_op op (determinedType lhs) (determinedType rhs) in
      visit_ExprNode lhs >>
      when (is_real && bool_decide (determinedType lhs = PRIMITIVE_INTEGER))
           (emit "itof") >>
      visit_ExprNode rhs >>
      when (is_real && bool_decide (determinedType rhs = PRIMITIVE_INTEGER))
           (emit "itof") >>
      binary_instruction op is_real
  end.

(** *** Statements *)

Definition is_StringLiteralNode (e : ExprNode) : bool :=
  match e with StringLiteralNode _ _ => true | _ => false end.

(** One argument of [write]/[writeln]. *)
Definition write_argument (arg : ExprNode) : Gen unit :=
  visit_ExprNode arg >>
  if is_StringLiteralNode arg then emit "writes"
  else if bool_decide (determinedType arg = PRIMITIVE_INTEGER)
          || bool_decide (determinedType arg = PRIMITIVE_BOOLEAN)
       then emit "writei"
  else if bool_decide (determinedType arg = PRIMITIVE_REAL) then emit "writef"
  else ret tt.

(** The store that ends an assignment to a non-indexed variable. *)
Definition store_slot (entry : SymbolEntry) (scope : SymbolScope) : Gen unit :=
  if decide (kind entry = PARAMETER) then
    emit_arg "storel" (to_string (int_neg (int_add (offset entry) 1)))
  else if decide (scope = LOCAL) then emit_arg "storel" (to_string (offset entry))
  else emit_arg "storeg" (to_string (offset entry)).

Definition visit_ProcedureCallStatementNode (procName : IdentNode)
    (arguments : option (list ExprNode))
    (resolved_entry : option SymbolEntry) : Gen unit :=
  let procName := ident_name procName in
  if bool_decide (procName = "write") || bool_decide (procName = "writeln") then
    match arguments with
    | Some exprs => for_each write_argument exprs
    | None => ret tt
    end >>
    when (bool_decide (procName = "writeln"))
         (emit_arg "pushs" (quote +:+ newline +:+ quote) >> emit "writes")
  else if bool_decide (procName = "read") || bool_decide (procName = "readln") then
    ret tt
  else
    match resolved_entry with
    | None => throw ("CodeGen Error: Procedure call to '" +:+ procName
                       +:+ "' was not resolved by semantic analyzer.")
    | Some callee =>
        let mangledName := getMangledName callee in
        match arguments with
        | Some exprs => for_each_rev visit_ExprNode exprs
        | None => ret tt
        end >>
        emit_arg "pusha" mangledName >>
        emit "call" >>
        when (bool_decide (numParameters callee > 0))
             (emit_arg "pop" (to_string (numParameters callee)))
    end.

Definition visit_ReturnStatementNode (returnValue : option ExprNode) : Gen unit :=
  match returnValue with
  | Some value =>
      let* context := get currentSubprogramEntry in
      match context with
      | None => throw "CodeGen: Return statement found with no subprogram context."
      | Some subprogram =>
          let num_params := numParameters subprogram in
          visit_ExprNode value >>
          when (bool_decide (functionReturnType subprogram = PRIMITIVE_REAL)
                && bool_decide (determinedType value = PRIMITIVE_INTEGER))
               (emit "itof") >>
          emit_arg "storel" (to_string (int_neg (int_add num_params 1)))
      end
  | None => ret tt
  end >>
  emit "return".

Definition visit_AssignStatementNode (variable expression : ExprNode) : Gen unit :=
  match variable with
  | VariableNode var_type identifier index scope var_offset =>
      match index with
      | Some idx =>
          let* arrayEntry := lookup (ident_name identifier) in
          match arrayEntry with
          | None => throw ("CodeGen: Array symbol not found: "
                             +:+ ident_name identifier)
          | Some arrayEntry =>
              let lowerBound := lowBound (arrayDetails arrayEntry) in
              push_slot scope var_offset >>
              match idx with
              | IntNumNode _ value =>
                  visit_ExprNode expression >>
                  emit_arg "store" (to_string (int_sub value lowerBound))
              | _ =>
                  visit_ExprNode idx >>
                  emit_arg "pushi" (to_string lowerBound) >>
                  emit "sub" >>
                  visit_ExprNode expression >>
                  emit "storen"
              end
          end
      | None =>
          visit_ExprNode expression >>
          when (bool_decide (var_type = PRIMITIVE_REAL)
                && bool_decide (determinedType expression = PRIMITIVE_INTEGER))
               (emit "itof") >>
          let* entry := lookup (ident_name identifier) in
          match entry with
          | None => throw ("CodeGen: Symbol not found in assignment: "
                             +:+ ident_name identifier)
          | Some entry => store_slot entry scope
          end
      end
  | _ => ret tt
  end.

Fixpoint visit_StatementNode (node : StatementNode) : Gen unit :=
  match node with
  | AssignStatementNode variable expression =>
      visit_AssignStatementNode variable expression
  | IfStatementNode condition thenStatement elseStatement =>
      let* elseLabel := newLabel "ELSE" in
      let* endIfLabel := newLabel "END_IF" in
      visit_ExprNode condition >>
      emit_arg "jz" elseLabel >>
      visit_StatementNode thenStatement >>
      match elseStatement with
      | Some _ => emit_arg "jump" endIfLabel
      | None => ret tt
      end >>
      emitLabel elseLabel >>
      match elseStatement with
      | Some elseStmt => visit_StatementNode elseStmt
      | None => ret tt
      end >>
      emitLabel endIfLabel
  | WhileStatementNode condition body =>
      let* loopStartLabel := newLabel "WHILE_START" in
      let* loopEndLabel := newLabel "WHILE_END" in
      emitLabel loopStartLabel >>
      visit_ExprNode condition >>
      emit_arg "jz" loopEndLabel >>
      visit_StatementNode body >>
      emit_arg "jump" loopStartLabel >>
      emitLabel loopEndLabel
  | ProcedureCallStatementNode procName arguments resolved_entry =>
      visit_ProcedureCallStatementNode procName arguments resolved_entry
  | ReturnStatementNode returnValue => visit_ReturnStatementNode returnValue
  | CompoundStatementNode stmts =>
      match stmts with
      | Some statements =>
          for_each (λ stmt, match stmt with
                            | Some s => visit_StatementNode s
                            | None => ret tt
                            end) statements
      | None => ret tt
      end
  end.

(** [visit(StatementList&)] and [visit(CompoundStatementNode&)] on a
    compound statement held by a declaration. *)
Definition visit_StatementList (statements : list (option StatementNode)) : Gen unit :=
  for_each (λ stmt, match stmt with
                    | Some s => visit_StatementNode s
                    | None => ret tt
                    end) statements.

Definition visit_CompoundStatementNode
    (stmts : option (list (option StatementNode))) : Gen unit :=
  match stmts with
  | Some statements => visit_StatementList statements
  | None => ret tt
  end.

(** *** Declarations *)

Definition is_ArrayTypeNode (t : option TypeNode) : bool :=
  match t with Some (ArrayTypeNode _ _ _) => true | _ => false end.

Definition length_int {A} (l : list A) : Z := Z.of_nat (length l).

Definition visit_VarDecl (node : VarDecl) : Gen unit :=
  let* global := atGlobalScope in
  when (negb global)
       (let var_type := fst (astToSymbolType (vd_type node) ArrayDetails_default) in
        let varCount :=
          fold_left (λ varCount _,
                       if decide (var_type = ARRAY) then varCount
                       else int_add varCount 1)
                    (vd_identifiers node) 0 in
        when (bool_decide (varCount > 0)) (emit_arg "pushn" (to_string varCount))) >>
  match vd_type node with
  | Some (ArrayTypeNode _ startIndex endIndex) =>
      match startIndex, endIndex with
      | Some low, Some high =>
          let size := int_add (int_sub high low) 1 in
          if bool_decide (size <= 0) then throw "Array size must be positive."
          else
            for_each (λ ident,
                        let* entry := lookup (ident_name ident) in
                        match entry with
                        | None =>
                            throw ("CodeGen: Symbol not found during array allocation: "
                                     +:+ ident_name ident)
                        | Some entry =>
                            emit_arg "alloc" (to_string size) >>
                            let* global := atGlobalScope in
                            if global : bool
                            then emit_arg "storeg" (to_string (offset entry))
                            else emit_arg "storel" (to_string (offset entry))
                        end)
                     (vd_identifiers node)
      | _, _ => undefined
      end
  | _ => ret tt
  end.

Definition visit_Declarations (var_decl_items : list VarDecl) : Gen unit :=
  let* global := atGlobalScope in
  when global
       (let varCount :=
          fold_left (λ varCount decl,
                       if is_ArrayTypeNode (vd_type decl) then varCount
                       else wrap (varCount + length_int (vd_identifiers decl)))
                    var_decl_items 0 in
        when (bool_decide (varCount > 0)) (emit_arg "pushn" (to_string varCount))) >>
  for_each visit_VarDecl var_decl_items.

Definition visit_ParameterDeclaration (node : ParameterDeclaration) : Gen unit :=
  let '(param_type, ad) := astToSymbolType (pd_type node) ArrayDetails_default in
  match pd_ids node with
  | None => undefined
  | Some identifiers =>
      for_each (λ ident,
                  let* next := get param_offset in
                  modify (set_param_offset (int_add next 1)) >>
                  let entry := SymbolEntry_ctor (ident_name ident) PARAMETER param_type
                                 (ident_line ident) (ident_column ident) in
                  let entry := set_offset next entry in
                  let entry := if decide (param_type = ARRAY)
                               then set_arrayDetails ad entry else entry in
                  modify (λ g, set_symbolTable (addSymbol entry (symbolTable g)) g))
               identifiers
  end.

Definition visit_ParameterList (paramDeclarations : ParameterList) : Gen unit :=
  for_each (λ param, match param with
                     | Some p => visit_ParameterDeclaration p
                     | None => undefined
                     end) paramDeclarations.

Definition visit_ArgumentsNode (node : ArgumentsNode) : Gen unit :=
  match params node with
  | Some paramDeclarations => visit_ParameterList paramDeclarations
  | None => ret tt
  end.

Definition typeCode (t : EntryTypeCategory) : string :=
  match t with
  | PRIMITIVE_INTEGER => "i"
  | PRIMITIVE_REAL => "r"
  | PRIMITIVE_BOOLEAN => "b"
  | ARRAY => "a"
  | UNKNOWN_TYPE => "u"
  end.

(** The key [visit(SubprogramDeclaration&)] rebuilds from the head to look
    the subprogram up. *)
Definition mangledKey (h : SubprogramHead) : string :=
  let prefix := match h with
                | FunctionHeadNode n _ => "f_" +:+ ident_name n
                | ProcedureHeadNode n _ => "p_" +:+ ident_name n
                end in
  match head_arguments_of h with
  | Some (mkArguments (Some paramDeclarations)) =>
      fold_left
        (λ key param_decl_group,
           match param_decl_group with
           | Some (mkParameterDeclaration (Some identifiers) (Some t)) =>
               let type := fst (astToSymbolType (Some t) ArrayDetails_default) in
               fold_left (λ key _, key +:+ "_" +:+ typeCode type) identifiers key
           | _ => key
           end)
        paramDeclarations prefix
  | _ => prefix
  end.

Definition is_ProcedureHeadNode (h : SubprogramHead) : bool :=
  match h with ProcedureHeadNode _ _ => true | FunctionHeadNode _ _ => false end.

Definition visit_SubprogramDeclaration (node : SubprogramDeclaration) : Gen unit :=
  let* previousContext := get currentFunctionContext in
  modify (set_currentFunctionContext (head node)) >>
  match head node with
  | None => undefined
  | Some h =>
      let* entry := lookup (mangledKey h) in
      match entry with
      | None => throw ("CodeGen: Could not find symbol table entry for subprogram: "
                         +:+ ident_name (head_name_of h))
      | Some entry =>
          let* previousEntry := get currentSubprogramEntry in
          modify (set_currentSubprogramEntry (Some entry)) >>
          let mangledName := getMangledName entry in
          let endLabel := mangledName +:+ "_end" in
          emit_arg "jump" endLabel >>
          emitLabel mangledName >>
          modify (λ g, set_symbolTable (enterScope (symbolTable g)) g) >>
          modify (set_local_offset 0) >>
          modify (set_param_offset 0) >>
          match head_arguments_of h with
          | Some args => visit_ArgumentsNode args
          | None => ret tt
          end >>
          match local_declarations node with
          | Some d => visit_Declarations d
          | None => ret tt
          end >>
          match sub_body node with
          | Some b => visit_CompoundStatementNode b
          | None => ret tt
          end >>
          when (is_ProcedureHeadNode h) (emit "return") >>
          emitLabel endLabel >>
          modify (λ g, set_symbolTable (exitScope (symbolTable g)) g) >>
          modify (set_currentFunctionContext previousContext) >>
          modify (set_currentSubprogramEntry previousEntry)
      end
  end.

Definition visit_SubprogramDeclarations
    (subprograms : list (option SubprogramDeclaration)) : Gen unit :=
  for_each (λ subprog, match subprog with
                       | Some s => visit_SubprogramDeclaration s
                       | None => ret tt
                       end) subprograms.

Definition visit_ProgramNode (node : ProgramNode) : Gen unit :=
  emit "start" >>
  match subprogs node with
  | Some (_ :: _) => emit_arg "jump" "main_entry"
  | _ => ret tt
  end >>
  match subprogs node with
  | Some s => visit_SubprogramDeclarations s
  | None => ret tt
  end >>
  emitLabel "main_entry" >>
  match decls node with
  | Some d => visit_Declarations d
  | None => ret tt
  end >>
  match mainCompoundStmt node with
  | Some b => visit_CompoundStatementNode b
  | None => ret tt
  end >>
  emit "stop".

(** [code.str()]: every line as the stream received it. *)
Definition render_line (l : CodeLine) : string :=
  match l with
  | Ins instruction => "    " +:+ instruction +:+ newline
  | InsArg instruction arg => "    " +:+ instruction +:+ " " +:+ arg +:+ newline
  | Label label => label +:+ ":" +:+ newline
  end.

Definition render (c : list CodeLine) : string :=
  foldr (λ l s, render_line l +:+ s) EmptyString c.

(** [generateCode(ast_root, semanticAnalyzer)] on the generator [this],
    with the analyzer's symbol table. *)
Definition generateCode (ast_root : ProgramNode) (table : SymbolTable)
    (this : CodeGenerator) : Outcome string :=
  (modify (set_symbolTable table) >>
   visit_ProgramNode ast_root >>
   get (λ g, render (code g))) this.

End Visitor.

(** ** Specification vocabulary *)

Section Vocabulary.
Context `{Collaborators}.

(** [m], started on the generator [g] whatever code it already holds,
    returns after appending exactly the lines [c] and leaves the generator
    as [g'] in every member other than [code]. *)
Definition Steps (m : Gen unit) (g : CodeGenerator) (c : list CodeLine)
    (g' : CodeGenerator) : Prop :=
  ∀ pre, m (set_code pre g) = Done tt (set_code (pre ++ c) g').

(** The same for a computation that changes nothing but [code]: in the
    context of [g], the code of [m] is [c]. *)
Definition Emits (m : Gen unit) (g : CodeGenerator) (c : list CodeLine) : Prop :=
  Steps m g c g.

(** The outcome [o] with [pre] put in front of the code it holds. *)
Definition prefix_outcome {A} (pre : list CodeLine) (o : Outcome A) : Outcome A :=
  match o with
  | Done a g => Done a (set_code (pre ++ code g) g)
  | Thrown w g => Thrown w (set_code (pre ++ code g) g)
  | Undefined => Undefined
  end.

(** [m] never inspects the code emitted before it: it only appends. *)
Definition parametric {A} (m : Gen A) : Prop :=
  ∀ pre g, m (set_code (pre ++ code g) g) = prefix_outcome pre (m g).

(** [m] changes no member of the generator other than [code]. *)
Definition only_code {A} (m : Gen A) : Prop :=
  ∀ g, match m g with
       | Done _ g' | Thrown _ g' => g' = set_code (code g') g
       | Undefined => True
       end.

(** The labels defined in a piece of code, in order. *)
Definition labels_of (c : list CodeLine) : list string :=
  omap (λ l, match l with Label s => Some s | _ => None end) c.

(** The coercion [visit(BinaryOpNode&)] emits after an operand. *)
Definition coercion (is_real : bool) (operand : ExprNode) : list CodeLine :=
  if is_real && bool_decide (determinedType operand = PRIMITIVE_INTEGER)
  then [Ins "itof"] else [].

(** The line that pushes the cell [off] of the frame [scope] selects. *)
Definition slot_push (scope : SymbolScope) (off : Z) : CodeLine :=
  if decide (scope = LOCAL) then InsArg "pushl" (to_string off)
  else InsArg "pushg" (to_string off).

(** The two lines [visit(VarDecl&)] emits for one array identifier. *)
Definition array_alloc (size : Z) (global : bool) (entry : SymbolEntry)
    : list CodeLine :=
  [InsArg "alloc" (to_string size);
   InsArg (if global then "storeg" else "storel") (to_string (offset entry))].

(** The store that ends an assignment to the non-indexed variable that
    [entry] describes. *)
Definition slot_store (entry : SymbolEntry) (scope : SymbolScope) : CodeLine :=
  if decide (kind entry = PARAMETER)
  then InsArg "storel" (to_string (int_neg (int_add (offset entry) 1)))
  else if decide (scope = LOCAL) then InsArg "storel" (to_string (offset entry))
  else InsArg "storeg" (to_string (offset entry)).

(** The generator as [visit(SubprogramDeclaration&)] has it when it starts
    on the parameters of the subprogram [h] resolved to [entry]: both
    contexts set, the scope entered, the two offset counters reset. *)
Definition entered (h : SubprogramHead) (entry : SymbolEntry)
    (g : CodeGenerator) : CodeGenerator :=
  set_param_offset 0
    (set_local_offset 0
       (set_symbolTable (enterScope (symbolTable g))
          (set_currentSubprogramEntry (Some entry)
             (set_currentFunctionContext (Some h) g)))).

(** What it visits between the entry label and the end of the body:
    parameters, local declarations, body. *)
Definition interior (node : SubprogramDeclaration) (h : SubprogramHead) : Gen unit :=
  (match head_arguments_of h with
   | Some args => visit_ArgumentsNode args
   | None => ret tt
   end >>
   match local_declarations node with
   | Some d => visit_Declarations d
   | None => ret tt
   end >>
   match sub_body node with
   | Some b => visit_CompoundStatementNode b
   | None => ret tt
   end)%gen.

(** The generator [gb] reached at the end of a body, after the scope is
    left and the contexts that [g] held are restored. *)
Definition left_scope (g gb : CodeGenerator) : CodeGenerator :=
  set_currentSubprogramEntry (currentSubprogramEntry g)
    (set_currentFunctionContext (currentFunctionContext g)
       (set_symbolTable (exitScope (symbolTable gb)) gb)).

(** The entry [visit(ParameterDeclaration&)] adds for the identifier
    [ident] of a group of type [t] when the counter stands at [off]. *)
Definition parameter_entry_of (t : option TypeNode) (off : Z)
    (ident : IdentNode) : SymbolEntry :=
  let '(param_type, ad) := astToSymbolType t ArrayDetails_default in
  let entry := set_offset off
                 (SymbolEntry_ctor (ident_name ident) PARAMETER param_type
                    (ident_line ident) (ident_column ident)) in
  if decide (param_type = ARRAY) then set_arrayDetails ad entry else entry.

(** The parameters of a list, group after group, each with the type of
    its group; [None] when a group or its identifier list is null. *)
Fixpoint flat_parameters (l : ParameterList)
    : option (list (option TypeNode * IdentNode)) :=
  match l with
  | [] => Some []
  | Some (mkParameterDeclaration (Some ids) t) :: l' =>
      match flat_parameters l' with
      | Some ps => Some (((λ i, (t, i)) <$> ids) ++ ps)
      | None => None
      end
  | _ => None
  end.

(** Their entries, numbered upwards from [start]. *)
Fixpoint number_parameters (start : Z) (ps : list (option TypeNode * IdentNode))
    : list SymbolEntry :=
  match ps with
  | [] => []
  | (t, i) :: ps' => parameter_entry_of t start i :: number_parameters (int_add start 1) ps'
  end.

(** The label [newLabel(prefix)] returns when the counter stands at [k],
    and the prefixes the visitor passes to it. *)
Definition counter_label (prefix : string) (k : N) : string :=
  "L_" +:+ prefix +:+ "_" +:+ pretty k.

Definition label_prefixes : list string :=
  ["ELSE"; "END_IF"; "WHILE_START"; "WHILE_END"].

(** Every label defined in [c] is a counter label whose number satisfies
    [S], and no number is used twice. *)
Definition labelled_in (S : N → Prop) (c : list CodeLine) : Prop :=
  ∃ ks : list (string * N),
    labels_of c = (λ pk, counter_label pk.1 pk.2) <$> ks
    ∧ Forall (λ pk, pk.1 ∈ label_prefixes ∧ S pk.2) ks
    ∧ NoDup (ks.*2).

(** The same with the numbers in [lo, hi). *)
Definition labelled (lo hi : N) (c : list CodeLine) : Prop :=
  labelled_in (λ k, lo ≤ k < hi)%N c.

(** [m] changes nothing but [code], and defines no label. *)
Definition plain {A} (m : Gen A) : Prop :=
  ∀ g, match m g with
       | Done _ g' | Thrown _ g' =>
           ∃ c, g' = set_code (code g ++ c) g ∧ labels_of c = []
       | Undefined => True
       end.

(** The operands of the [jz] and [jump] instructions in a piece of code,
    in order. *)
Definition jump_targets (c : list CodeLine) : list string :=
  omap (λ l, match l with
             | InsArg i a =>
                 if bool_decide (i = "jz") || bool_decide (i = "jump")
                 then Some a else None
             | _ => None
             end) c.

(** [m] changes nothing but [code], and what it appends is straight-line
    code: no label is defined and no [jz] or [jump] is emitted. *)
Definition straight {A} (m : Gen A) : Prop :=
  ∀ g, match m g with
       | Done _ g' | Thrown _ g' =>
           ∃ c, g' = set_code (code g ++ c) g
                ∧ labels_of c = [] ∧ jump_targets c = []
       | Undefined => True
       end.

(** The [pushn] that reserves the cells of one group of [k] identifiers. *)
Definition reserve (k : nat) : list CodeLine :=
  if bool_decide (0 < k)%nat then [InsArg "pushn" (to_string (Z.of_nat k))] else [].

(** The instruction [write] and [writeln] emit after the code of one
    argument. *)
Definition write_instruction (arg : ExprNode) : list CodeLine :=
  if is_StringLiteralNode arg then [Ins "writes"]
  else if bool_decide (determinedType arg = PRIMITIVE_INTEGER)
          || bool_decide (determinedType arg = PRIMITIVE_BOOLEAN)
       then [Ins "writei"]
  else if bool_decide (determinedType arg = PRIMITIVE_REAL) then [Ins "writef"]
  else [].

(** The categories of the parameters that count in the key of a head, one
    per identifier, and the suffix they contribute. *)
Definition signature (h : SubprogramHead) : list EntryTypeCategory :=
  match head_arguments_of h with
  | Some (mkArguments (Some paramDeclarations)) =>
      paramDeclarations ≫=
        λ group, match group with
                 | Some (mkParameterDeclaration (Some identifiers) (Some t)) =>
                     replicate (length identifiers)
                       (fst (astToSymbolType (Some t) ArrayDetails_default))
                 | _ => []
                 end
  | _ => []
  end.

Definition type_codes (sig : list EntryTypeCategory) : string :=
  foldr (λ t s, "_" +:+ typeCode t +:+ s) EmptyString sig.

Definition head_prefix (h : SubprogramHead) : string :=
  match h with FunctionHeadNode _ _ => "f_" | ProcedureHeadNode _ _ => "p_" end.

(** In what [m] appends when it returns, every [jz] and every [jump]
    goes to a label that the appended code defines. *)
Definition resolved {A} (m : Gen A) : Prop :=
  ∀ g a g', m g = Done a g' →
    ∃ c, code g' = code g ++ c ∧ jump_targets c ⊆ labels_of c.

(** [m] leaves the tables alone: it changes nothing but [code] and the
    label counter, whether it returns or throws. *)
Definition keeps_tables {A} (m : Gen A) : Prop :=
  ∀ g, match m g with
       | Done _ g' | Thrown _ g' =>
           g' = set_labelCounter (labelCounter g') (set_code (code g') g)
       | Undefined => True
       end.

(** The operators [visit(BinaryOpNode&)] has an instruction for. *)
Definition binary_ops : list string :=
  ["+"; "-"; "*"; "/"; "DIV_OP"; "EQ_OP"; "NEQ_OP"; "LT_OP"; "LTE_OP";
   "GT_OP"; "GTE_OP"; "AND_OP"; "OR_OP"].


End Vocabulary.

(** ** A reference instance of the collaborators

    Modelled from the spec: the symbol table is a stack of lexical scopes,
    each holding named entries, with enter-scope, exit-scope, add-entry,
    innermost-first lookup by name and an is-global-scope test; subprogram
    entries are keyed by their mangled name.  It is used to run the
    generator on concrete programs. *)

Definition entry_key (e : SymbolEntry) : string :=
  match kind e with
  | FUNCTION | PROCEDURE => mangledName e
  | VARIABLE | PARAMETER => name e
  end.

Definition ScopeStack : Type := list (gmap string SymbolEntry).

Fixpoint stack_lookup (k : string) (st : ScopeStack) : option SymbolEntry :=
  match st with
  | [] => None
  | sc :: st' =>
      match sc !! k with
      | Some e => Some e
      | None => stack_lookup k st'
      end
  end.

Definition stack_add (e : SymbolEntry) (st : ScopeStack) : ScopeStack :=
  match st with
  | [] => []
  | sc :: st' => <[entry_key e := e]> sc :: st'
  end.

Definition no_details : ArrayDetails := mkArrayDetails UNKNOWN_TYPE 0 0 false.

Definition reference : Collaborators := {|
  double := string;
  double_to_string := id;
  SymbolTable := ScopeStack;
  isGlobalScope := λ st, bool_decide (length st = 1%nat);
  enterScope := λ st, ∅ :: st;
  exitScope := λ st, tail st;
  addSymbol := stack_add;
  lookupSymbol := stack_lookup;
  SymbolEntry_default :=
    mkSymbolEntry EmptyString VARIABLE UNKNOWN_TYPE 0 0 0 no_details
      EmptyString 0 UNKNOWN_TYPE;
  ArrayDetails_default := no_details
|}.

Section Examples.
Local Existing Instance reference.

Definition id_ (n : string) : IdentNode := mkIdent n 1 1.

Definition variable_entry (n : string) (t : EntryTypeCategory) (off : Z)
    (ad : ArrayDetails) : SymbolEntry :=
  mkSymbolEntry n VARIABLE t 1 1 off ad EmptyString 0 UNKNOWN_TYPE.

Definition parameter_entry (n : string) (t : EntryTypeCategory) (off : Z)
    (ad : ArrayDetails) : SymbolEntry :=
  mkSymbolEntry n PARAMETER t 1 1 off ad EmptyString 0 UNKNOWN_TYPE.

Definition function_entry (n mangled : string) (arity : Z)
    (result : EntryTypeCategory) : SymbolEntry :=
  mkSymbolEntry n FUNCTION result 1 1 0 no_details mangled arity result.

Definition procedure_entry (n mangled : string) (arity : Z) : SymbolEntry :=
  mkSymbolEntry n PROCEDURE UNKNOWN_TYPE 1 1 0 no_details mangled arity UNKNOWN_TYPE.

Definition table_of (entries : list SymbolEntry) : ScopeStack :=
  [list_to_map ((λ e, (entry_key e, e)) <$> entries)].

(** A generator with nothing emitted, no context set, on [table]. *)
Definition fresh_generator (table : ScopeStack) : CodeGenerator :=
  mkCodeGenerator [] 0 table 0 0 None None.

Definition int_ (n : Z) : ExprNode := IntNumNode PRIMITIVE_INTEGER n.
Definition real_ (r : string) : ExprNode := RealNumNode PRIMITIVE_REAL r.

(** [function f(a: real; b: integer): real], [procedure p(x: integer)],
    [x: integer] and [v: array[1..5] of real] at global scope. *)
Definition f_entry : SymbolEntry := function_entry "f" "f_f_r_i" 2 PRIMITIVE_REAL.
Definition p_entry : SymbolEntry := procedure_entry "p" "p_p_i" 1.
Definition x_entry : SymbolEntry := variable_entry "x" PRIMITIVE_INTEGER 0 no_details.
Definition v_entry : SymbolEntry :=
  variable_entry "v" ARRAY 1 (mkArrayDetails PRIMITIVE_REAL 1 5 true).

Definition globals : ScopeStack := table_of [f_entry; p_entry; x_entry; v_entry].

(** [f(1.0, 2)] and [p(7)]. *)
Definition call_f : ExprNode :=
  FunctionCallExprNode PRIMITIVE_REAL (id_ "f")
    (Some [real_ "1.000000"; int_ 2]) (Some f_entry).
Definition call_p : StatementNode :=
  ProcedureCallStatementNode (id_ "p") (Some [int_ 7]) (Some p_entry).

(** [1 / 2] on two integer operands. *)
Definition one_half : ExprNode := BinaryOpNode PRIMITIVE_REAL "/" (int_ 1) (int_ 2).

(** [v: array[1..5] of real] and [w: array[5..1] of real] as declarations. *)
Definition v_decl : VarDecl :=
  mkVarDecl (Some (ArrayTypeNode (Some TYPE_REAL) (Some 1) (Some 5))) [id_ "v"].
Definition w_decl : VarDecl :=
  mkVarDecl (Some (ArrayTypeNode (Some TYPE_REAL) (Some 5) (Some 1))) [id_ "w"].

(** [v[2] := 3] and [v[x] := 3], integer expressions into a real array. *)
Definition x_ref : ExprNode := IdExprNode PRIMITIVE_INTEGER (id_ "x") VARIABLE GLOBAL.
Definition store_literal : StatementNode :=
  AssignStatementNode
    (VariableNode PRIMITIVE_REAL (id_ "v") (Some (int_ 2)) GLOBAL 1) (int_ 3).
Definition store_computed : StatementNode :=
  AssignStatementNode
    (VariableNode PRIMITIVE_REAL (id_ "v") (Some x_ref) GLOBAL 1) (int_ 3).

(** [x := 1] and [x := 2], and [if x then x := 1 else x := 2]. *)
Definition x_becomes (n : Z) : StatementNode :=
  AssignStatementNode (VariableNode PRIMITIVE_INTEGER (id_ "x") None GLOBAL 0) (int_ n).
Definition if_else : StatementNode :=
  IfStatementNode x_ref (x_becomes 1) (Some (x_becomes 2)).

(** [procedure p(x: integer); begin x := 1 end]. *)
Definition p_head : SubprogramHead :=
  ProcedureHeadNode (id_ "p")
    (Some (mkArguments
       (Some [Some (mkParameterDeclaration (Some [id_ "x"])
                      (Some (StandardTypeNode TYPE_INTEGER)))]))).
Definition p_decl : SubprogramDeclaration :=
  mkSubprogramDeclaration (Some p_head) None
    (Some (Some [Some (AssignStatementNode
                         (VariableNode PRIMITIVE_INTEGER (id_ "x") None LOCAL 0)
                         (int_ 1))])).

(** Inside [procedure q(a: array[1..5] of integer)]: the scope of [q] on
    top of the global one, with the parameter [a] at offset 0. *)
Definition a_entry : SymbolEntry :=
  parameter_entry "a" ARRAY 0 (mkArrayDetails PRIMITIVE_INTEGER 1 5 true).
Definition inside_q : ScopeStack :=
  list_to_map [("a", a_entry)] :: globals.

(** [a[2]] read, and [a[2] := 5]. *)
Definition a_2 : ExprNode :=
  VariableNode PRIMITIVE_INTEGER (id_ "a") (Some (int_ 2)) LOCAL 0.
Definition a_2_becomes_5 : StatementNode := AssignStatementNode a_2 (int_ 5).

(** [function foo: integer; begin return 1 end] and the same named
    [foo_end], in one program with an empty main block. *)
Definition returns_one (n : string) : SubprogramDeclaration :=
  mkSubprogramDeclaration (Some (FunctionHeadNode (id_ n) None)) None
    (Some (Some [Some (ReturnStatementNode (Some (int_ 1)))])).
Definition foo_program : ProgramNode :=
  mkProgram (Some [Some (returns_one "foo"); Some (returns_one "foo_end")])
    None (Some (Some [])).
Definition foo_table : ScopeStack :=
  table_of [function_entry "foo" "f_foo" 0 PRIMITIVE_INTEGER;
            function_entry "foo_end" "f_foo_end" 0 PRIMITIVE_INTEGER].

(** A generator inside [function f(a: real; b: integer): real]. *)
Definition inside_f : CodeGenerator :=
  mkCodeGenerator [] 0 globals 0 0 None (Some f_entry).

(** [while x do if x then x := 1 else x := 2], and the generator after
    [if_else] and then the loop have been generated on a fresh one. *)
Definition loop : StatementNode := WhileStatementNode x_ref if_else.
Definition if_else_code : list CodeLine :=
  [InsArg "pushg" "0"; InsArg "jz" "L_ELSE_0"; InsArg "pushi" "1";
   InsArg "storeg" "0"; InsArg "jump" "L_END_IF_1"; Label "L_ELSE_0";
   InsArg "pushi" "2"; InsArg "storeg" "0"; Label "L_END_IF_1"].
Definition loop_code : list CodeLine :=
  [Label "L_WHILE_START_2"; InsArg "pushg" "0"; InsArg "jz" "L_WHILE_END_3";
   InsArg "pushg" "0"; InsArg "jz" "L_ELSE_4"; InsArg "pushi" "1";
   InsArg "storeg" "0"; InsArg "jump" "L_END_IF_5"; Label "L_ELSE_4";
   InsArg "pushi" "2"; InsArg "storeg" "0"; Label "L_END_IF_5";
   InsArg "jump" "L_WHILE_START_2"; Label "L_WHILE_END_3"].
Definition after_if_else : CodeGenerator :=
  mkCodeGenerator if_else_code 2 globals 0 0 None None.
Definition after_loop : CodeGenerator :=
  mkCodeGenerator (if_else_code ++ loop_code) 6 globals 0 0 None None.

(** [x, y: integer; z: real] as declarations, and [(a, b: integer; c: real)]
    as a parameter list. *)
Definition scalars : list VarDecl :=
  [mkVarDecl (Some (StandardTypeNode TYPE_INTEGER)) [id_ "x"; id_ "y"];
   mkVarDecl (Some (StandardTypeNode TYPE_REAL)) [id_ "z"]].
Definition two_groups : ParameterList :=
  [Some (mkParameterDeclaration (Some [id_ "a"; id_ "b"])
           (Some (StandardTypeNode TYPE_INTEGER)));
   Some (mkParameterDeclaration (Some [id_ "c"])
           (Some (StandardTypeNode TYPE_REAL)))].

(** [writeln('n = ', x)] and [1 mod 2] under an operator the generator
    does not know. *)
Definition writeln_x : StatementNode :=
  ProcedureCallStatementNode (id_ "writeln")
    (Some [StringLiteralNode UNKNOWN_TYPE "n = "; x_ref]) None.
Definition one_mod_two : ExprNode :=
  BinaryOpNode PRIMITIVE_INTEGER "MOD_OP" (int_ 1) (int_ 2).

(** [procedure p(x: integer); begin x := 1 end] followed by the main
    block [if x then x := 1 else x := 2], and the generator it leaves. *)
Definition small_program : ProgramNode :=
  mkProgram (Some [Some p_decl]) None (Some (Some [Some if_else])).
Definition after_small_program : CodeGenerator :=
  mkCodeGenerator
    ([Ins "start"; InsArg "jump" "main_entry"; InsArg "jump" "p_p_i_end";
      Label "p_p_i"; InsArg "pushi" "1"; InsArg "storel" "-1"; Ins "return";
      Label "p_p_i_end"; Label "main_entry"] ++ if_else_code ++ [Ins "stop"])
    2 globals 0 1 None None.


End Examples.

(** * Properties *)

Section Properties.
Context `{Collaborators}.
Local Open Scope gen_scope.

(** ** The generator object *)

Lemma set_code_code (g : CodeGenerator) : set_code (code g) g = g.
Proof. by destruct g. Qed.

Lemma set_code_set_code c c' (g : CodeGenerator) :
  set_code c (set_code c' g) = set_code c g.
Proof. by destruct g. Qed.

Lemma code_set_code c (g : CodeGenerator) : code (set_code c g) = c.
Proof. by destruct g. Qed.

Lemma set_code_inj_l c1 c2 (g1 g2 : CodeGenerator) :
  set_code c1 g1 = set_code c2 g2 → c1 = c2.
Proof. intros E. apply (f_equal code) in E. by rewrite !code_set_code in E. Qed.

(** ** Sequencing *)

Lemma bind_Done {A B} (m : Gen A) (k : A → Gen B) g b g'' :
  bind m k g = Done b g'' ↔ ∃ a g', m g = Done a g' ∧ k a g' = Done b g''.
Proof.
  unfold bind. split.
  - destruct (m g) as [a g'| |]; [eauto|done..].
  - intros (a & g' & -> & E). done.
Qed.

Lemma parametric_ret {A} (a : A) : parametric (ret a).
Proof. intros pre g. done. Qed.

Lemma parametric_throw {A} w : parametric (throw (A:=A) w).
Proof. intros pre g. done. Qed.

Lemma parametric_undefined {A} : parametric (undefined (A:=A)).
Proof. intros pre g. done. Qed.

Lemma parametric_bind {A B} (m : Gen A) (k : A → Gen B) :
  parametric m → (∀ a, parametric (k a)) → parametric (bind m k).
Proof.
  intros Hm Hk pre g. unfold bind. rewrite Hm.
  destruct (m g) as [a g'| |]; simpl; [apply Hk|done..].
Qed.

Lemma parametric_when b (m : Gen unit) : parametric m → parametric (when b m).
Proof. destruct b; [done|]. intros _. apply parametric_ret. Qed.

Lemma parametric_emit i : parametric (emit i).
Proof.
  intros pre [c ? ? ? ? ? ?]. unfold emit, emit_arg, emitLabel, modify.
  simpl. unfold set_code. simpl. by rewrite app_assoc.
Qed.

Lemma parametric_emit_arg i a : parametric (emit_arg i a).
Proof.
  intros pre [c ? ? ? ? ? ?]. unfold emit, emit_arg, emitLabel, modify.
  simpl. unfold set_code. simpl. by rewrite app_assoc.
Qed.

Lemma parametric_emitLabel l : parametric (emitLabel l).
Proof.
  intros pre [c ? ? ? ? ? ?]. unfold emit, emit_arg, emitLabel, modify.
  simpl. unfold set_code. simpl. by rewrite app_assoc.
Qed.

Lemma parametric_newLabel p : parametric (newLabel p).
Proof. intros pre [c ? ? ? ? ? ?]. done. Qed.

Lemma parametric_lookup n : parametric (lookup n).
Proof. intros pre [c ? ? ? ? ? ?]. done. Qed.

Lemma parametric_atGlobalScope : parametric atGlobalScope.
Proof. intros pre [c ? ? ? ? ? ?]. done. Qed.

Lemma parametric_for_each {A} (f : A → Gen unit) l :
  Forall (λ x, parametric (f x)) l → parametric (for_each f l).
Proof.
  induction 1 as [|x l Hx _ IH]; simpl.
  - apply parametric_ret.
  - apply parametric_bind; auto.
Qed.

Lemma parametric_for_each_rev {A} (f : A → Gen unit) l :
  Forall (λ x, parametric (f x)) l → parametric (for_each_rev f l).
Proof.
  induction 1 as [|x l Hx _ IH]; simpl.
  - apply parametric_ret.
  - apply parametric_bind; auto.
Qed.

Lemma only_code_ret {A} (a : A) : only_code (ret a).
Proof. intros g. simpl. by rewrite set_code_code. Qed.

Lemma only_code_throw {A} w : only_code (throw (A:=A) w).
Proof. intros g. simpl. by rewrite set_code_code. Qed.

Lemma only_code_bind {A B} (m : Gen A) (k : A → Gen B) :
  only_code m → (∀ a, only_code (k a)) → only_code (bind m k).
Proof.
  intros Hm Hk g. unfold bind. specialize (Hm g).
  destruct (m g) as [a g1|w g1|]; [|done..].
  specialize (Hk a g1). destruct (k a g1) as [b g2|w g2|]; [| |done].
  - rewrite Hk, Hm at 1. by rewrite set_code_set_code.
  - rewrite Hk, Hm at 1. by rewrite set_code_set_code.
Qed.

Lemma only_code_when b (m : Gen unit) : only_code m → only_code (when b m).
Proof. destruct b; [done|]. intros _. apply only_code_ret. Qed.

Lemma only_code_emit i : only_code (emit i).
Proof. by intros [c ? ? ? ? ? ?]. Qed.

Lemma only_code_emit_arg i a : only_code (emit_arg i a).
Proof. by intros [c ? ? ? ? ? ?]. Qed.

Lemma only_code_lookup n : only_code (lookup n).
Proof. by intros [c ? ? ? ? ? ?]. Qed.

Lemma only_code_for_each {A} (f : A → Gen unit) l :
  Forall (λ x, only_code (f x)) l → only_code (for_each f l).
Proof.
  induction 1 as [|x l Hx _ IH]; simpl.
  - apply only_code_ret.
  - apply only_code_bind; auto.
Qed.

Lemma only_code_for_each_rev {A} (f : A → Gen unit) l :
  Forall (λ x, only_code (f x)) l → only_code (for_each_rev f l).
Proof.
  induction 1 as [|x l Hx _ IH]; simpl.
  - apply only_code_ret.
  - apply only_code_bind; auto.
Qed.

(** ** Induction over the syntax tree *)

Section ExprNode_induction.
Variable P : ExprNode → Prop.
Hypothesis HInt : ∀ d v, P (IntNumNode d v).
Hypothesis HReal : ∀ d v, P (RealNumNode d v).
Hypothesis HBool : ∀ d v, P (BooleanLiteralNode d v).
Hypothesis HString : ∀ d v, P (StringLiteralNode d v).
Hypothesis HVariable : ∀ d i idx sc off,
  (∀ e, idx = Some e → P e) → P (VariableNode d i idx sc off).
Hypothesis HId : ∀ d i k sc, P (IdExprNode d i k sc).
Hypothesis HCall : ∀ d f args r,
  (∀ l, args = Some l → Forall P l) → P (FunctionCallExprNode d f args r).
Hypothesis HUnary : ∀ d op e, P e → P (UnaryOpNode d op e).
Hypothesis HBinary : ∀ d op l r, P l → P r → P (BinaryOpNode d op l r).

Lemma ExprNode_induction : ∀ e, P e.
Proof.
  fix IH 1. intros [d v|d v|d v|d v|d i idx sc off|d i k sc|d f args r|d op e|d op l r].
  - apply HInt.
  - apply HReal.
  - apply HBool.
  - apply HString.
  - apply HVariable. destruct idx as [e|]; intros e' E; [|discriminate].
    injection E as <-. apply IH.
  - apply HId.
  - apply HCall. destruct args as [l|]; intros l' E; [|discriminate].
    injection E as <-.
    revert l. fix IHl 1. intros [|x l]; constructor; [apply IH|apply IHl].
  - apply HUnary, IH.
  - apply HBinary; apply IH.
Qed.

End ExprNode_induction.

Section StatementNode_induction.
Variable P : StatementNode → Prop.
Hypothesis HAssign : ∀ v e, P (AssignStatementNode v e).
Hypothesis HIf : ∀ c t e,
  P t → (∀ s, e = Some s → P s) → P (IfStatementNode c t e).
Hypothesis HWhile : ∀ c b, P b → P (WhileStatementNode c b).
Hypothesis HCall : ∀ p a r, P (ProcedureCallStatementNode p a r).
Hypothesis HReturn : ∀ v, P (ReturnStatementNode v).
Hypothesis HCompound : ∀ stmts,
  (∀ l, stmts = Some l → Forall (λ o, ∀ s, o = Some s → P s) l) →
  P (CompoundStatementNode stmts).

Lemma StatementNode_induction : ∀ s, P s.
Proof.
  fix IH 1. intros [v e|c t e|c b|p a r|v|stmts].
  - apply HAssign.
  - apply HIf; [apply IH|]. destruct e as [s|]; intros s' E; [|discriminate].
    injection E as <-. apply IH.
  - apply HWhile, IH.
  - apply HCall.
  - apply HReturn.
  - apply HCompound. destruct stmts as [l|]; intros l' E; [|discriminate].
    injection E as <-.
    revert l. fix IHl 1. intros [|o l]; constructor; [|apply IHl].
    destruct o as [s|]; intros s' E; [|discriminate].
    injection E as <-. apply IH.
Qed.

End StatementNode_induction.

(** ** The visitors only append, and expressions change nothing else *)

Create HintDb parametric discriminated.
Create HintDb only_code discriminated.

Ltac parametric_step :=
  lazymatch goal with
  | |- parametric (bind _ _) => apply parametric_bind; [|intros ?]
  | |- parametric (ret _) => apply parametric_ret
  | |- parametric (throw _) => apply parametric_throw
  | |- parametric undefined => apply parametric_undefined
  | |- parametric (emit _) => apply parametric_emit
  | |- parametric (emit_arg _ _) => apply parametric_emit_arg
  | |- parametric (emitLabel _) => apply parametric_emitLabel
  | |- parametric (newLabel _) => apply parametric_newLabel
  | |- parametric (lookup _) => apply parametric_lookup
  | |- parametric atGlobalScope => apply parametric_atGlobalScope
  | |- parametric (when _ _) => apply parametric_when
  | |- parametric (match ?x with _ => _ end) => destruct x
  | |- parametric _ => solve [auto with parametric]
  end.

Ltac only_code_step :=
  lazymatch goal with
  | |- only_code (bind _ _) => apply only_code_bind; [|intros ?]
  | |- only_code (ret _) => apply only_code_ret
  | |- only_code (throw _) => apply only_code_throw
  | |- only_code (emit _) => apply only_code_emit
  | |- only_code (emit_arg _ _) => apply only_code_emit_arg
  | |- only_code (lookup _) => apply only_code_lookup
  | |- only_code (when _ _) => apply only_code_when
  | |- only_code (match ?x with _ => _ end) => destruct x
  | |- only_code _ => solve [auto with only_code]
  end.

Lemma parametric_binary_instruction op r : parametric (binary_instruction op r).
Proof. unfold binary_instruction. repeat parametric_step. Qed.

Lemma only_code_binary_instruction op r : only_code (binary_instruction op r).
Proof. unfold binary_instruction. repeat only_code_step. Qed.

Lemma parametric_push_slot sc off : parametric (push_slot sc off).
Proof. unfold push_slot. repeat parametric_step. Qed.

Lemma only_code_push_slot sc off : only_code (push_slot sc off).
Proof. unfold push_slot. repeat only_code_step. Qed.

#[local] Hint Resolve parametric_binary_instruction parametric_push_slot : parametric.
#[local] Hint Resolve only_code_binary_instruction only_code_push_slot : only_code.

Lemma parametric_visit_ExprNode e : parametric (visit_ExprNode e).
Proof.
  induction e as [| | | |d i idx sc off IH| |d f args r IH| |] using ExprNode_induction;
    simpl.
  1-4, 6, 8-9: repeat parametric_step.
  - destruct idx as [idx|]; [|repeat parametric_step].
    pose proof (IH idx eq_refl) as Hm. revert Hm.
    generalize (visit_ExprNode idx). intros m Hm.
    repeat parametric_step.
  - destruct r as [callee|]; [|repeat parametric_step].
    assert (parametric (match args with
                        | Some exprs => for_each_rev visit_ExprNode exprs
                        | None => ret tt
                        end)).
    { destruct args as [l|]; [|apply parametric_ret].
      apply parametric_for_each_rev. by apply IH. }
    repeat parametric_step.
Qed.

Lemma only_code_visit_ExprNode e : only_code (visit_ExprNode e).
Proof.
  induction e as [| | | |d i idx sc off IH| |d f args r IH| |] using ExprNode_induction;
    simpl.
  1-4, 6, 8-9: repeat only_code_step.
  - destruct idx as [idx|]; [|repeat only_code_step].
    pose proof (IH idx eq_refl) as Hm. revert Hm.
    generalize (visit_ExprNode idx). intros m Hm.
    repeat only_code_step.
  - destruct r as [callee|]; [|repeat only_code_step].
    assert (only_code (match args with
                       | Some exprs => for_each_rev visit_ExprNode exprs
                       | None => ret tt
                       end)).
    { destruct args as [l|]; [|apply only_code_ret].
      apply only_code_for_each_rev. by apply IH. }
    repeat only_code_step.
Qed.

#[local] Hint Resolve parametric_visit_ExprNode : parametric.
#[local] Hint Resolve only_code_visit_ExprNode : only_code.

Lemma parametric_get {A} (f : CodeGenerator → A) :
  (∀ c g, f (set_code c g) = f g) → parametric (get f).
Proof. intros Hf pre g. unfold get. simpl. by rewrite !Hf. Qed.

Lemma parametric_modify (f : CodeGenerator → CodeGenerator) :
  (∀ c g, f (set_code c g) = set_code c (f g)) →
  (∀ g, code (f g) = code g) → parametric (modify f).
Proof.
  intros Hf Hc pre g. unfold modify. simpl.
  by rewrite Hf, Hc.
Qed.

Ltac parametric_state :=
  first [ apply parametric_get | apply parametric_modify ];
  try (intros ? [? ? ? ? ? ? ?]; reflexivity);
  try (intros [? ? ? ? ? ? ?]; reflexivity).

Ltac parametric_tac :=
  repeat lazymatch goal with
         | |- parametric (get _) => parametric_state
         | |- parametric (modify _) => parametric_state
         | |- _ => parametric_step
         end.

Lemma parametric_visit_AssignStatementNode v e :
  parametric (visit_AssignStatementNode v e).
Proof.
  unfold visit_AssignStatementNode, store_slot.
  destruct v as [| | | |d i [idx|] sc off| | | |]; try apply parametric_ret.
  - pose proof (parametric_visit_ExprNode idx) as Hm. revert Hm.
    generalize (visit_ExprNode idx). intros m Hm. parametric_tac.
  - parametric_tac.
Qed.

Lemma parametric_write_argument arg : parametric (write_argument arg).
Proof. unfold write_argument. parametric_tac. Qed.

Lemma parametric_visit_ProcedureCallStatementNode p a r :
  parametric (visit_ProcedureCallStatementNode p a r).
Proof.
  unfold visit_ProcedureCallStatementNode.
  assert (parametric (match a with
                      | Some exprs => for_each_rev visit_ExprNode exprs
                      | None => ret tt
                      end)).
  { destruct a as [l|]; [|apply parametric_ret].
    apply parametric_for_each_rev, Forall_forall.
    intros; apply parametric_visit_ExprNode. }
  assert (parametric (match a with
                      | Some exprs => for_each write_argument exprs
                      | None => ret tt
                      end)).
  { destruct a as [l|]; [|apply parametric_ret].
    apply parametric_for_each, Forall_forall.
    intros; apply parametric_write_argument. }
  parametric_tac.
Qed.

Lemma parametric_visit_ReturnStatementNode v :
  parametric (visit_ReturnStatementNode v).
Proof. unfold visit_ReturnStatementNode. parametric_tac. Qed.

Lemma parametric_visit_StatementNode s : parametric (visit_StatementNode s).
Proof.
  induction s as [v e|c t e IHt IHe|c b IHb|p a r|v|stmts IH]
    using StatementNode_induction; simpl.
  - apply parametric_visit_AssignStatementNode.
  - assert (parametric (match e with
                        | Some elseStmt => visit_StatementNode elseStmt
                        | None => ret tt
                        end)).
    { destruct e as [s|]; [by apply IHe|apply parametric_ret]. }
    assert (∀ l, parametric (match e with
                             | Some _ => emit_arg "jump" l
                             | None => ret tt
                             end)).
    { intros l. destruct e; parametric_tac. }
    parametric_tac.
  - parametric_tac.
  - apply parametric_visit_ProcedureCallStatementNode.
  - apply parametric_visit_ReturnStatementNode.
  - destruct stmts as [l|]; [|apply parametric_ret].
    apply parametric_for_each. specialize (IH l eq_refl).
    eapply Forall_impl; [exact IH|]. intros [s|] Hs; simpl.
    + by apply Hs.
    + apply parametric_ret.
Qed.

Lemma parametric_visit_StatementList l : parametric (visit_StatementList l).
Proof.
  apply parametric_for_each, Forall_forall. intros [s|] _.
  - apply parametric_visit_StatementNode.
  - apply parametric_ret.
Qed.

Lemma parametric_visit_CompoundStatementNode b :
  parametric (visit_CompoundStatementNode b).
Proof.
  destruct b as [l|]; [apply parametric_visit_StatementList|apply parametric_ret].
Qed.

Lemma parametric_visit_VarDecl d : parametric (visit_VarDecl d).
Proof.
  unfold visit_VarDecl.
  apply parametric_bind; [apply parametric_atGlobalScope|intros global].
  apply parametric_bind; [parametric_tac|intros _].
  destruct (vd_type d) as [[c|elt [low|] [high|]]|]; try parametric_tac.
  apply parametric_for_each, Forall_forall. intros ident _. parametric_tac.
Qed.

Lemma parametric_visit_Declarations l : parametric (visit_Declarations l).
Proof.
  unfold visit_Declarations.
  apply parametric_bind; [apply parametric_atGlobalScope|intros global].
  apply parametric_bind; [parametric_tac|intros _].
  apply parametric_for_each, Forall_forall. intros d _.
  apply parametric_visit_VarDecl.
Qed.

Lemma parametric_visit_ParameterDeclaration p :
  parametric (visit_ParameterDeclaration p).
Proof.
  unfold visit_ParameterDeclaration.
  destruct (astToSymbolType (pd_type p) ArrayDetails_default) as [param_type ad].
  destruct (pd_ids p) as [l|]; [|apply parametric_undefined].
  apply parametric_for_each, Forall_forall. intros ident _. parametric_tac.
Qed.

Lemma parametric_visit_ArgumentsNode a : parametric (visit_ArgumentsNode a).
Proof.
  unfold visit_ArgumentsNode, visit_ParameterList.
  destruct (params a) as [l|]; [|apply parametric_ret].
  apply parametric_for_each, Forall_forall. intros [p|] _.
  - apply parametric_visit_ParameterDeclaration.
  - apply parametric_undefined.
Qed.

(** ** Reading off the code of a computation *)

Lemma parametric_run {A} (m : Gen A) g :
  parametric m → m g = prefix_outcome (code g) (m (set_code [] g)).
Proof.
  intros Hm. specialize (Hm (code g) (set_code [] g)).
  by rewrite code_set_code, app_nil_r, set_code_set_code, set_code_code in Hm.
Qed.

Lemma Steps_run m g c g' :
  Steps m g c g' → m g = Done tt (set_code (code g ++ c) g').
Proof. intros Hs. specialize (Hs (code g)). by rewrite set_code_code in Hs. Qed.

Lemma Steps_intro m g g' :
  parametric m → m g = Done tt g' →
  ∃ c, code g' = code g ++ c ∧ Steps m g c g'.
Proof.
  intros Hm E. rewrite (parametric_run m g Hm) in E.
  destruct (m (set_code [] g)) as [[] g0|w g0|] eqn:E0; [|done..].
  simpl in E. injection E as <-.
  exists (code g0). split; [by rewrite code_set_code|].
  intros pre. specialize (Hm pre (set_code [] g)).
  rewrite code_set_code, app_nil_r, set_code_set_code, E0 in Hm.
  rewrite Hm. simpl. by rewrite set_code_set_code.
Qed.

Lemma Steps_functional m g c1 g1 c2 g2 :
  Steps m g c1 g1 → Steps m g c2 g2 → c1 = c2.
Proof.
  intros H1 H2. specialize (H1 []). specialize (H2 []).
  rewrite H1 in H2. simpl in H2.
  assert (E : set_code c1 g1 = set_code c2 g2) by congruence.
  by apply set_code_inj_l in E.
Qed.

Lemma Steps_set_code m x g c g' : Steps m (set_code x g) c g' ↔ Steps m g c g'.
Proof. unfold Steps. by setoid_rewrite set_code_set_code. Qed.

Lemma Emits_set_code m x g c : Emits m (set_code x g) c ↔ Emits m g c.
Proof. unfold Emits, Steps. by setoid_rewrite set_code_set_code. Qed.

Lemma Emits_run m g c : Emits m g c → m g = Done tt (set_code (code g ++ c) g).
Proof. apply Steps_run. Qed.

Lemma Emits_intro m g g' :
  parametric m → only_code m → m g = Done tt g' →
  ∃ c, g' = set_code (code g ++ c) g ∧ Emits m g c.
Proof.
  intros Hm Ho E. destruct (Steps_intro m g g' Hm E) as (c & Hc & Hs).
  specialize (Ho g). rewrite E in Ho.
  exists c. split; [by rewrite Ho, Hc|].
  intros pre. rewrite Hs, Ho. by rewrite set_code_set_code.
Qed.

Lemma Emits_functional m g c1 c2 : Emits m g c1 → Emits m g c2 → c1 = c2.
Proof. apply Steps_functional. Qed.

(** An expression followed by a continuation returns exactly when the
    expression has code and the continuation returns after it. *)
Lemma bind_visit_ExprNode_Done e (k : Gen unit) g g'' :
  (visit_ExprNode e >> k) g = Done tt g'' ↔
  ∃ c, Emits (visit_ExprNode e) g c ∧ k (set_code (code g ++ c) g) = Done tt g''.
Proof.
  rewrite bind_Done. split.
  - intros ([] & g' & E & Ek).
    destruct (Emits_intro _ _ _ (parametric_visit_ExprNode e)
                (only_code_visit_ExprNode e) E) as (c & -> & Hc).
    eauto.
  - intros (c & Hc & Ek). apply Emits_run in Hc. eauto.
Qed.



Lemma bind_Steps_Done (m k : Gen unit) g g'' :
  parametric m →
  (m >> k) g = Done tt g'' ↔
  ∃ c g', Steps m g c g' ∧ k (set_code (code g ++ c) g') = Done tt g''.
Proof.
  intros Hm. rewrite bind_Done. split.
  - intros ([] & g' & E & Ek).
    destruct (Steps_intro _ _ _ Hm E) as (c & Hc & Hs).
    exists c, g'. split; [done|]. by rewrite <- Hc, set_code_code.
  - intros (c & g' & Hs & Ek). apply Steps_run in Hs. eauto.
Qed.

(** Unfolding one primitive in front of a continuation. *)
Lemma bind_ret {A B} (a : A) (k : A → Gen B) g : bind (ret a) k g = k a g.
Proof. done. Qed.
Lemma bind_emit {B} i (k : unit → Gen B) g :
  bind (emit i) k g = k tt (set_code (code g ++ [Ins i]) g).
Proof. done. Qed.
Lemma bind_emit_arg {B} i a (k : unit → Gen B) g :
  bind (emit_arg i a) k g = k tt (set_code (code g ++ [InsArg i a]) g).
Proof. done. Qed.
Lemma bind_emitLabel {B} l (k : unit → Gen B) g :
  bind (emitLabel l) k g = k tt (set_code (code g ++ [Label l]) g).
Proof. done. Qed.
Lemma bind_newLabel {B} p (k : string → Gen B) g :
  bind (newLabel p) k g
  = k ("L_" +:+ p +:+ "_" +:+ pretty (labelCounter g))
      (set_labelCounter (labelCounter g + 1)%N g).
Proof. done. Qed.
Lemma bind_lookup {B} n (k : option SymbolEntry → Gen B) g :
  bind (lookup n) k g = k (lookupSymbol n (symbolTable g)) g.
Proof. done. Qed.
Lemma bind_get {A B} (f : CodeGenerator → A) (k : A → Gen B) g :
  bind (get f) k g = k (f g) g.
Proof. done. Qed.
Lemma bind_modify {B} f (k : unit → Gen B) g :
  bind (modify f) k g = k tt (f g).
Proof. done. Qed.
Lemma bind_throw {A B} w (k : A → Gen B) g : bind (throw w) k g = Thrown w g.
Proof. done. Qed.
Lemma run_emit i g : emit i g = Done tt (set_code (code g ++ [Ins i]) g).
Proof. done. Qed.
Lemma run_emit_arg i a g :
  emit_arg i a g = Done tt (set_code (code g ++ [InsArg i a]) g).
Proof. done. Qed.
Lemma run_emitLabel l g :
  emitLabel l g = Done tt (set_code (code g ++ [Label l]) g).
Proof. done. Qed.
Lemma run_ret {A} (a : A) g : ret a g = Done a g.
Proof. done. Qed.
Lemma bind_assoc {A B C} (m : Gen A) (k : A → Gen B) (h : B → Gen C) g :
  bind (bind m k) h g = bind m (λ a, bind (k a) h) g.
Proof. unfold bind. by destruct (m g). Qed.

Lemma symbolTable_set_code c g : symbolTable (set_code c g) = symbolTable g.
Proof. by destruct g. Qed.
Lemma labelCounter_set_code c g : labelCounter (set_code c g) = labelCounter g.
Proof. by destruct g. Qed.
Lemma currentSubprogramEntry_set_code c g :
  currentSubprogramEntry (set_code c g) = currentSubprogramEntry g.
Proof. by destruct g. Qed.

Ltac run :=
  repeat first
    [ rewrite bind_ret | rewrite bind_emit | rewrite bind_emit_arg
    | rewrite bind_emitLabel | rewrite bind_newLabel | rewrite bind_lookup
    | rewrite bind_get | rewrite bind_modify | rewrite bind_throw
    | rewrite run_emit | rewrite run_emit_arg | rewrite run_emitLabel
    | rewrite run_ret
    | rewrite code_set_code | rewrite set_code_set_code
    | rewrite symbolTable_set_code | rewrite labelCounter_set_code
    | rewrite currentSubprogramEntry_set_code ].

Ltac tidy :=
  repeat first
    [ rewrite code_set_code | rewrite set_code_set_code | rewrite set_code_code
    | rewrite <- app_assoc | rewrite app_nil_r | progress simpl ].

(** ** Calls (C1) *)


(** ** Return statements (C2) *)

(** C2, as the code has it.  With no current-subprogram context set, a
    return statement that carries a value throws before anything is
    emitted.  A return statement without a value never consults the
    context: on every generator, with a context or without one, it emits
    the single [return] instruction. *)
Theorem return_without_context g :
  (currentSubprogramEntry g = None →
   ∀ value,
     visit_StatementNode (ReturnStatementNode (Some value)) g
     = Thrown "CodeGen: Return statement found with no subprogram context." g)
  ∧ visit_StatementNode (ReturnStatementNode None) g
    = Done tt (set_code (code g ++ [Ins "return"]) g).
Proof.
  split.
  - intros Hctx value. simpl. unfold visit_ReturnStatementNode.
    rewrite bind_assoc, bind_get, Hctx. done.
  - done.
Qed.

(** ** Binary operations (C5) *)

Lemma is_real_op_true op lt rt :
  is_real_op op lt rt = true ↔
  (lt = PRIMITIVE_REAL ∨ rt = PRIMITIVE_REAL ∨ op = "/")
  ∧ op ≠ "AND_OP" ∧ op ≠ "OR_OP".
Proof.
  unfold is_real_op.
  destruct (bool_decide (op = "AND_OP") || bool_decide (op = "OR_OP")) eqn:E.
  - apply orb_true_iff in E as [E|E]; apply bool_decide_eq_true in E;
      split; [done|tauto|done|tauto].
  - apply orb_false_iff in E as [E1 E2].
    apply bool_decide_eq_false in E1, E2.
    rewrite !orb_true_iff, !bool_decide_eq_true. tauto.
Qed.

(** C5, as the code has it.  The operation is real-valued exactly when an
    operand's type is real or the operator is [/], and never for AND/OR.
    The node returns exactly when both operands and the operator have
    code, and then it has appended the left operand's code, its coercion,
    the right operand's code, its coercion, and the operator's
    instructions.  In a real-valued operation an integer operand next to a
    real one is followed by one [itof] and the real one by none; two real
    operands get none; two integer operands get none unless the operator
    is [/], in which case each is followed by one [itof]. *)
Theorem binary_coercions d op l r g g' :
  let is_real := is_real_op op (determinedType l) (determinedType r) in
  (is_real = true ↔
     (determinedType l = PRIMITIVE_REAL ∨ determinedType r = PRIMITIVE_REAL
      ∨ op = "/") ∧ op ≠ "AND_OP" ∧ op ≠ "OR_OP")
  ∧ (visit_ExprNode (BinaryOpNode d op l r) g = Done tt g' ↔
     ∃ cl cr cop,
       Emits (visit_ExprNode l) g cl ∧ Emits (visit_ExprNode r) g cr
       ∧ Emits (binary_instruction op is_real) g cop
       ∧ g' = set_code (code g ++ cl ++ coercion is_real l
                          ++ cr ++ coercion is_real r ++ cop) g)
  ∧ (is_real = true → determinedType l = PRIMITIVE_INTEGER →
     determinedType r = PRIMITIVE_REAL →
     coercion is_real l = [Ins "itof"] ∧ coercion is_real r = [])
  ∧ (is_real = true → determinedType l = PRIMITIVE_REAL →
     determinedType r = PRIMITIVE_INTEGER →
     coercion is_real l = [] ∧ coercion is_real r = [Ins "itof"])
  ∧ (determinedType l = PRIMITIVE_REAL → determinedType r = PRIMITIVE_REAL →
     coercion is_real l = [] ∧ coercion is_real r = [])
  ∧ (determinedType l = PRIMITIVE_INTEGER → determinedType r = PRIMITIVE_INTEGER →
     op ≠ "/" → coercion is_real l = [] ∧ coercion is_real r = [])
  ∧ (determinedType l = PRIMITIVE_INTEGER → determinedType r = PRIMITIVE_INTEGER →
     op = "/" → coercion is_real l = [Ins "itof"] ∧ coercion is_real r = [Ins "itof"]).
Proof.
  intros is_real. split; [apply is_real_op_true|]. split.
  - simpl. fold is_real.
    assert (Hco : ∀ x (k : Gen unit) g0,
      (when (is_real && bool_decide (determinedType x = PRIMITIVE_INTEGER))
            (emit "itof") >> k) g0
      = k (set_code (code g0 ++ coercion is_real x) g0)).
    { intros x k g0. unfold coercion.
      destruct (is_real && bool_decide (determinedType x = PRIMITIVE_INTEGER)).
      - done.
      - simpl. by rewrite bind_ret, app_nil_r, set_code_code. }
    rewrite bind_visit_ExprNode_Done. split.
    + intros (cl & Hl & E). rewrite Hco in E.
      apply bind_visit_ExprNode_Done in E as (cr & Hr & E).
      apply Emits_set_code in Hr. rewrite Hco in E.
      destruct (Emits_intro _ _ _ (parametric_binary_instruction op is_real)
                  (only_code_binary_instruction op is_real) E) as (cop & -> & Hop).
      do 2 apply Emits_set_code in Hop. apply Emits_set_code in Hop.
      apply Emits_set_code in Hop.
      exists cl, cr, cop. repeat split; try done.
      run. by rewrite <- !app_assoc.
    + intros (cl & cr & cop & Hl & Hr & Hop & ->).
      exists cl. split; [done|]. rewrite Hco.
      apply bind_visit_ExprNode_Done. exists cr.
      split; [by apply Emits_set_code|]. rewrite Hco.
      do 4 apply (Emits_set_code _ (code g)) in Hop.
      rewrite (Emits_run _ _ cop).
      * run. by rewrite <- !app_assoc.
      * by repeat apply Emits_set_code.
  - unfold coercion.
    assert (is_real = true → op ≠ "/" →
            determinedType l = PRIMITIVE_REAL ∨ determinedType r = PRIMITIVE_REAL).
    { intros Hr Hop. apply is_real_op_true in Hr. tauto. }
    repeat split; intros; subst;
      repeat match goal with
             | H : is_real = true |- _ => rewrite H
             | H : determinedType _ = _ |- _ => rewrite H
             end; simpl; try done.
    + destruct is_real; done.
    + destruct is_real; done.
    + destruct is_real eqn:E; [|done].
      match goal with H : true = true → _ |- _ => destruct (H eq_refl) end;
        congruence.
    + destruct is_real eqn:E; [|done].
      match goal with H : true = true → _ |- _ => destruct (H eq_refl) end;
        congruence.
    + unfold is_real, is_real_op in *. simpl.
      repeat match goal with H : determinedType _ = _ |- _ => rewrite H end. done.
    + unfold is_real, is_real_op in *. simpl.
      repeat match goal with H : determinedType _ = _ |- _ => rewrite H end. done.
Qed.

(** ** Array declarations (C7) *)

Lemma wrap_exact z : in_int z → wrap z = z.
Proof.
  unfold in_int, int_min, int_max, wrap. intros Hz.
  rewrite Z.mod_small; lia.
Qed.

Lemma array_varCount (l : list IdentNode) acc :
  fold_left (λ varCount _, if decide (ARRAY = ARRAY) then varCount
                           else int_add varCount 1) l acc = acc.
Proof. revert acc. induction l as [|x l IH]; intros acc; simpl; [done|apply IH]. Qed.

Lemma allocation_loop size idents g g' :
  for_each (λ ident,
              let* entry := lookup (ident_name ident) in
              match entry with
              | None =>
                  throw ("CodeGen: Symbol not found during array allocation: "
                           +:+ ident_name ident)
              | Some entry =>
                  emit_arg "alloc" (to_string size) >>
                  let* global := atGlobalScope in
                  if global : bool
                  then emit_arg "storeg" (to_string (offset entry))
                  else emit_arg "storel" (to_string (offset entry))
              end) idents g = Done tt g' ↔
  ∃ entries,
    Forall2 (λ ident entry,
               lookupSymbol (ident_name ident) (symbolTable g) = Some entry)
            idents entries
    ∧ g' = set_code
             (code g ++ concat (array_alloc size (isGlobalScope (symbolTable g))
                                  <$> entries)) g.
Proof.
  revert g. induction idents as [|ident idents IH]; intros g; simpl.
  - split.
    + intros [= <-]. exists []. split; [constructor|]. by tidy.
    + intros (entries & Hl & ->). inversion Hl; subst. by tidy.
  - rewrite bind_assoc, bind_lookup.
    destruct (lookupSymbol (ident_name ident) (symbolTable g)) as [entry|] eqn:E.
    + rewrite !bind_assoc, bind_emit_arg. unfold atGlobalScope.
      rewrite bind_assoc, bind_get, symbolTable_set_code.
      assert (Hstore : ∀ (k : Gen unit) g0,
        ((if isGlobalScope (symbolTable g)
          then emit_arg "storeg" (to_string (offset entry))
          else emit_arg "storel" (to_string (offset entry))) >> k) g0
        = k (set_code (code g0 ++
               [InsArg (if isGlobalScope (symbolTable g) then "storeg" else "storel")
                       (to_string (offset entry))]) g0)).
      { intros k g0. by destruct (isGlobalScope (symbolTable g)). }
      rewrite Hstore, IH. tidy. split.
      * intros (entries & Hl & ->). exists (entry :: entries).
        split; [by constructor|]. by tidy.
      * intros (entries & Hl & ->).
        inversion Hl as [|? e' ? entries' He Hl']; subst.
        rewrite E in He. injection He as <-.
        exists entries'. split; [done|]. by tidy.
    + cbv beta iota. rewrite bind_throw. split; [done|].
      intros (entries & Hl & _). inversion Hl; subst. congruence.
Qed.

(** C7.  For an array declaration with bounds [low] and [high], with
    [size = high - low + 1] as the code computes it: when [size <= 0] the
    visit throws the array-size error and the generator is as before, so
    nothing was emitted for the declaration; otherwise it returns exactly
    when every identifier resolves, having appended for each identifier,
    in order, one [alloc size] followed by one store of the handle at the
    identifier's offset, [storeg] at global scope and [storel] otherwise.
    Where the subtraction and the addition stay in range, [size] is the
    integer [high - low + 1]. *)
Theorem array_declaration g g' elt low high idents :
  let node := mkVarDecl (Some (ArrayTypeNode elt (Some low) (Some high))) idents in
  let size := int_add (int_sub high low) 1 in
  (size <= 0 → visit_VarDecl node g = Thrown "Array size must be positive." g)
  ∧ (size > 0 →
     visit_VarDecl node g = Done tt g' ↔
     ∃ entries,
       Forall2 (λ ident entry,
                  lookupSymbol (ident_name ident) (symbolTable g) = Some entry)
               idents entries
       ∧ g' = set_code
                (code g ++ concat (array_alloc size (isGlobalScope (symbolTable g))
                                     <$> entries)) g)
  ∧ (in_int (high - low) → in_int (high - low + 1) → size = high - low + 1).
Proof.
  intros node size.
  assert (Hhead : ∀ k : Gen unit,
    visit_VarDecl node g
    = (if bool_decide (size <= 0) then throw "Array size must be positive."
       else k) g →
    True) by done.
  assert (Hrun : visit_VarDecl node g
    = (if bool_decide (size <= 0) then throw "Array size must be positive."
       else
         for_each (λ ident,
              let* entry := lookup (ident_name ident) in
              match entry with
              | None =>
                  throw ("CodeGen: Symbol not found during array allocation: "
                           +:+ ident_name ident)
              | Some entry =>
                  emit_arg "alloc" (to_string size) >>
                  let* global := atGlobalScope in
                  if global : bool
                  then emit_arg "storeg" (to_string (offset entry))
                  else emit_arg "storel" (to_string (offset entry))
              end) idents) g).
  { unfold visit_VarDecl, atGlobalScope. rewrite bind_get. simpl.
    rewrite array_varCount. simpl.
    destruct (isGlobalScope (symbolTable g)); simpl; by rewrite bind_ret. }
  clear Hhead. repeat split.
  - intros Hsize. rewrite Hrun. by rewrite bool_decide_eq_true_2.
  - rewrite Hrun, bool_decide_eq_false_2 by lia. apply allocation_loop.
  - rewrite Hrun, bool_decide_eq_false_2 by lia. apply allocation_loop.
  - intros H1 H2. unfold size, int_add, int_sub.
    rewrite (wrap_exact (high - low)) by done. by apply wrap_exact.
Qed.

(** ** Indexed variables (C3, C10) *)

Lemma bind_push_slot sc off (k : Gen unit) g :
  (push_slot sc off >> k) g = k (set_code (code g ++ [slot_push sc off]) g).
Proof. unfold push_slot, slot_push. by destruct (decide (sc = LOCAL)). Qed.

Lemma run_store_slot entry sc g :
  store_slot entry sc g = Done tt (set_code (code g ++ [slot_store entry sc]) g).
Proof.
  unfold store_slot, slot_store.
  by destruct (decide (kind entry = PARAMETER)), (decide (sc = LOCAL)).
Qed.

(** X18.  A read of an element of an array that is not a parameter and
    whose bounds the entry holds: the base handle at the entry's offset,
    then [load] with the compile-time offset [literal - lowBound], or the
    index code, [pushi lowBound], [sub] and [loadn]. *)
Lemma array_load d i idx sc off entry g g' :
  lookupSymbol (ident_name i) (symbolTable g) = Some entry →
  kind entry ≠ PARAMETER →
  isInitialized (arrayDetails entry) = true →
  visit_ExprNode (VariableNode d i (Some idx) sc off) g = Done tt g' ↔
  match idx with
  | IntNumNode _ n =>
      g' = set_code
             (code g ++ [slot_push sc (offset entry);
                         InsArg "load"
                           (to_string (int_sub n (lowBound (arrayDetails entry))))])
             g
  | _ =>
      ∃ ci, Emits (visit_ExprNode idx) g ci
            ∧ g' = set_code
                     (code g ++ [slot_push sc (offset entry)] ++ ci
                        ++ [InsArg "pushi" (to_string (lowBound (arrayDetails entry)));
                            Ins "sub"; Ins "loadn"]) g
  end.
Proof.
  intros Hl Hk Hi. simpl. rewrite bind_lookup, Hl.
  destruct (decide (kind entry = PARAMETER)); [done|].
  rewrite Hi. cbn [negb]. rewrite bind_push_slot.
  assert (Hcomputed :
    (visit_ExprNode idx >>
     emit_arg "pushi" (to_string (lowBound (arrayDetails entry))) >>
     emit "sub" >> emit "loadn")
      (set_code (code g ++ [slot_push sc (offset entry)]) g) = Done tt g' ↔
    ∃ ci, Emits (visit_ExprNode idx) g ci
          ∧ g' = set_code
                   (code g ++ [slot_push sc (offset entry)] ++ ci
                      ++ [InsArg "pushi" (to_string (lowBound (arrayDetails entry)));
                          Ins "sub"; Ins "loadn"]) g).
  { rewrite bind_visit_ExprNode_Done. split.
    - intros (ci & Hci & Ek). apply Emits_set_code in Hci.
      rewrite bind_emit_arg, bind_emit, run_emit in Ek. injection Ek as <-.
      exists ci. split; [done|]. by tidy.
    - intros (ci & Hci & ->). exists ci. split; [by apply Emits_set_code|].
      rewrite bind_emit_arg, bind_emit, run_emit. by tidy. }
  destruct idx as [dn m| | | | | | | |]; try exact Hcomputed.
  rewrite run_emit_arg. split.
  - intros [= <-]. by tidy.
  - intros ->. by tidy.
Qed.

(** Every read of a variable whose entry is a parameter, indexed or not,
    is a single [pushl] at [-(offset + 1)], whatever scope the reference
    carries; so is the store of a non-indexed assignment. *)
Lemma parameter_read d i idx sc off entry g :
  lookupSymbol (ident_name i) (symbolTable g) = Some entry →
  kind entry = PARAMETER →
  visit_ExprNode (VariableNode d i idx sc off) g
  = Done tt (set_code
               (code g ++ [InsArg "pushl"
                             (to_string (int_neg (int_add (offset entry) 1)))]) g).
Proof.
  intros Hl Hk. simpl. rewrite bind_lookup, Hl.
  by destruct (decide (kind entry = PARAMETER)).
Qed.

Lemma parameter_identifier d i k sc entry g :
  k ≠ FUNCTION →
  lookupSymbol (ident_name i) (symbolTable g) = Some entry →
  kind entry = PARAMETER →
  visit_ExprNode (IdExprNode d i k sc) g
  = Done tt (set_code
               (code g ++ [InsArg "pushl"
                             (to_string (int_neg (int_add (offset entry) 1)))]) g).
Proof.
  intros Hf Hl Hk. simpl. destruct (decide (k = FUNCTION)); [done|].
  rewrite bind_lookup, Hl. by destruct (decide (kind entry = PARAMETER)).
Qed.

Lemma parameter_store d i sc off e entry g g' :
  lookupSymbol (ident_name i) (symbolTable g) = Some entry →
  kind entry = PARAMETER →
  visit_StatementNode (AssignStatementNode (VariableNode d i None sc off) e) g
    = Done tt g' →
  ∃ c, code g' = code g ++ c
                   ++ [InsArg "storel"
                         (to_string (int_neg (int_add (offset entry) 1)))].
Proof.
  intros Hl Hk. simpl. intros E.
  apply bind_visit_ExprNode_Done in E as (c & Hc & E).
  destruct (bool_decide (d = PRIMITIVE_REAL)
            && bool_decide (determinedType e = PRIMITIVE_INTEGER)); simpl in E.
  - rewrite bind_emit, bind_lookup, !symbolTable_set_code, Hl, run_store_slot in E.
    injection E as <-. exists (c ++ [Ins "itof"]).
    unfold slot_store. destruct (decide (kind entry = PARAMETER)); [|done].
    by tidy.
  - rewrite bind_ret, bind_lookup, !symbolTable_set_code, Hl, run_store_slot in E.
    injection E as <-. exists c.
    unfold slot_store. destruct (decide (kind entry = PARAMETER)); [|done].
    by tidy.
Qed.

(** C10.  An assignment to an array element returns exactly when the array
    resolves and the expressions have code, and then it has appended the
    push of the base handle, the index part, the code of the right-hand
    expression and, immediately after it, the store: [store] with the
    compile-time offset [literal - lowBound] for a literal index, [storen]
    after [index; pushi lowBound; sub] otherwise.  No [itof] stands between
    the expression and the store, whatever the types.  An assignment to a
    non-indexed variable of type real from an integer expression does put
    one [itof] there. *)
Theorem indexed_assignment d i idx sc off e g g' :
  (visit_StatementNode
     (AssignStatementNode (VariableNode d i (Some idx) sc off) e) g = Done tt g' ↔
   ∃ arrayEntry c,
     lookupSymbol (ident_name i) (symbolTable g) = Some arrayEntry
     ∧ Emits (visit_ExprNode e) g c
     ∧ match idx with
       | IntNumNode _ n =>
           g' = set_code
                  (code g ++ [slot_push sc off] ++ c
                     ++ [InsArg "store"
                           (to_string (int_sub n (lowBound (arrayDetails arrayEntry))))])
                  g
       | _ =>
           ∃ ci, Emits (visit_ExprNode idx) g ci
                 ∧ g' = set_code
                          (code g ++ [slot_push sc off] ++ ci
                             ++ [InsArg "pushi"
                                   (to_string (lowBound (arrayDetails arrayEntry)));
                                 Ins "sub"]
                             ++ c ++ [Ins "storen"]) g
       end)
  ∧ (determinedType e = PRIMITIVE_INTEGER →
     visit_StatementNode
       (AssignStatementNode (VariableNode PRIMITIVE_REAL i None sc off) e) g
       = Done tt g' ↔
     ∃ entry c,
       lookupSymbol (ident_name i) (symbolTable g) = Some entry
       ∧ Emits (visit_ExprNode e) g c
       ∧ g' = set_code (code g ++ c ++ [Ins "itof"; slot_store entry sc]) g).
Proof.
  split.
  - simpl. rewrite bind_lookup.
    destruct (lookupSymbol (ident_name i) (symbolTable g)) as [arrayEntry|] eqn:E.
    + rewrite bind_push_slot.
      assert (Hcomputed :
        (visit_ExprNode idx >>
         emit_arg "pushi" (to_string (lowBound (arrayDetails arrayEntry))) >>
         emit "sub" >> visit_ExprNode e >> emit "storen")
          (set_code (code g ++ [slot_push sc off]) g) = Done tt g' ↔
        ∃ c ci, Emits (visit_ExprNode e) g c ∧ Emits (visit_ExprNode idx) g ci
          ∧ g' = set_code
                   (code g ++ [slot_push sc off] ++ ci
                      ++ [InsArg "pushi"
                            (to_string (lowBound (arrayDetails arrayEntry)));
                          Ins "sub"]
                      ++ c ++ [Ins "storen"]) g).
      { rewrite bind_visit_ExprNode_Done. split.
        - intros (ci & Hi & Ek). apply Emits_set_code in Hi.
          rewrite bind_emit_arg, bind_emit in Ek.
          apply bind_visit_ExprNode_Done in Ek as (c & Hc & Ek).
          do 3 apply Emits_set_code in Hc. apply Emits_set_code in Hc.
          rewrite run_emit in Ek. injection Ek as <-.
          exists c, ci. repeat split; try done. by tidy.
        - intros (c & ci & Hc & Hi & ->). exists ci.
          split; [by apply Emits_set_code|].
          rewrite bind_emit_arg, bind_emit.
          apply bind_visit_ExprNode_Done. exists c.
          split; [by repeat apply Emits_set_code|].
          rewrite run_emit. by tidy. }
      destruct idx as [dn n| | | | | | | |];
        try (rewrite Hcomputed; split;
             [ intros (c & ci & Hc & Hi & ->); exists arrayEntry, c; eauto
             | intros (a' & c & [= <-] & Hc & ci & Hi & ->); eauto ]).
      rewrite bind_visit_ExprNode_Done. split.
      * intros (c & Hc & Ek). apply Emits_set_code in Hc.
        rewrite run_emit_arg in Ek. injection Ek as <-.
        exists arrayEntry, c. repeat split; try done. by tidy.
      * intros (a' & c & [= <-] & Hc & ->). exists c.
        split; [by apply Emits_set_code|]. rewrite run_emit_arg. by tidy.
    + cbv beta iota. split; [done|].
      intros (a' & c & ? & _). congruence.
  - intros He. simpl. rewrite He. simpl.
    rewrite bind_visit_ExprNode_Done. split.
    + intros (c & Hc & Ek). rewrite bind_emit, bind_lookup in Ek.
      rewrite !symbolTable_set_code in Ek.
      destruct (lookupSymbol (ident_name i) (symbolTable g)) as [entry|];
        [|by unfold throw in Ek].
      rewrite run_store_slot in Ek. injection Ek as <-.
      exists entry, c. repeat split; try done. by tidy.
    + intros (entry & c & E & Hc & ->). exists c. split; [done|].
      rewrite bind_emit, bind_lookup, !symbolTable_set_code, E, run_store_slot.
      by tidy.
Qed.

(** ** Labels *)

Lemma Steps_set_code_r m g c x g' : Steps m g c (set_code x g') ↔ Steps m g c g'.
Proof. unfold Steps. by setoid_rewrite set_code_set_code. Qed.

Lemma bind_Steps_run (m k : Gen unit) g c g' pre :
  Steps m g c g' → (m >> k) (set_code pre g) = k (set_code (pre ++ c) g').
Proof. intros Hs. unfold bind. by rewrite Hs. Qed.

Lemma code_set_labelCounter n g : code (set_labelCounter n g) = code g.
Proof. by destruct g. Qed.
Lemma labelCounter_set_labelCounter n g : labelCounter (set_labelCounter n g) = n.
Proof. by destruct g. Qed.
Lemma set_labelCounter_twice n k g :
  set_labelCounter n (set_labelCounter k g) = set_labelCounter n g.
Proof. by destruct g. Qed.

Lemma if_labels p g (k : string → string → Gen unit) q :
  (let* elseLabel := newLabel p in
   let* endIfLabel := newLabel q in k elseLabel endIfLabel) g
  = k ("L_" +:+ p +:+ "_" +:+ pretty (labelCounter g))
      ("L_" +:+ q +:+ "_" +:+ pretty (labelCounter g + 1)%N)
      (set_code (code g) (set_labelCounter (labelCounter g + 2)%N g)).
Proof.
  rewrite !bind_newLabel, labelCounter_set_labelCounter, set_labelCounter_twice.
  replace (labelCounter g + 1 + 1)%N with (labelCounter g + 2)%N by lia.
  by destruct g.
Qed.


Lemma labels_of_app c1 c2 : labels_of (c1 ++ c2) = labels_of c1 ++ labels_of c2.
Proof. apply omap_app. Qed.

Lemma plain_ret {A} (a : A) : plain (ret a).
Proof. intros g. exists []. by rewrite app_nil_r, set_code_code. Qed.

Lemma plain_throw {A} w : plain (throw (A:=A) w).
Proof. intros g. exists []. by rewrite app_nil_r, set_code_code. Qed.

Lemma plain_get {A} (f : CodeGenerator → A) : plain (get f).
Proof. intros g. exists []. by rewrite app_nil_r, set_code_code. Qed.

Lemma plain_emit i : plain (emit i).
Proof. intros g. by exists [Ins i]. Qed.

Lemma plain_emit_arg i a : plain (emit_arg i a).
Proof. intros g. by exists [InsArg i a]. Qed.

Lemma plain_bind {A B} (m : Gen A) (k : A → Gen B) :
  plain m → (∀ a, plain (k a)) → plain (bind m k).
Proof.
  intros Hm Hk g. unfold bind. specialize (Hm g).
  destruct (m g) as [a g1|w g1|]; [|done..].
  destruct Hm as (c1 & -> & Hc1). specialize (Hk a (set_code (code g ++ c1) g)).
  destruct (k a _) as [b g2|w g2|]; [| |done].
  - destruct Hk as (c2 & -> & Hc2). exists (c1 ++ c2).
    rewrite code_set_code, set_code_set_code, app_assoc, labels_of_app, Hc1, Hc2.
    done.
  - destruct Hk as (c2 & -> & Hc2). exists (c1 ++ c2).
    rewrite code_set_code, set_code_set_code, app_assoc, labels_of_app, Hc1, Hc2.
    done.
Qed.

Lemma plain_when b (m : Gen unit) : plain m → plain (when b m).
Proof. destruct b; [done|]. intros _. apply plain_ret. Qed.

Lemma plain_for_each {A} (f : A → Gen unit) l :
  Forall (λ x, plain (f x)) l → plain (for_each f l).
Proof.
  induction 1 as [|x l Hx _ IH]; simpl; [apply plain_ret|].
  apply plain_bind; auto.
Qed.

Lemma plain_for_each_rev {A} (f : A → Gen unit) l :
  Forall (λ x, plain (f x)) l → plain (for_each_rev f l).
Proof.
  induction 1 as [|x l Hx _ IH]; simpl; [apply plain_ret|].
  apply plain_bind; auto.
Qed.

Create HintDb plain discriminated.

Ltac plain_step :=
  lazymatch goal with
  | |- plain (bind _ _) => apply plain_bind; [|intros ?]
  | |- plain (ret _) => apply plain_ret
  | |- plain (throw _) => apply plain_throw
  | |- plain (emit _) => apply plain_emit
  | |- plain (emit_arg _ _) => apply plain_emit_arg
  | |- plain (lookup _) => apply plain_get
  | |- plain (get _) => apply plain_get
  | |- plain (when _ _) => apply plain_when
  | |- plain (match ?x with _ => _ end) => destruct x
  | |- plain _ => solve [auto with plain]
  end.

Lemma plain_binary_instruction op r : plain (binary_instruction op r).
Proof. unfold binary_instruction. repeat plain_step. Qed.

Lemma plain_push_slot sc off : plain (push_slot sc off).
Proof. unfold push_slot. repeat plain_step. Qed.

Lemma plain_store_slot entry sc : plain (store_slot entry sc).
Proof. unfold store_slot. repeat plain_step. Qed.

#[local] Hint Resolve plain_binary_instruction plain_push_slot plain_store_slot : plain.

(** No expression defines a label or touches the label counter. *)
Lemma plain_visit_ExprNode e : plain (visit_ExprNode e).
Proof.
  induction e as [| | | |d i idx sc off IH| |d f args r IH| |] using ExprNode_induction;
    simpl.
  1-4, 6, 8-9: repeat plain_step.
  - destruct idx as [idx|]; [|repeat plain_step].
    pose proof (IH idx eq_refl) as Hm. revert Hm.
    generalize (visit_ExprNode idx). intros m Hm.
    repeat plain_step.
  - destruct r as [callee|]; [|repeat plain_step].
    assert (plain (match args with
                   | Some exprs => for_each_rev visit_ExprNode exprs
                   | None => ret tt
                   end)).
    { destruct args as [l|]; [|apply plain_ret].
      apply plain_for_each_rev. by apply IH. }
    repeat plain_step.
Qed.

#[local] Hint Resolve plain_visit_ExprNode : plain.

Lemma plain_visit_AssignStatementNode v e : plain (visit_AssignStatementNode v e).
Proof.
  unfold visit_AssignStatementNode.
  destruct v as [| | | |d i [idx|] sc off| | | |]; try apply plain_ret.
  - pose proof (plain_visit_ExprNode idx) as Hm. revert Hm.
    generalize (visit_ExprNode idx). intros m Hm. repeat plain_step.
  - repeat plain_step.
Qed.

Lemma plain_visit_ProcedureCallStatementNode p a r :
  plain (visit_ProcedureCallStatementNode p a r).
Proof.
  unfold visit_ProcedureCallStatementNode.
  assert (plain (match a with
                 | Some exprs => for_each_rev visit_ExprNode exprs
                 | None => ret tt
                 end)).
  { destruct a as [l|]; [|apply plain_ret].
    apply plain_for_each_rev, Forall_forall.
    intros; apply plain_visit_ExprNode. }
  assert (plain (match a with
                 | Some exprs => for_each write_argument exprs
                 | None => ret tt
                 end)).
  { destruct a as [l|]; [|apply plain_ret].
    apply plain_for_each, Forall_forall.
    intros; unfold write_argument; repeat plain_step. }
  repeat plain_step.
Qed.

Lemma plain_visit_ReturnStatementNode v : plain (visit_ReturnStatementNode v).
Proof. unfold visit_ReturnStatementNode. repeat plain_step. Qed.

(** Counter labels determine their prefix and their number. *)
Lemma counter_label_inj p q k j :
  p ∈ label_prefixes → q ∈ label_prefixes →
  counter_label p k = counter_label q j → p = q ∧ k = j.
Proof.
  unfold label_prefixes. rewrite !elem_of_cons, !elem_of_nil.
  unfold counter_label.
  intros [->|[->|[->|[->|[]]]]] [->|[->|[->|[->|[]]]]] E;
    try (split; [done|];
         repeat (apply (inj (String.app _)) in E);
         by apply (inj pretty) in E);
    exfalso; revert E; generalize (pretty k), (pretty j); intros; discriminate.
Qed.

Lemma label_prefix_ELSE : "ELSE" ∈ label_prefixes.
Proof. unfold label_prefixes. rewrite !elem_of_cons. tauto. Qed.
Lemma label_prefix_END_IF : "END_IF" ∈ label_prefixes.
Proof. unfold label_prefixes. rewrite !elem_of_cons. tauto. Qed.
Lemma label_prefix_WHILE_START : "WHILE_START" ∈ label_prefixes.
Proof. unfold label_prefixes. rewrite !elem_of_cons. tauto. Qed.
Lemma label_prefix_WHILE_END : "WHILE_END" ∈ label_prefixes.
Proof. unfold label_prefixes. rewrite !elem_of_cons. tauto. Qed.

Lemma labelled_plain S c : labels_of c = [] → labelled_in S c.
Proof. intros Hc. exists []. rewrite Hc. repeat split; constructor. Qed.

Lemma labelled_label p k : p ∈ label_prefixes →
  labelled_in (λ j, j = k) [Label (counter_label p k)].
Proof.
  intros Hp. exists [(p, k)]. repeat split.
  - constructor; [|constructor]. simpl. by split.
  - simpl. apply NoDup_singleton.
Qed.

Lemma labelled_weaken (S S' : N → Prop) c :
  labelled_in S c → (∀ k, S k → S' k) → labelled_in S' c.
Proof.
  intros (ks & Hc & Hks & Hn) HS. exists ks. repeat split; try done.
  eapply Forall_impl; [exact Hks|]. intros [p k] [Hp Hk]. simpl in *. auto.
Qed.

Lemma labelled_app (S1 S2 : N → Prop) c1 c2 :
  labelled_in S1 c1 → labelled_in S2 c2 →
  (∀ k, S1 k → S2 k → False) →
  labelled_in (λ k, S1 k ∨ S2 k) (c1 ++ c2).
Proof.
  intros (ks1 & Hc1 & Hks1 & Hn1) (ks2 & Hc2 & Hks2 & Hn2) Hd.
  exists (ks1 ++ ks2). repeat split.
  - by rewrite labels_of_app, fmap_app, Hc1, Hc2.
  - apply Forall_app. split.
    + eapply Forall_impl; [exact Hks1|]. intros [p k] [Hp Hk]. simpl in *. auto.
    + eapply Forall_impl; [exact Hks2|]. intros [p k] [Hp Hk]. simpl in *. auto.
  - rewrite fmap_app. apply NoDup_app. repeat split; try done.
    intros k Hk1 Hk2.
    apply list_elem_of_fmap in Hk1 as ([p1 k1] & -> & Hk1).
    apply list_elem_of_fmap in Hk2 as ([p2 k2] & Hk & Hk2). simpl in *. subst k2.
    rewrite Forall_forall in Hks1, Hks2.
    apply Hks1 in Hk1 as [_ Hk1]. apply Hks2 in Hk2 as [_ Hk2]. simpl in *.
    eauto.
Qed.

(** Labels that are numbered apart are pairwise distinct strings. *)
Lemma labelled_NoDup S c : labelled_in S c → NoDup (labels_of c).
Proof.
  intros (ks & -> & Hks & Hn).
  apply NoDup_fmap_2_strong; [|by apply NoDup_fmap_1 in Hn].
  intros [p k] [q j] Hp Hq E. rewrite Forall_forall in Hks.
  apply Hks in Hp as [Hp _]. apply Hks in Hq as [Hq _]. simpl in *.
  by destruct (counter_label_inj _ _ _ _ Hp Hq E) as [-> ->].
Qed.

(** A counter label numbered outside the range is not defined in the code. *)
Lemma labelled_fresh lo hi c p k :
  labelled lo hi c → p ∈ label_prefixes → (k < lo ∨ hi ≤ k)%N →
  counter_label p k ∉ labels_of c.
Proof.
  intros (ks & -> & Hks & Hn) Hp Hk Hin.
  apply list_elem_of_fmap in Hin as ([q j] & E & Hin).
  rewrite Forall_forall in Hks. apply Hks in Hin as [Hq Hj]. simpl in *.
  destruct (counter_label_inj _ _ _ _ Hp Hq E) as [_ ->]. lia.
Qed.

Create Rewrite HintDb generator.
#[local] Hint Rewrite code_set_code labelCounter_set_code
  labelCounter_set_labelCounter code_set_labelCounter : generator.

Lemma labelled_same_labels S c c' :
  labels_of c = labels_of c' → labelled_in S c → labelled_in S c'.
Proof. intros E (ks & Hc & H'). exists ks. by rewrite <- E. Qed.

Lemma plain_Done {A} (m : Gen A) a g g' :
  plain m → m g = Done a g' →
  ∃ c, g' = set_code (code g ++ c) g ∧ labels_of c = [].
Proof. intros Hm E. specialize (Hm g). by rewrite E in Hm. Qed.

Lemma statement_list_labels (l : list (option StatementNode)) :
  Forall (λ o, ∀ s, o = Some s → ∀ g g',
            visit_StatementNode s g = Done tt g' →
            ∃ c, code g' = code g ++ c
                 ∧ (labelCounter g ≤ labelCounter g')%N
                 ∧ labelled (labelCounter g) (labelCounter g') c) l →
  ∀ g g',
    for_each (λ stmt, match stmt with
                      | Some s => visit_StatementNode s
                      | None => ret tt
                      end) l g = Done tt g' →
    ∃ c, code g' = code g ++ c
         ∧ (labelCounter g ≤ labelCounter g')%N
         ∧ labelled (labelCounter g) (labelCounter g') c.
Proof.
  induction 1 as [|o l Ho _ IH]; intros g g' E; simpl in E.
  - injection E as <-. exists []. rewrite app_nil_r.
    repeat split; [lia|by apply labelled_plain].
  - apply bind_Done in E as ([] & g1 & E1 & E).
    apply IH in E as (c2 & Hc2 & Hn2 & Hl2).
    destruct o as [s|].
    + apply (Ho s eq_refl) in E1 as (c1 & Hc1 & Hn1 & Hl1).
      exists (c1 ++ c2). rewrite Hc2, Hc1, app_assoc.
      repeat split; [lia|]. unfold labelled in *.
      eapply labelled_weaken; [apply (labelled_app _ _ _ _ Hl1 Hl2)|];
        simpl; intros; lia.
    + injection E1 as <-. by exists c2.
Qed.

(** The labels a statement defines are counter labels numbered from the
    counter on entry up to the counter on exit, each number once: they are
    pairwise distinct and none was available to earlier code. *)
Lemma statement_labels s g g' :
  visit_StatementNode s g = Done tt g' →
  ∃ c, code g' = code g ++ c
       ∧ (labelCounter g ≤ labelCounter g')%N
       ∧ labelled (labelCounter g) (labelCounter g') c.
Proof.
  revert g g'.
  induction s as [v e|c t e IHt IHe|c b IHb|p a r|v|stmts IH]
    using StatementNode_induction; intros g g' E; simpl in E.
  - apply (plain_Done _ _ _ _ (plain_visit_AssignStatementNode v e)) in E
      as (c & -> & Hc).
    exists c. rewrite code_set_code, labelCounter_set_code.
    repeat split; [lia|by apply labelled_plain].
  - rewrite if_labels in E.
    apply bind_Done in E as ([] & g2 & Ec & E).
    apply (plain_Done _ _ _ _ (plain_visit_ExprNode c)) in Ec as (cc & -> & Hcc).
    rewrite bind_emit_arg in E. apply bind_Done in E as ([] & g4 & Et & E).
    apply IHt in Et as (c1 & Hc1 & Hn1 & Hl1).
    autorewrite with generator in *. unfold labelled in *.
    pose proof (labelled_label _ (labelCounter g) label_prefix_ELSE) as Hl_else.
    pose proof (labelled_label _ (labelCounter g + 1)%N label_prefix_END_IF)
      as Hl_end.
    destruct e as [s2|].
    + rewrite bind_emit_arg, bind_emitLabel in E.
      apply bind_Done in E as ([] & g6 & Ee & E).
      apply (IHe s2 eq_refl) in Ee as (c2 & Hc2 & Hn2 & Hl2).
      rewrite run_emitLabel in E. injection E as <-.
      autorewrite with generator in *.
      eexists (cc ++ [_] ++ c1 ++ [_; _] ++ c2 ++ [_]).
      rewrite Hc2, Hc1. split; [by rewrite <- !app_assoc|]. split; [lia|].
      apply (labelled_same_labels _
               (c1 ++ [Label (counter_label "ELSE" (labelCounter g))] ++ c2
                   ++ [Label (counter_label "END_IF" (labelCounter g + 1))])).
      { rewrite !labels_of_app, Hcc. done. }
      eapply labelled_weaken.
      * eapply (labelled_app _ _ _ _ Hl1); [|shelve].
        eapply (labelled_app _ _ _ _ Hl_else); [|shelve].
        apply (labelled_app _ _ _ _ Hl2 Hl_end). shelve.
      * simpl. intros k. lia.
      Unshelve. all: simpl; intros; lia.
    + rewrite bind_ret, bind_emitLabel, bind_ret, run_emitLabel in E.
      injection E as <-.
      autorewrite with generator in *.
      eexists (cc ++ [_] ++ c1 ++ [_; _]).
      rewrite Hc1. split; [by rewrite <- !app_assoc|]. split; [lia|].
      apply (labelled_same_labels _
               (c1 ++ [Label (counter_label "ELSE" (labelCounter g))]
                   ++ [Label (counter_label "END_IF" (labelCounter g + 1))])).
      { rewrite !labels_of_app, Hcc. done. }
      eapply labelled_weaken.
      * eapply (labelled_app _ _ _ _ Hl1); [|shelve].
        apply (labelled_app _ _ _ _ Hl_else Hl_end). shelve.
      * simpl. intros k. lia.
      Unshelve. all: simpl; intros; lia.
  - rewrite if_labels, bind_emitLabel in E.
    apply bind_Done in E as ([] & g2 & Ec & E).
    apply (plain_Done _ _ _ _ (plain_visit_ExprNode c)) in Ec as (cc & -> & Hcc).
    rewrite bind_emit_arg in E. apply bind_Done in E as ([] & g4 & Eb & E).
    apply IHb in Eb as (c1 & Hc1 & Hn1 & Hl1).
    rewrite bind_emit_arg, run_emitLabel in E. injection E as <-.
    autorewrite with generator in *. unfold labelled in *.
    pose proof (labelled_label _ (labelCounter g) label_prefix_WHILE_START)
      as Hl_start.
    pose proof (labelled_label _ (labelCounter g + 1)%N label_prefix_WHILE_END)
      as Hl_end.
    eexists ([_] ++ cc ++ [_] ++ c1 ++ [_; _]).
    rewrite Hc1. split; [by rewrite <- !app_assoc|]. split; [lia|].
    apply (labelled_same_labels _
             ([Label (counter_label "WHILE_START" (labelCounter g))] ++ c1
                 ++ [Label (counter_label "WHILE_END" (labelCounter g + 1))])).
    { rewrite !labels_of_app, Hcc. done. }
    eapply labelled_weaken.
    + eapply (labelled_app _ _ _ _ Hl_start); [|shelve].
      apply (labelled_app _ _ _ _ Hl1 Hl_end). shelve.
    + simpl. intros k. lia.
    Unshelve. all: simpl; intros; lia.
  - apply (plain_Done _ _ _ _ (plain_visit_ProcedureCallStatementNode p a r)) in E
      as (c & -> & Hc).
    exists c. rewrite code_set_code, labelCounter_set_code.
    repeat split; [lia|by apply labelled_plain].
  - apply (plain_Done _ _ _ _ (plain_visit_ReturnStatementNode v)) in E
      as (c & -> & Hc).
    exists c. rewrite code_set_code, labelCounter_set_code.
    repeat split; [lia|by apply labelled_plain].
  - destruct stmts as [l|].
    + by apply (statement_list_labels l (IH l eq_refl)).
    + injection E as <-. exists []. rewrite app_nil_r.
      repeat split; [lia|by apply labelled_plain].
Qed.

(** ** Conditionals (C8) *)

(** C8.  With [n] the label counter on entry, an [if] with an else branch
    returns exactly when the condition and both branches have code, and
    then it has appended, in order: the condition's code, one [jz] to the
    else label [L_ELSE_n], the then-branch's code, one [jump] to the end
    label [L_END_IF_(n+1)], the else label, the else-branch's code and the
    end label.  Without an else branch it appends the condition's code,
    the [jz], the then-branch's code and the two labels, with no [jump].
    The two labels differ, the branches are generated with the counter
    already past both, and all the labels defined in the code of the
    statement are pairwise distinct counter labels numbered from [n]. *)
Theorem if_lowering condition s1 g g' :
  let n := labelCounter g in
  let elseLabel := "L_ELSE_" +:+ pretty n in
  let endIfLabel := "L_END_IF_" +:+ pretty (n + 1)%N in
  let g0 := set_labelCounter (n + 2)%N g in
  (∀ s2,
     visit_StatementNode (IfStatementNode condition s1 (Some s2)) g = Done tt g' ↔
     ∃ cc c1 c2 ga,
       Emits (visit_ExprNode condition) g0 cc
       ∧ Steps (visit_StatementNode s1) g0 c1 ga
       ∧ Steps (visit_StatementNode s2) ga c2 g'
       ∧ code g' = code g ++ cc ++ [InsArg "jz" elseLabel] ++ c1
                     ++ [InsArg "jump" endIfLabel; Label elseLabel]
                     ++ c2 ++ [Label endIfLabel])
  ∧ (visit_StatementNode (IfStatementNode condition s1 None) g = Done tt g' ↔
     ∃ cc c1,
       Emits (visit_ExprNode condition) g0 cc
       ∧ Steps (visit_StatementNode s1) g0 c1 g'
       ∧ code g' = code g ++ cc ++ [InsArg "jz" elseLabel] ++ c1
                     ++ [Label elseLabel; Label endIfLabel])
  ∧ elseLabel ≠ endIfLabel
  ∧ (∀ e, visit_StatementNode (IfStatementNode condition s1 e) g = Done tt g' →
     ∃ c, code g' = code g ++ c ∧ labelled n (labelCounter g') c
          ∧ NoDup (labels_of c)).
Proof.
  intros n elseLabel endIfLabel g0. repeat split.
  - simpl. rewrite if_labels. fold n g0 elseLabel endIfLabel.
    intros E. apply bind_visit_ExprNode_Done in E as (cc & Hcc & E).
    apply Emits_set_code in Hcc. rewrite bind_emit_arg in E.
    apply bind_Steps_Done in E as (c1 & ga & H1 & E);
      [|apply parametric_visit_StatementNode].
    apply Steps_set_code in H1. rewrite bind_emit_arg, bind_emitLabel in E.
    apply bind_Steps_Done in E as (c2 & gb & H2 & E);
      [|apply parametric_visit_StatementNode].
    apply Steps_set_code in H2. rewrite run_emitLabel in E. injection E as <-.
    exists cc, c1, c2, ga. split; [done|]. split; [done|].
    split; [by apply Steps_set_code_r|].
    tidy. unfold g0. rewrite ?code_set_labelCounter. by tidy.
  - intros (cc & c1 & c2 & ga & Hcc & H1 & H2 & Hcode).
    simpl. rewrite if_labels. fold n g0 elseLabel endIfLabel.
    apply bind_visit_ExprNode_Done. exists cc.
    split; [by apply Emits_set_code|].
    rewrite bind_emit_arg. tidy.
    rewrite (bind_Steps_run _ _ _ _ _ _ H1), bind_emit_arg, bind_emitLabel. tidy.
    rewrite (bind_Steps_run _ _ _ _ _ _ H2), run_emitLabel. tidy.
    f_equal. rewrite <- (set_code_code g') at 2. f_equal.
    rewrite Hcode. unfold g0. rewrite ?code_set_labelCounter. by tidy.
  - simpl. rewrite if_labels. fold n g0 elseLabel endIfLabel.
    intros E. apply bind_visit_ExprNode_Done in E as (cc & Hcc & E).
    apply Emits_set_code in Hcc. rewrite bind_emit_arg in E.
    apply bind_Steps_Done in E as (c1 & ga & H1 & E);
      [|apply parametric_visit_StatementNode].
    apply Steps_set_code in H1.
    rewrite bind_ret, bind_emitLabel, bind_ret, run_emitLabel in E.
    injection E as <-.
    exists cc, c1. split; [done|]. split; [by do 2 apply Steps_set_code_r|].
    tidy. unfold g0. rewrite ?code_set_labelCounter. by tidy.
  - intros (cc & c1 & Hcc & H1 & Hcode).
    simpl. rewrite if_labels. fold n g0 elseLabel endIfLabel.
    apply bind_visit_ExprNode_Done. exists cc.
    split; [by apply Emits_set_code|].
    rewrite bind_emit_arg. tidy.
    rewrite (bind_Steps_run _ _ _ _ _ _ H1).
    rewrite bind_ret, bind_emitLabel, bind_ret, run_emitLabel. tidy.
    f_equal. rewrite <- (set_code_code g') at 2. f_equal.
    rewrite Hcode. unfold g0. rewrite ?code_set_labelCounter. by tidy.
  - unfold elseLabel, endIfLabel. simpl. discriminate.
  - intros e E. apply statement_labels in E as (c & Hc & _ & Hl).
    exists c. repeat split; try done. by apply labelled_NoDup in Hl.
Qed.

(** ** Parameters (C6) *)

Lemma iter_int_add n z :
  Nat.iter n (λ z, int_add z 1) (int_add z 1)
  = int_add (Nat.iter n (λ z, int_add z 1) z) 1.
Proof. induction n as [|n IH]; simpl; [done|]. by rewrite IH. Qed.

Lemma number_parameters_app start ps qs :
  number_parameters start (ps ++ qs)
  = number_parameters start ps
      ++ number_parameters (Nat.iter (length ps) (λ z, int_add z 1) start) qs.
Proof.
  revert start. induction ps as [|[t i] ps IH]; intros start; simpl; [done|].
  rewrite IH. do 3 f_equal. apply iter_int_add.
Qed.

Lemma parameter_group t ids g :
  visit_ParameterDeclaration (mkParameterDeclaration (Some ids) t) g
  = Done tt
      (set_param_offset (Nat.iter (length ids) (λ z, int_add z 1) (param_offset g))
         (set_symbolTable
            (fold_left (λ table entry, addSymbol entry table)
               (number_parameters (param_offset g) ((λ i, (t, i)) <$> ids))
               (symbolTable g)) g)).
Proof.
  unfold visit_ParameterDeclaration. cbn [pd_type pd_ids].
  revert g. induction ids as [|i ids IH]; intros g.
  - destruct (astToSymbolType t ArrayDetails_default). by destruct g.
  - specialize (IH (set_symbolTable
                      (addSymbol (parameter_entry_of t (param_offset g) i)
                         (symbolTable g))
                      (set_param_offset (int_add (param_offset g) 1) g))).
    destruct (astToSymbolType t ArrayDetails_default) as [param_type ad] eqn:E.
    simpl. rewrite bind_assoc, bind_get, bind_assoc, bind_modify, bind_modify.
    destruct g as [c n tb lo po fc se]. simpl in *.
    assert (Hentry :
      (if decide (param_type = ARRAY)
       then set_arrayDetails ad
              (set_offset po
                 (SymbolEntry_ctor (ident_name i) PARAMETER param_type
                    (ident_line i) (ident_column i)))
       else set_offset po
              (SymbolEntry_ctor (ident_name i) PARAMETER param_type
                 (ident_line i) (ident_column i)))
      = parameter_entry_of t po i).
    { unfold parameter_entry_of. by rewrite E. }
    rewrite Hentry, IH.
    f_equal. unfold set_param_offset, set_symbolTable. simpl. f_equal.
    apply iter_int_add.
Qed.

(** The parameters of a subprogram are added to the table in declaration
    order, each with the parameter counter as its offset, the counter
    advancing by one per parameter. *)
Lemma parameter_list l ps g :
  flat_parameters l = Some ps →
  visit_ParameterList l g
  = Done tt
      (set_param_offset (Nat.iter (length ps) (λ z, int_add z 1) (param_offset g))
         (set_symbolTable
            (fold_left (λ table entry, addSymbol entry table)
               (number_parameters (param_offset g) ps) (symbolTable g)) g)).
Proof.
  unfold visit_ParameterList. revert ps g.
  induction l as [|[[[ids|] t]|] l IH]; intros ps g Hps; simpl in Hps; try done.
  - injection Hps as <-. by destruct g.
  - destruct (flat_parameters l) as [qs|] eqn:E; [|done]. injection Hps as <-.
    simpl. unfold bind. rewrite parameter_group, (IH qs _ eq_refl).
    destruct g as [c n tb lo po fc se]. simpl.
    rewrite number_parameters_app, fold_left_app, length_app, length_fmap.
    unfold set_param_offset, set_symbolTable. simpl. f_equal.
    by rewrite Nat.add_comm, Nat.iter_add.
Qed.

(** The entry numbered [k] is a parameter entry carrying the name of the
    [k]-th parameter and, while the counter stays in range, offset
    [start + k]: 0, 1, 2, ... from a counter reset to 0. *)
Lemma number_parameters_lookup start ps k t i :
  ps !! k = Some (t, i) →
  in_int start → in_int (start + Z.of_nat k) →
  ∃ e, number_parameters start ps !! k = Some e
       ∧ name e = ident_name i ∧ kind e = PARAMETER
       ∧ offset e = start + Z.of_nat k.
Proof.
  assert (Hentry : ∀ t off i,
    name (parameter_entry_of t off i) = ident_name i
    ∧ kind (parameter_entry_of t off i) = PARAMETER
    ∧ offset (parameter_entry_of t off i) = off).
  { intros t' off i'. unfold parameter_entry_of.
    destruct (astToSymbolType t' ArrayDetails_default) as [pt ad].
    by destruct (decide (pt = ARRAY)). }
  revert start k. induction ps as [|[t' i'] ps IH]; intros start k Hk Hs Hsk;
    [done|].
  destruct k as [|k]; simpl in *.
  - injection Hk as -> ->. eexists. split; [done|].
    destruct (Hentry t start i) as (-> & -> & ->). repeat split. lia.
  - unfold in_int, int_min, int_max in *.
    assert (Hw : int_add start 1 = start + 1).
    { apply wrap_exact. unfold in_int, int_min, int_max. lia. }
    destruct (IH (int_add start 1) k Hk) as (e & He & Hn & Hkd & Ho).
    + rewrite Hw. lia.
    + rewrite Hw. lia.
    + exists e. repeat split; try done. rewrite Ho, Hw. lia.
Qed.

(** On entering a subprogram the counter is reset, so numbering starts at 0. *)
Lemma entered_param_offset h entry g : param_offset (entered h entry g) = 0.
Proof. by destruct g. Qed.

(** ** Subprogram declarations (C9) *)

#[local] Hint Resolve parametric_visit_ArgumentsNode parametric_visit_Declarations
  parametric_visit_CompoundStatementNode parametric_visit_StatementNode : parametric.

Lemma parametric_interior node h : parametric (interior node h).
Proof. unfold interior. parametric_tac. Qed.

Lemma bind_assoc3 (a b c k : Gen unit) g :
  (a >> b >> c >> k) g = ((a >> b >> c) >> k) g.
Proof.
  unfold bind. destruct (a g) as [[] g1| |]; [|done..].
  destruct (b g1) as [[] g2| |]; [|done..]. by destruct (c g2).
Qed.

Lemma visit_SubprogramDeclaration_unfold h locals body g :
  let node := mkSubprogramDeclaration (Some h) locals body in
  visit_SubprogramDeclaration node g
  = match lookupSymbol (mangledKey h) (symbolTable g) with
    | None =>
        Thrown ("CodeGen: Could not find symbol table entry for subprogram: "
                  +:+ ident_name (head_name_of h))
               (set_currentFunctionContext (Some h) g)
    | Some entry =>
        (match head_arguments_of h with
         | Some args => visit_ArgumentsNode args
         | None => ret tt
         end >>
         match locals with
         | Some d => visit_Declarations d
         | None => ret tt
         end >>
         match body with
         | Some b => visit_CompoundStatementNode b
         | None => ret tt
         end >>
         (when (is_ProcedureHeadNode h) (emit "return") >>
          emitLabel (getMangledName entry +:+ "_end") >>
          modify (λ g, set_symbolTable (exitScope (symbolTable g)) g) >>
          modify (set_currentFunctionContext (currentFunctionContext g)) >>
          modify (set_currentSubprogramEntry (currentSubprogramEntry g))))
          (set_code ((code g ++ [InsArg "jump" (getMangledName entry +:+ "_end")])
                       ++ [Label (getMangledName entry)])
             (entered h entry g))
    end.
Proof.
  intros node. subst node. destruct g as [c n t lo po fc se].
  unfold visit_SubprogramDeclaration.
  rewrite bind_get, bind_modify. cbn [head local_declarations sub_body].
  rewrite bind_lookup.
  cbn [set_currentFunctionContext symbolTable code labelCounter local_offset
       param_offset currentFunctionContext currentSubprogramEntry].
  destruct (lookupSymbol (mangledKey h) t) as [entry|]; reflexivity.
Qed.

(** The end of a block: the [return] of a procedure, the end label, the
    scope left and the contexts restored. *)
Lemma subprogram_finish h entry g pre gb :
  (when (is_ProcedureHeadNode h) (emit "return") >>
   emitLabel (getMangledName entry +:+ "_end") >>
   modify (λ g, set_symbolTable (exitScope (symbolTable g)) g) >>
   modify (set_currentFunctionContext (currentFunctionContext g)) >>
   modify (set_currentSubprogramEntry (currentSubprogramEntry g)))
    (set_code pre gb)
  = Done tt (set_code
               (pre ++ (if is_ProcedureHeadNode h then [Ins "return"] else [])
                  ++ [Label (getMangledName entry +:+ "_end")])
               (left_scope g gb)).
Proof.
  destruct gb as [c n t lo po fc se]. unfold left_scope.
  destruct (is_ProcedureHeadNode h); simpl.
  - rewrite bind_emit, bind_emitLabel, !bind_modify. unfold modify, set_code.
    simpl. by rewrite <- app_assoc.
  - rewrite bind_ret, bind_emitLabel, !bind_modify. unfold modify, set_code.
    simpl. done.
Qed.

(** C9.  The declaration of a procedure returns exactly when its key
    resolves and its interior (parameters, local declarations, body) has
    code [c]; the block it has appended then ends with a [return]
    instruction that follows [c] and precedes the end label, whether or
    not the body holds a return statement. *)
Theorem procedure_return name args locals body g g' :
  let h := ProcedureHeadNode name args in
  let node := mkSubprogramDeclaration (Some h) locals body in
  visit_SubprogramDeclaration node g = Done tt g' ↔
  ∃ entry c gb,
    lookupSymbol (mangledKey h) (symbolTable g) = Some entry
    ∧ Steps (interior node h) (entered h entry g) c gb
    ∧ g' = set_code
             (code g ++ [InsArg "jump" (getMangledName entry +:+ "_end");
                         Label (getMangledName entry)]
                ++ c
                ++ [Ins "return"; Label (getMangledName entry +:+ "_end")])
             (left_scope g gb).
Proof.
  intros h node. unfold node at 1. rewrite visit_SubprogramDeclaration_unfold.
  destruct (lookupSymbol (mangledKey h) (symbolTable g)) as [entry|] eqn:E.
  2: { split; [done|]. intros (? & ? & ? & ? & _). congruence. }
  rewrite bind_assoc3.
  change (match head_arguments_of h with
          | Some args => visit_ArgumentsNode args
          | None => ret tt
          end >>
          match locals with
          | Some d => visit_Declarations d
          | None => ret tt
          end >>
          match body with
          | Some b => visit_CompoundStatementNode b
          | None => ret tt
          end) with (interior node h).
  rewrite (bind_Steps_Done _ _ _ _ (parametric_interior node h)). split.
  - intros (c & gb & Hs & Ek). apply Steps_set_code in Hs.
    rewrite subprogram_finish in Ek. injection Ek as <-.
    exists entry, c, gb. repeat split; try done. by tidy.
  - intros (entry' & c & gb & [= <-] & Hs & ->).
    exists c, gb. split; [by apply Steps_set_code|].
    rewrite subprogram_finish. by tidy.
Qed.

(** X19.  The block of a function.  A function declaration returns
    exactly when an entry stands under its key and its parameters, local
    declarations and body have code; the block is then the jump to the end
    label, the entry label, that code and the end label.  No [return] is
    appended: only a return statement of the body ends the function.  On
    the way out the scope is left and both contexts are those of [g]. *)
Lemma function_block name args locals body g g' :
  let h := FunctionHeadNode name args in
  let node := mkSubprogramDeclaration (Some h) locals body in
  visit_SubprogramDeclaration node g = Done tt g' ↔
  ∃ entry c gb,
    lookupSymbol (mangledKey h) (symbolTable g) = Some entry
    ∧ Steps (interior node h) (entered h entry g) c gb
    ∧ g' = set_code
             (code g ++ [InsArg "jump" (getMangledName entry +:+ "_end");
                         Label (getMangledName entry)]
                ++ c ++ [Label (getMangledName entry +:+ "_end")])
             (left_scope g gb).
Proof.
  intros h node. unfold node at 1. rewrite visit_SubprogramDeclaration_unfold.
  destruct (lookupSymbol (mangledKey h) (symbolTable g)) as [entry|] eqn:E.
  2: { split; [done|]. intros (? & ? & ? & ? & _). congruence. }
  rewrite bind_assoc3.
  change (match head_arguments_of h with
          | Some args => visit_ArgumentsNode args
          | None => ret tt
          end >>
          match locals with
          | Some d => visit_Declarations d
          | None => ret tt
          end >>
          match body with
          | Some b => visit_CompoundStatementNode b
          | None => ret tt
          end) with (interior node h).
  rewrite (bind_Steps_Done _ _ _ _ (parametric_interior node h)). split.
  - intros (c & gb & Hs & Ek). apply Steps_set_code in Hs.
    rewrite subprogram_finish in Ek. injection Ek as <-.
    exists entry, c, gb. repeat split; try done. by tidy.
  - intros (entry' & c & gb & [= <-] & Hs & ->).
    exists c, gb. split; [by apply Steps_set_code|].
    rewrite subprogram_finish. by tidy.
Qed.

(** * Further properties of the visitor *)

(** ** Loops *)

(** X1.  With [n] the label counter on entry, a [while] returns exactly
    when its condition and its body have code, and then it has appended:
    the start label [L_WHILE_START_n], the condition's code, one [jz] to
    the end label [L_WHILE_END_(n+1)], the body's code, one [jump] back to
    the start label, and the end label.  The two labels differ, and the
    body is generated with the counter already past both. *)
Theorem while_lowering condition body g g' :
  let n := labelCounter g in
  let startLabel := "L_WHILE_START_" +:+ pretty n in
  let endLabel := "L_WHILE_END_" +:+ pretty (n + 1)%N in
  let g0 := set_labelCounter (n + 2)%N g in
  (visit_StatementNode (WhileStatementNode condition body) g = Done tt g' ↔
   ∃ cc cb,
     Emits (visit_ExprNode condition) g0 cc
     ∧ Steps (visit_StatementNode body) g0 cb g'
     ∧ code g' = code g ++ [Label startLabel] ++ cc ++ [InsArg "jz" endLabel]
                   ++ cb ++ [InsArg "jump" startLabel; Label endLabel])
  ∧ startLabel ≠ endLabel.
Proof.
  intros n startLabel endLabel g0. split; [split|].
  - simpl. rewrite if_labels. fold n g0 startLabel endLabel.
    rewrite bind_emitLabel.
    intros E. apply bind_visit_ExprNode_Done in E as (cc & Hcc & E).
    do 2 apply Emits_set_code in Hcc. rewrite bind_emit_arg in E.
    apply bind_Steps_Done in E as (cb & gb & Hb & E);
      [|apply parametric_visit_StatementNode].
    apply Steps_set_code in Hb. rewrite bind_emit_arg, run_emitLabel in E.
    injection E as <-.
    exists cc, cb. split; [done|]. split; [by do 2 apply Steps_set_code_r|].
    tidy. unfold g0. rewrite ?code_set_labelCounter. by tidy.
  - intros (cc & cb & Hcc & Hb & Hcode).
    simpl. rewrite if_labels. fold n g0 startLabel endLabel.
    rewrite bind_emitLabel.
    apply bind_visit_ExprNode_Done. exists cc.
    split; [by do 2 apply Emits_set_code|].
    rewrite bind_emit_arg. tidy.
    rewrite (bind_Steps_run _ _ _ _ _ _ Hb), bind_emit_arg, run_emitLabel. tidy.
    f_equal. rewrite <- (set_code_code g') at 2. f_equal.
    rewrite Hcode. unfold g0. rewrite ?code_set_labelCounter. by tidy.
  - unfold startLabel, endLabel. simpl. discriminate.
Qed.

(** ** Returning a value *)

(** X2.  Inside a subprogram whose entry has [numParameters = k], a return
    statement with a value returns exactly when the value has code, and
    then it has appended that code, one [itof] exactly when the
    subprogram's return type is real and the value is an integer, the
    store [storel -(k + 1)] into the slot below the arguments, and
    [return].  The kind of the entry is not consulted. *)
Theorem return_value_store value subprogram g g' :
  currentSubprogramEntry g = Some subprogram →
  visit_StatementNode (ReturnStatementNode (Some value)) g = Done tt g' ↔
  ∃ c,
    Emits (visit_ExprNode value) g c
    ∧ g' = set_code
             (code g ++ c
                ++ (if bool_decide (functionReturnType subprogram = PRIMITIVE_REAL)
                       && bool_decide (determinedType value = PRIMITIVE_INTEGER)
                    then [Ins "itof"] else [])
                ++ [InsArg "storel"
                      (to_string (int_neg (int_add (numParameters subprogram) 1)));
                    Ins "return"]) g.
Proof.
  intros Hctx. simpl. unfold visit_ReturnStatementNode.
  rewrite bind_assoc, bind_get, Hctx. cbv beta iota.
  rewrite !bind_assoc, bind_visit_ExprNode_Done.
  assert (Hend : ∀ g0,
    (when (bool_decide (functionReturnType subprogram = PRIMITIVE_REAL)
           && bool_decide (determinedType value = PRIMITIVE_INTEGER))
          (emit "itof") >>
     (emit_arg "storel" (to_string (int_neg (int_add (numParameters subprogram) 1)))
      >> emit "return")) g0
    = Done tt
        (set_code
           (code g0
              ++ (if bool_decide (functionReturnType subprogram = PRIMITIVE_REAL)
                     && bool_decide (determinedType value = PRIMITIVE_INTEGER)
                  then [Ins "itof"] else [])
              ++ [InsArg "storel"
                    (to_string (int_neg (int_add (numParameters subprogram) 1)));
                  Ins "return"]) g0)).
  { intros g0.
    destruct (bool_decide (functionReturnType subprogram = PRIMITIVE_REAL)
              && bool_decide (determinedType value = PRIMITIVE_INTEGER)); simpl.
    - rewrite bind_emit, bind_emit_arg, run_emit. by tidy.
    - rewrite bind_ret, bind_emit_arg, run_emit. by tidy. }
  split.
  - intros (c & Hc & E). exists c. split; [done|].
    rewrite bind_assoc, Hend in E. injection E as <-. by tidy.
  - intros (c & Hc & ->). exists c. split; [done|].
    rewrite bind_assoc, Hend. by tidy.
Qed.

(** ** Operators *)

Lemma bind_ret_r (m : Gen unit) g : (m >> ret tt) g = m g.
Proof. unfold bind. by destruct (m g) as [[] ?| |]. Qed.

(** X3.  A unary node returns exactly when its operand has code, and then
    it has appended that code followed by [pushf 0.0; swap; fsub] for [-]
    on a real operand, [pushi 0; swap; sub] for [-] on any other operand,
    and [not] for [NOT_OP].  Any other operator is accepted without an
    error and lowered as its operand alone. *)
Theorem unary_lowering d op e g g' :
  (visit_ExprNode (UnaryOpNode d op e) g = Done tt g' ↔
   ∃ c,
     Emits (visit_ExprNode e) g c
     ∧ g' = set_code
              (code g ++ c
                 ++ (if decide (op = "-") then
                       if decide (determinedType e = PRIMITIVE_REAL)
                       then [InsArg "pushf" "0.0"; Ins "swap"; Ins "fsub"]
                       else [InsArg "pushi" "0"; Ins "swap"; Ins "sub"]
                     else if decide (op = "NOT_OP") then [Ins "not"] else [])) g)
  ∧ (op ≠ "-" → op ≠ "NOT_OP" →
     visit_ExprNode (UnaryOpNode d op e) g = visit_ExprNode e g).
Proof.
  split.
  - simpl. rewrite bind_visit_ExprNode_Done.
    assert (Hop : ∀ g0,
      (if decide (op = "-") then
         if decide (determinedType e = PRIMITIVE_REAL)
         then emit_arg "pushf" "0.0" >> emit "swap" >> emit "fsub"
         else emit_arg "pushi" "0" >> emit "swap" >> emit "sub"
       else if decide (op = "NOT_OP") then emit "not" else ret tt) g0
      = Done tt
          (set_code
             (code g0
                ++ (if decide (op = "-") then
                      if decide (determinedType e = PRIMITIVE_REAL)
                      then [InsArg "pushf" "0.0"; Ins "swap"; Ins "fsub"]
                      else [InsArg "pushi" "0"; Ins "swap"; Ins "sub"]
                    else if decide (op = "NOT_OP") then [Ins "not"] else [])) g0)).
    { intros g0.
      destruct (decide (op = "-")); [destruct (decide (determinedType e = _))|
                                      destruct (decide (op = "NOT_OP"))].
      - rewrite bind_emit_arg, bind_emit, run_emit. by tidy.
      - rewrite bind_emit_arg, bind_emit, run_emit. by tidy.
      - rewrite run_emit. by tidy.
      - rewrite run_ret. by tidy. }
    split.
    + intros (c & Hc & E). rewrite Hop in E. injection E as <-.
      exists c. split; [done|]. by tidy.
    + intros (c & Hc & ->). exists c. split; [done|]. rewrite Hop. by tidy.
  - intros Hminus Hnot. simpl.
    destruct (decide (op = "-")); [done|].
    destruct (decide (op = "NOT_OP")); [done|].
    apply bind_ret_r.
Qed.

Lemma binary_instruction_unsupported op b g :
  op ∉ binary_ops →
  binary_instruction op b g
  = Thrown ("CodeGen: Unsupported binary op '" +:+ op +:+ "'") g.
Proof.
  unfold binary_ops. rewrite !elem_of_cons, elem_of_nil. intros Hop.
  unfold binary_instruction.
  repeat match goal with
         | |- context [decide (op = ?s)] =>
             destruct (decide (op = s)) as [?|?]; [exfalso; tauto|cbv beta iota]
         end.
  done.
Qed.

Lemma binary_instruction_supported op b g :
  op ∈ binary_ops →
  ∃ c, c ≠ [] ∧ binary_instruction op b g = Done tt (set_code (code g ++ c) g).
Proof.
  unfold binary_ops. rewrite !elem_of_cons, elem_of_nil. intros Hop.
  unfold binary_instruction.
  repeat match goal with
         | |- context [decide (op = ?s)] =>
             destruct (decide (op = s)) as [?|?]; cbv beta iota;
             [first [ rewrite run_emit; by eexists [_]
                    | rewrite bind_emit, run_emit; eexists [_; _];
                      split; [done|by tidy]
                    | rewrite bind_emit, bind_emit_arg, run_emit; eexists [_; _; _];
                      split; [done|by tidy] ]|]
         end.
  exfalso. tauto.
Qed.

(** X4.  [visit(BinaryOpNode&)] has an instruction for exactly the thirteen
    operators of [binary_ops], each lowered to between one and three
    instructions.  For any other operator it throws the unsupported-operator
    error only after both operands have been generated: the generator then
    holds the code of both operands and their coercions. *)
Theorem binary_operator_support op :
  (∀ b g, (∃ g', binary_instruction op b g = Done tt g') ↔ op ∈ binary_ops)
  ∧ (∀ d l r g cl cr,
       op ∉ binary_ops →
       Emits (visit_ExprNode l) g cl → Emits (visit_ExprNode r) g cr →
       let is_real := is_real_op op (determinedType l) (determinedType r) in
       visit_ExprNode (BinaryOpNode d op l r) g
       = Thrown ("CodeGen: Unsupported binary op '" +:+ op +:+ "'")
           (set_code (code g ++ cl ++ coercion is_real l
                        ++ cr ++ coercion is_real r) g)).
Proof.
  split.
  - intros b g. split.
    + intros [g' E]. destruct (decide (op ∈ binary_ops)) as [|Hn]; [done|].
      by rewrite (binary_instruction_unsupported op b g Hn) in E.
    + intros Hop. destruct (binary_instruction_supported op b g Hop) as (c & _ & E).
      eauto.
  - intros d l r g cl cr Hop Hl Hr is_real. simpl. fold is_real.
    assert (Hco : ∀ x (k : Gen unit) g0,
      (when (is_real && bool_decide (determinedType x = PRIMITIVE_INTEGER))
            (emit "itof") >> k) g0
      = k (set_code (code g0 ++ coercion is_real x) g0)).
    { intros x k g0. unfold coercion.
      destruct (is_real && bool_decide (determinedType x = PRIMITIVE_INTEGER)).
      - done.
      - simpl. by rewrite bind_ret, app_nil_r, set_code_code. }
    unfold bind at 1. rewrite (Emits_run _ _ _ Hl), Hco.
    rewrite code_set_code, set_code_set_code.
    rewrite (bind_Steps_run _ _ _ _ _ _ Hr), Hco.
    rewrite binary_instruction_unsupported by done. by tidy.
Qed.

(** ** Straight-line code *)

Lemma jump_targets_app c1 c2 :
  jump_targets (c1 ++ c2) = jump_targets c1 ++ jump_targets c2.
Proof. apply omap_app. Qed.

Lemma straight_ret {A} (a : A) : straight (ret a).
Proof. intros g. exists []. by rewrite app_nil_r, set_code_code. Qed.

Lemma straight_throw {A} w : straight (throw (A:=A) w).
Proof. intros g. exists []. by rewrite app_nil_r, set_code_code. Qed.

Lemma straight_get {A} (f : CodeGenerator → A) : straight (get f).
Proof. intros g. exists []. by rewrite app_nil_r, set_code_code. Qed.

Lemma straight_emit i : straight (emit i).
Proof. intros g. by exists [Ins i]. Qed.

Lemma straight_emit_arg i a :
  bool_decide (i = "jz") || bool_decide (i = "jump") = false →
  straight (emit_arg i a).
Proof.
  intros Hi g. exists [InsArg i a]. repeat split.
  unfold jump_targets. simpl. by rewrite Hi.
Qed.

Lemma straight_bind {A B} (m : Gen A) (k : A → Gen B) :
  straight m → (∀ a, straight (k a)) → straight (bind m k).
Proof.
  intros Hm Hk g. unfold bind. specialize (Hm g).
  destruct (m g) as [a g1|w g1|]; [|done..].
  destruct Hm as (c1 & -> & Hl1 & Hj1).
  specialize (Hk a (set_code (code g ++ c1) g)).
  destruct (k a _) as [b g2|w g2|]; [| |done].
  - destruct Hk as (c2 & -> & Hl2 & Hj2). exists (c1 ++ c2).
    rewrite code_set_code, set_code_set_code, app_assoc, labels_of_app,
      jump_targets_app, Hl1, Hl2, Hj1, Hj2.
    done.
  - destruct Hk as (c2 & -> & Hl2 & Hj2). exists (c1 ++ c2).
    rewrite code_set_code, set_code_set_code, app_assoc, labels_of_app,
      jump_targets_app, Hl1, Hl2, Hj1, Hj2.
    done.
Qed.

Lemma straight_when b (m : Gen unit) : straight m → straight (when b m).
Proof. destruct b; [done|]. intros _. apply straight_ret. Qed.

Lemma straight_for_each {A} (f : A → Gen unit) l :
  Forall (λ x, straight (f x)) l → straight (for_each f l).
Proof.
  induction 1 as [|x l Hx _ IH]; simpl; [apply straight_ret|].
  apply straight_bind; auto.
Qed.

Lemma straight_for_each_rev {A} (f : A → Gen unit) l :
  Forall (λ x, straight (f x)) l → straight (for_each_rev f l).
Proof.
  induction 1 as [|x l Hx _ IH]; simpl; [apply straight_ret|].
  apply straight_bind; auto.
Qed.

Create HintDb straight discriminated.

Ltac straight_step :=
  lazymatch goal with
  | |- straight (bind _ _) => apply straight_bind; [|intros ?]
  | |- straight (ret _) => apply straight_ret
  | |- straight (throw _) => apply straight_throw
  | |- straight (emit _) => apply straight_emit
  | |- straight (emit_arg _ _) => apply straight_emit_arg; reflexivity
  | |- straight (lookup _) => apply straight_get
  | |- straight (get _) => apply straight_get
  | |- straight (when _ _) => apply straight_when
  | |- straight (match ?x with _ => _ end) => destruct x
  | |- straight _ => solve [auto with straight]
  end.

Lemma straight_binary_instruction op r : straight (binary_instruction op r).
Proof. unfold binary_instruction. repeat straight_step. Qed.

Lemma straight_push_slot sc off : straight (push_slot sc off).
Proof. unfold push_slot. repeat straight_step. Qed.

Lemma straight_store_slot entry sc : straight (store_slot entry sc).
Proof. unfold store_slot. repeat straight_step. Qed.

#[local] Hint Resolve straight_binary_instruction straight_push_slot
  straight_store_slot : straight.

Lemma straight_visit_ExprNode e : straight (visit_ExprNode e).
Proof.
  induction e as [| | | |d i idx sc off IH| |d f args r IH| |] using ExprNode_induction;
    simpl.
  1-4, 6, 8-9: repeat straight_step.
  - destruct idx as [idx|]; [|repeat straight_step].
    pose proof (IH idx eq_refl) as Hm. revert Hm.
    generalize (visit_ExprNode idx). intros m Hm.
    repeat straight_step.
  - destruct r as [callee|]; [|repeat straight_step].
    assert (straight (match args with
                      | Some exprs => for_each_rev visit_ExprNode exprs
                      | None => ret tt
                      end)).
    { destruct args as [l|]; [|apply straight_ret].
      apply straight_for_each_rev. by apply IH. }
    repeat straight_step.
Qed.

#[local] Hint Resolve straight_visit_ExprNode : straight.

Lemma straight_visit_AssignStatementNode v e :
  straight (visit_AssignStatementNode v e).
Proof.
  unfold visit_AssignStatementNode.
  destruct v as [| | | |d i [idx|] sc off| | | |]; try apply straight_ret.
  - pose proof (straight_visit_ExprNode idx) as Hm. revert Hm.
    generalize (visit_ExprNode idx). intros m Hm. repeat straight_step.
  - repeat straight_step.
Qed.

Lemma straight_visit_ProcedureCallStatementNode p a r :
  straight (visit_ProcedureCallStatementNode p a r).
Proof.
  unfold visit_ProcedureCallStatementNode.
  assert (straight (match a with
                    | Some exprs => for_each_rev visit_ExprNode exprs
                    | None => ret tt
                    end)).
  { destruct a as [l|]; [|apply straight_ret].
    apply straight_for_each_rev, Forall_forall.
    intros; apply straight_visit_ExprNode. }
  assert (straight (match a with
                    | Some exprs => for_each write_argument exprs
                    | None => ret tt
                    end)).
  { destruct a as [l|]; [|apply straight_ret].
    apply straight_for_each, Forall_forall.
    intros; unfold write_argument; repeat straight_step. }
  repeat straight_step.
Qed.

Lemma straight_visit_ReturnStatementNode v :
  straight (visit_ReturnStatementNode v).
Proof. unfold visit_ReturnStatementNode. repeat straight_step. Qed.

Lemma straight_Done {A} (m : Gen A) a g g' :
  straight m → m g = Done a g' →
  ∃ c, g' = set_code (code g ++ c) g ∧ labels_of c = [] ∧ jump_targets c = [].
Proof. intros Hm E. specialize (Hm g). by rewrite E in Hm. Qed.

(** X5.  An expression, an assignment, a procedure call and a [return]
    only ever append to the code, and what they append is straight-line:
    it defines no label and holds no [jz] or [jump].  Every other member of
    the generator (label counter, symbol table, offsets, subprogram context)
    is left as it was, also when the visit ends in a thrown error. *)
Theorem simple_nodes_are_straight_line g :
  let appended {A} (o : Outcome A) :=
    match o with
    | Done _ g' | Thrown _ g' =>
        ∃ c, g' = set_code (code g ++ c) g
             ∧ labels_of c = [] ∧ jump_targets c = []
    | Undefined => True
    end in
  (∀ e, appended (visit_ExprNode e g))
  ∧ (∀ v e, appended (visit_StatementNode (AssignStatementNode v e) g))
  ∧ (∀ p a r, appended (visit_StatementNode (ProcedureCallStatementNode p a r) g))
  ∧ (∀ v, appended (visit_StatementNode (ReturnStatementNode v) g)).
Proof.
  intros appended. repeat split.
  - intros e. apply straight_visit_ExprNode.
  - intros v e. apply straight_visit_AssignStatementNode.
  - intros p a r. apply straight_visit_ProcedureCallStatementNode.
  - intros v. apply straight_visit_ReturnStatementNode.
Qed.

(** ** Control flow of statements *)

Lemma statement_list_jumps (l : list (option StatementNode)) :
  Forall (λ o, ∀ s, o = Some s → ∀ g g',
            visit_StatementNode s g = Done tt g' →
            ∃ c, code g' = code g ++ c ∧ jump_targets c ⊆ labels_of c) l →
  ∀ g g',
    for_each (λ stmt, match stmt with
                      | Some s => visit_StatementNode s
                      | None => ret tt
                      end) l g = Done tt g' →
    ∃ c, code g' = code g ++ c ∧ jump_targets c ⊆ labels_of c.
Proof.
  induction 1 as [|o l Ho _ IH]; intros g g' E; simpl in E.
  - injection E as <-. exists []. by rewrite app_nil_r.
  - apply bind_Done in E as ([] & g1 & E1 & E).
    apply IH in E as (c2 & Hc2 & Hj2).
    destruct o as [s|].
    + apply (Ho s eq_refl) in E1 as (c1 & Hc1 & Hj1).
      exists (c1 ++ c2). rewrite Hc2, Hc1, app_assoc. split; [done|].
      rewrite jump_targets_app, labels_of_app. intros t Ht.
      apply elem_of_app in Ht as [Ht|Ht]; apply elem_of_app; auto.
    + injection E1 as <-. by exists c2.
Qed.

Lemma resolved_visit_StatementNode s : resolved (visit_StatementNode s).
Proof.
  intros g [] g'. revert g g'.
  induction s as [v e|c th e IHt IHe|c b IHb|p a r|v|stmts IH]
    using StatementNode_induction; intros g g' E; simpl in E.
  - apply (straight_Done _ _ _ _ (straight_visit_AssignStatementNode v e)) in E
      as (c & -> & _ & Hc).
    exists c. rewrite code_set_code, Hc. split; [done|]. intros x Ht.
    by apply elem_of_nil in Ht.
  - rewrite if_labels in E.
    apply bind_Done in E as ([] & g2 & Ec & E).
    apply (straight_Done _ _ _ _ (straight_visit_ExprNode c)) in Ec
      as (cc & -> & Hlc & Hjc).
    rewrite bind_emit_arg in E. apply bind_Done in E as ([] & g4 & Et & E).
    apply IHt in Et as (c1 & Hc1 & Hj1).
    autorewrite with generator in *.
    destruct e as [s2|].
    + rewrite bind_emit_arg, bind_emitLabel in E.
      apply bind_Done in E as ([] & g6 & Ee & E).
      apply (IHe s2 eq_refl) in Ee as (c2 & Hc2 & Hj2).
      rewrite run_emitLabel in E. injection E as <-.
      autorewrite with generator in *.
      eexists (cc ++ [_] ++ c1 ++ [_; _] ++ c2 ++ [_]).
      rewrite Hc2, Hc1. split; [by rewrite <- !app_assoc|].
      rewrite !jump_targets_app, !labels_of_app, Hlc, Hjc. simpl. rewrite ?app_nil_r.
      intros x Ht. rewrite elem_of_cons, elem_of_app, elem_of_cons in Ht.
      rewrite elem_of_app, elem_of_cons, elem_of_app, list_elem_of_singleton.
      destruct Ht as [->|[Ht|[->|Ht]]]; auto 6.
    + rewrite bind_ret, bind_emitLabel, bind_ret, run_emitLabel in E.
      injection E as <-.
      autorewrite with generator in *.
      eexists (cc ++ [_] ++ c1 ++ [_; _]).
      rewrite Hc1. split; [by rewrite <- !app_assoc|].
      rewrite !jump_targets_app, !labels_of_app, Hlc, Hjc. simpl. rewrite ?app_nil_r.
      intros x Ht. rewrite elem_of_cons in Ht.
      rewrite elem_of_app, elem_of_cons.
      destruct Ht as [->|Ht]; auto 6.
  - rewrite if_labels, bind_emitLabel in E.
    apply bind_Done in E as ([] & g2 & Ec & E).
    apply (straight_Done _ _ _ _ (straight_visit_ExprNode c)) in Ec
      as (cc & -> & Hlc & Hjc).
    rewrite bind_emit_arg in E. apply bind_Done in E as ([] & g4 & Eb & E).
    apply IHb in Eb as (c1 & Hc1 & Hj1).
    rewrite bind_emit_arg, run_emitLabel in E. injection E as <-.
    autorewrite with generator in *.
    eexists ([_] ++ cc ++ [_] ++ c1 ++ [_; _]).
    rewrite Hc1. split; [by rewrite <- !app_assoc|].
    rewrite !jump_targets_app, !labels_of_app, Hlc, Hjc. simpl. rewrite ?app_nil_r.
    intros x Ht. rewrite elem_of_cons, elem_of_app, list_elem_of_singleton in Ht.
    rewrite elem_of_cons, elem_of_app, list_elem_of_singleton.
    destruct Ht as [->|[Ht| ->]]; auto 6.
  - apply (straight_Done _ _ _ _ (straight_visit_ProcedureCallStatementNode p a r))
      in E as (c & -> & _ & Hc).
    exists c. rewrite code_set_code, Hc. split; [done|]. intros x Ht.
    by apply elem_of_nil in Ht.
  - apply (straight_Done _ _ _ _ (straight_visit_ReturnStatementNode v)) in E
      as (c & -> & _ & Hc).
    exists c. rewrite code_set_code, Hc. split; [done|]. intros x Ht.
    by apply elem_of_nil in Ht.
  - destruct stmts as [l|].
    + by apply (statement_list_jumps l (IH l eq_refl)).
    + injection E as <-. exists []. by rewrite app_nil_r.
Qed.


(** X6.  In the code a statement appends, every [jz] and every [jump] goes
    to a label that the same code defines: no branch of an [if] or a
    [while], however nested, leaves the statement's own code. *)
Theorem statement_jumps_resolved s g g' :
  visit_StatementNode s g = Done tt g' →
  ∃ c, code g' = code g ++ c
       ∧ ∀ target, target ∈ jump_targets c → target ∈ labels_of c.
Proof.
  intros E.
  destruct (resolved_visit_StatementNode s g tt g' E) as (c & Hc & Hj).
  exists c. split; [exact Hc|].
  intros target Ht. by apply Hj.
Qed.

(** X7.  Statements never share a label.  Each statement leaves the label
    counter at least where it found it, and when a second statement is
    generated from a counter that is not below the one the first left,
    the labels the two define are pairwise distinct strings; in particular
    the labels of one statement are. *)
Theorem labels_never_reused s1 s2 g1 g1' g2 g2' :
  visit_StatementNode s1 g1 = Done tt g1' →
  visit_StatementNode s2 g2 = Done tt g2' →
  (labelCounter g1' ≤ labelCounter g2)%N →
  (labelCounter g1 ≤ labelCounter g1')%N
  ∧ (labelCounter g2 ≤ labelCounter g2')%N
  ∧ ∃ c1 c2,
      code g1' = code g1 ++ c1 ∧ code g2' = code g2 ++ c2
      ∧ NoDup (labels_of c1 ++ labels_of c2).
Proof.
  intros E1 E2 Hle.
  apply statement_labels in E1 as (c1 & Hc1 & Hn1 & Hl1).
  apply statement_labels in E2 as (c2 & Hc2 & Hn2 & Hl2).
  repeat split; try done. exists c1, c2. repeat split; try done.
  rewrite <- labels_of_app. unfold labelled in *.
  eapply labelled_NoDup, (labelled_app _ _ _ _ Hl1 Hl2).
  simpl. intros k Hk1 Hk2. lia.
Qed.

(** ** The program *)

Lemma parametric_visit_SubprogramDeclaration s :
  parametric (visit_SubprogramDeclaration s).
Proof.
  unfold visit_SubprogramDeclaration.
  apply parametric_bind; [parametric_state|intros previousContext].
  apply parametric_bind; [parametric_state|intros _].
  destruct (head s) as [h|]; [|apply parametric_undefined].
  apply parametric_bind; [apply parametric_lookup|intros [entry|]];
    [|apply parametric_throw].
  apply parametric_bind; [parametric_state|intros previousEntry].
  parametric_tac.
Qed.

Lemma parametric_visit_SubprogramDeclarations l :
  parametric (visit_SubprogramDeclarations l).
Proof.
  apply parametric_for_each, Forall_forall. intros [s|] _.
  - apply parametric_visit_SubprogramDeclaration.
  - apply parametric_ret.
Qed.

#[local] Hint Resolve parametric_visit_SubprogramDeclarations : parametric.

Lemma parametric_visit_ProgramNode node : parametric (visit_ProgramNode node).
Proof. unfold visit_ProgramNode. parametric_tac. Qed.

(** X8.  The frame of a program.  A program returns exactly when its
    subprograms, its declarations and its main block do, one after the
    other, and the code is then [start], a [jump main_entry] when the list
    of subprograms is present and not empty, the subprograms, the label
    [main_entry], the declarations, the main block and [stop]. *)
Theorem program_frame node g g' :
  visit_ProgramNode node g = Done tt g' ↔
  ∃ cs cd cm gs gd,
    Steps (match subprogs node with
           | Some s => visit_SubprogramDeclarations s
           | None => ret tt
           end) g cs gs
    ∧ Steps (match decls node with
             | Some d => visit_Declarations d
             | None => ret tt
             end) gs cd gd
    ∧ Steps (match mainCompoundStmt node with
             | Some b => visit_CompoundStatementNode b
             | None => ret tt
             end) gd cm g'
    ∧ code g' = code g ++ [Ins "start"]
                  ++ match subprogs node with
                     | Some (_ :: _) => [InsArg "jump" "main_entry"]
                     | _ => []
                     end
                  ++ cs ++ [Label "main_entry"] ++ cd ++ cm ++ [Ins "stop"].
Proof.
  unfold visit_ProgramNode. rewrite bind_emit.
  assert (Hjump : ∀ (k : Gen unit) g0,
    (match subprogs node with
     | Some (_ :: _) => emit_arg "jump" "main_entry"
     | _ => ret tt
     end >> k) g0
    = k (set_code (code g0 ++ match subprogs node with
                              | Some (_ :: _) => [InsArg "jump" "main_entry"]
                              | _ => []
                              end) g0)).
  { intros k g0. destruct (subprogs node) as [[|? ?]|];
      rewrite ?bind_ret, ?bind_emit_arg, ?app_nil_r, ?set_code_code; done. }
  rewrite Hjump.
  assert (Hs : parametric (match subprogs node with
                           | Some s => visit_SubprogramDeclarations s
                           | None => ret tt
                           end)) by parametric_tac.
  assert (Hd : parametric (match decls node with
                           | Some d => visit_Declarations d
                           | None => ret tt
                           end)) by parametric_tac.
  assert (Hm : parametric (match mainCompoundStmt node with
                           | Some b => visit_CompoundStatementNode b
                           | None => ret tt
                           end)) by parametric_tac.
  revert Hs Hd Hm.
  generalize (match subprogs node with
              | Some s => visit_SubprogramDeclarations s
              | None => ret tt
              end).
  generalize (match decls node with
              | Some d => visit_Declarations d
              | None => ret tt
              end).
  generalize (match mainCompoundStmt node with
              | Some b => visit_CompoundStatementNode b
              | None => ret tt
              end).
  intros main declarations subprograms Hs Hd Hm.
  rewrite (bind_Steps_Done _ _ _ _ Hs). split.
  - intros (cs & gs & Hcs & E). do 2 apply Steps_set_code in Hcs.
    rewrite bind_emitLabel in E.
    apply (bind_Steps_Done _ _ _ _ Hd) in E as (cd & gd & Hcd & E).
    apply Steps_set_code in Hcd.
    apply (bind_Steps_Done _ _ _ _ Hm) in E as (cm & gm & Hcm & E).
    apply Steps_set_code in Hcm.
    rewrite run_emit in E. injection E as <-.
    exists cs, cd, cm, gs, gd.
    split; [done|]. split; [done|]. split; [by apply Steps_set_code_r|].
    by tidy.
  - intros (cs & cd & cm & gs & gd & Hcs & Hcd & Hcm & Hcode).
    exists cs, gs. split; [by do 2 apply Steps_set_code|].
    rewrite bind_emitLabel. tidy.
    rewrite (bind_Steps_run _ _ _ _ _ _ Hcd), (bind_Steps_run _ _ _ _ _ _ Hcm).
    rewrite run_emit. tidy.
    f_equal. rewrite <- (set_code_code g') at 2. f_equal.
    rewrite Hcode. by tidy.
Qed.

Lemma string_app_assoc (a b c : string) : (a +:+ b) +:+ c = a +:+ (b +:+ c).
Proof.
  induction a as [|x a IH]; [done|].
  change (String x ((a +:+ b) +:+ c) = String x (a +:+ (b +:+ c))).
  by rewrite IH.
Qed.

Lemma render_app c1 c2 : render (c1 ++ c2) = render c1 +:+ render c2.
Proof.
  induction c1 as [|l c1 IH]; [done|].
  change (render_line l +:+ render (c1 ++ c2)
          = (render_line l +:+ render c1) +:+ render c2).
  by rewrite IH, string_app_assoc.
Qed.

(** X9.  [generateCode] never clears the stream and never resets the label
    counter.  Called on a generator that already holds code, it returns
    the text of that code followed by the text of the new program; the
    new program is generated with the analyzer's table and from the label
    counter the generator had. *)
Theorem generateCode_appends ast table this text g' :
  generateCode ast table this = Done text g' ↔
  ∃ c,
    Steps (visit_ProgramNode ast) (set_symbolTable table this) c g'
    ∧ code g' = code this ++ c
    ∧ text = render (code this) +:+ render c.
Proof.
  unfold generateCode. rewrite bind_modify, bind_Done. split.
  - intros ([] & g1 & E & Et).
    destruct (Steps_intro _ _ _ (parametric_visit_ProgramNode ast) E)
      as (c & Hc & Hs).
    unfold get in Et. injection Et as <- <-.
    exists c. rewrite Hc. destruct this. simpl in *.
    repeat split; [done|]. apply render_app.
  - intros (c & Hs & Hc & ->). exists tt, g'. split.
    + rewrite (Steps_run _ _ _ _ Hs). f_equal.
      rewrite <- (set_code_code g') at 2. f_equal.
      rewrite Hc. by destruct this.
    + unfold get. by rewrite Hc, render_app.
Qed.

(** ** Errors inside a subprogram *)

(** X10.  A subprogram declaration that fails leaves the generator as the
    failure found it.  With no entry under the rebuilt key it throws with
    the function context already set to the failing head; when the
    parameters, the local declarations or the body throw, the error leaves
    with the generator of that moment, so the scope entered for the
    subprogram is not left and neither context is restored.  A declaration
    without a head dereferences a null pointer. *)
Theorem subprogram_error_state h locals body g :
  let node := mkSubprogramDeclaration (Some h) locals body in
  (lookupSymbol (mangledKey h) (symbolTable g) = None →
   visit_SubprogramDeclaration node g
   = Thrown ("CodeGen: Could not find symbol table entry for subprogram: "
               +:+ ident_name (head_name_of h))
       (set_currentFunctionContext (Some h) g))
  ∧ (∀ entry w gb,
       lookupSymbol (mangledKey h) (symbolTable g) = Some entry →
       interior node h
         (set_code (code g ++ [InsArg "jump" (getMangledName entry +:+ "_end");
                               Label (getMangledName entry)])
            (entered h entry g)) = Thrown w gb →
       visit_SubprogramDeclaration node g = Thrown w gb)
  ∧ visit_SubprogramDeclaration (mkSubprogramDeclaration None locals body) g
    = Undefined.
Proof.
  intros node. split; [|split].
  - intros Hl. unfold node. by rewrite visit_SubprogramDeclaration_unfold, Hl.
  - intros entry w gb Hl E. unfold node at 1.
    rewrite visit_SubprogramDeclaration_unfold, Hl, bind_assoc3.
    change (match head_arguments_of h with
            | Some args => visit_ArgumentsNode args
            | None => ret tt
            end >>
            match locals with
            | Some d => visit_Declarations d
            | None => ret tt
            end >>
            match body with
            | Some b => visit_CompoundStatementNode b
            | None => ret tt
            end) with (interior node h).
    unfold bind at 1. rewrite <- app_assoc. simpl app. by rewrite E.
  - by destruct g.
Qed.

(** ** Declarations of scalar variables *)

Ltac int_lia := unfold in_int, int_min, int_max in *; lia.

Lemma identifiers_cons d (l : list VarDecl) :
  sum_list ((λ d, length (vd_identifiers d)) <$> d :: l)
  = (length (vd_identifiers d)
     + sum_list ((λ d, length (vd_identifiers d)) <$> l))%nat.
Proof. done. Qed.

Lemma count_scalars {A} (t : EntryTypeCategory) (ids : list A) start :
  t ≠ ARRAY → 0 ≤ start → start + Z.of_nat (length ids) ≤ int_max →
  fold_left (λ varCount _, if decide (t = ARRAY) then varCount
                           else int_add varCount 1) ids start
  = start + Z.of_nat (length ids).
Proof.
  intros Ht. destruct (decide (t = ARRAY)); [done|].
  revert start. induction ids as [|i ids IH]; intros start H0 Hmax; simpl.
  - lia.
  - simpl length in Hmax. rewrite IH.
    + unfold int_add. rewrite wrap_exact; [lia|].
      unfold in_int, int_min, int_max in *. lia.
    + unfold int_add. rewrite wrap_exact; [lia|].
      unfold in_int, int_min, int_max in *. lia.
    + unfold int_add. rewrite wrap_exact; [lia|].
      unfold in_int, int_min, int_max in *. lia.
Qed.

Lemma scalar_type_not_array t ad :
  is_ArrayTypeNode t = false → fst (astToSymbolType t ad) ≠ ARRAY.
Proof. destruct t as [[[]|]|]; simpl; done. Qed.

Lemma when_reserve (k : nat) g :
  when (bool_decide (Z.of_nat k > 0)) (emit_arg "pushn" (to_string (Z.of_nat k))) g
  = Done tt (set_code (code g ++ reserve k) g).
Proof.
  unfold reserve. destruct k as [|k].
  - simpl. by rewrite app_nil_r, set_code_code.
  - rewrite !bool_decide_eq_true_2 by lia. done.
Qed.

Lemma scalar_VarDecl d g :
  is_ArrayTypeNode (vd_type d) = false →
  Z.of_nat (length (vd_identifiers d)) ≤ int_max →
  visit_VarDecl d g
  = Done tt (set_code
               (code g ++ if isGlobalScope (symbolTable g) then []
                          else reserve (length (vd_identifiers d))) g).
Proof.
  intros Hd Hmax. unfold visit_VarDecl, atGlobalScope. rewrite bind_get.
  assert (Hrest : ∀ g0,
    match vd_type d with
    | Some (ArrayTypeNode _ startIndex endIndex) =>
        match startIndex, endIndex with
        | Some low, Some high =>
            let size := int_add (int_sub high low) 1 in
            if bool_decide (size <= 0) then throw "Array size must be positive."
            else
              for_each (λ ident,
                          let* entry := lookup (ident_name ident) in
                          match entry with
                          | None =>
                              throw ("CodeGen: Symbol not found during array allocation: "
                                       +:+ ident_name ident)
                          | Some entry =>
                              emit_arg "alloc" (to_string size) >>
                              let* global := get (λ g, isGlobalScope (symbolTable g)) in
                              if global : bool
                              then emit_arg "storeg" (to_string (offset entry))
                              else emit_arg "storel" (to_string (offset entry))
                          end)
                       (vd_identifiers d)
        | _, _ => undefined
        end
    | _ => ret tt
    end g0 = Done tt g0).
  { intros g0. by destruct (vd_type d) as [[c|e lo hi]|]. }
  destruct (isGlobalScope (symbolTable g)).
  - simpl negb. cbn [when]. rewrite bind_ret, Hrest.
    by rewrite app_nil_r, set_code_code.
  - simpl negb. cbn [when].
    rewrite (count_scalars _ _ 0 (scalar_type_not_array _ _ Hd)) by int_lia.
    rewrite Z.add_0_l. unfold bind at 1. by rewrite when_reserve, Hrest.
Qed.

Lemma scalar_VarDecls l g :
  Forall (λ d, is_ArrayTypeNode (vd_type d) = false) l →
  Z.of_nat (sum_list ((λ d, length (vd_identifiers d)) <$> l)) ≤ int_max →
  for_each visit_VarDecl l g
  = Done tt (set_code
               (code g ++ if isGlobalScope (symbolTable g) then []
                          else concat ((λ d, reserve (length (vd_identifiers d)))
                                         <$> l)) g).
Proof.
  intros Hl. revert g. induction Hl as [|d l Hd _ IH]; intros g Hmax.
  - simpl. destruct (isGlobalScope _); by rewrite app_nil_r, set_code_code.
  - rewrite identifiers_cons in Hmax. simpl for_each. unfold bind at 1.
    rewrite scalar_VarDecl by (done || int_lia). rewrite IH by int_lia.
    rewrite symbolTable_set_code, code_set_code, set_code_set_code.
    destruct (isGlobalScope _); simpl; by rewrite <- ?app_assoc, ?app_nil_r.
Qed.

Lemma count_globals l start :
  Forall (λ d, is_ArrayTypeNode (vd_type d) = false) l →
  0 ≤ start →
  start + Z.of_nat (sum_list ((λ d, length (vd_identifiers d)) <$> l)) ≤ int_max →
  fold_left (λ varCount decl,
               if is_ArrayTypeNode (vd_type decl) then varCount
               else wrap (varCount + length_int (vd_identifiers decl))) l start
  = start + Z.of_nat (sum_list ((λ d, length (vd_identifiers d)) <$> l)).
Proof.
  intros Hl. revert start. induction Hl as [|d l Hd _ IH]; intros start H0 Hmax.
  - simpl. lia.
  - rewrite identifiers_cons in *. cbn [fold_left]. rewrite Hd. unfold length_int.
    rewrite wrap_exact by int_lia.
    rewrite IH by int_lia. lia.
Qed.

(** X11.  Declarations of scalar variables only reserve cells.  At global
    scope the whole list is reserved by one [pushn] of the total number of
    identifiers; inside a subprogram every declaration group is reserved
    by a [pushn] of its own; nothing is emitted for a count of zero.  (The
    total is taken below the largest [int].) *)
Theorem scalar_declarations l g :
  Forall (λ d, is_ArrayTypeNode (vd_type d) = false) l →
  Z.of_nat (sum_list ((λ d, length (vd_identifiers d)) <$> l)) ≤ int_max →
  visit_Declarations l g
  = Done tt
      (set_code
         (code g ++ if isGlobalScope (symbolTable g)
                    then reserve (sum_list ((λ d, length (vd_identifiers d)) <$> l))
                    else concat ((λ d, reserve (length (vd_identifiers d))) <$> l))
         g).
Proof.
  intros Hl Hmax. unfold visit_Declarations, atGlobalScope. rewrite bind_get.
  destruct (isGlobalScope (symbolTable g)) eqn:Hg; cbn [when].
  - rewrite (count_globals l 0 Hl) by int_lia. rewrite Z.add_0_l.
    unfold bind at 1. rewrite when_reserve, scalar_VarDecls by done.
    rewrite symbolTable_set_code, Hg. by tidy.
  - rewrite bind_ret, scalar_VarDecls by done. by rewrite Hg.
Qed.

(** ** Reading and writing a variable *)

Lemma scalar_store d i sc off e entry g g' :
  lookupSymbol (ident_name i) (symbolTable g) = Some entry →
  visit_StatementNode (AssignStatementNode (VariableNode d i None sc off) e) g
    = Done tt g' →
  ∃ c, code g' = code g ++ c ++ [slot_store entry sc].
Proof.
  intros Hl. simpl. intros E.
  apply bind_visit_ExprNode_Done in E as (c & Hc & E).
  destruct (bool_decide (d = PRIMITIVE_REAL)
            && bool_decide (determinedType e = PRIMITIVE_INTEGER)); simpl in E.
  - rewrite bind_emit, bind_lookup, !symbolTable_set_code, Hl, run_store_slot in E.
    injection E as <-. exists (c ++ [Ins "itof"]). by tidy.
  - rewrite bind_ret, bind_lookup, !symbolTable_set_code, Hl, run_store_slot in E.
    injection E as <-. exists c. by tidy.
Qed.

(** X12.  An assignment to a variable writes the cell that a read of the
    variable reads.  For a name the table resolves, a non-indexed
    reference, an identifier expression that is not a function and the
    store that ends an assignment all address the same frame and the same
    cell: [l] and [-(offset + 1)] for a parameter, otherwise the entry's
    offset in the frame the node's scope selects.  The offset the node
    carries is never used. *)
Theorem scalar_round_trip i sc entry g :
  lookupSymbol (ident_name i) (symbolTable g) = Some entry →
  let frame := if decide (kind entry = PARAMETER) then "l"
               else if decide (sc = LOCAL) then "l" else "g" in
  let cell := if decide (kind entry = PARAMETER)
              then to_string (int_neg (int_add (offset entry) 1))
              else to_string (offset entry) in
  (∀ d off,
     visit_ExprNode (VariableNode d i None sc off) g
     = Done tt (set_code (code g ++ [InsArg ("push" +:+ frame) cell]) g))
  ∧ (∀ d k, k ≠ FUNCTION →
       visit_ExprNode (IdExprNode d i k sc) g
       = Done tt (set_code (code g ++ [InsArg ("push" +:+ frame) cell]) g))
  ∧ (∀ d off e g',
       visit_StatementNode
         (AssignStatementNode (VariableNode d i None sc off) e) g = Done tt g' →
       ∃ c, code g' = code g ++ c ++ [InsArg ("store" +:+ frame) cell]).
Proof.
  intros Hl frame cell. subst frame cell. split; [|split].
  - intros d off. simpl. rewrite bind_lookup, Hl.
    unfold push_slot.
    by destruct (decide (kind entry = PARAMETER)), (decide (sc = LOCAL)).
  - intros d k Hk. simpl. destruct (decide (k = FUNCTION)); [done|].
    rewrite bind_lookup, Hl.
    by destruct (decide (kind entry = PARAMETER)), (decide (sc = LOCAL)).
  - intros d off e g' E.
    destruct (scalar_store _ _ _ _ _ _ _ _ Hl E) as (c & ->).
    exists c. unfold slot_store.
    by destruct (decide (kind entry = PARAMETER)), (decide (sc = LOCAL)).
Qed.

(** ** Input and output *)

Lemma write_argument_Done arg g g' :
  write_argument arg g = Done tt g' ↔
  ∃ c, Emits (visit_ExprNode arg) g c
       ∧ g' = set_code (code g ++ c ++ write_instruction arg) g.
Proof.
  unfold write_argument. rewrite bind_visit_ExprNode_Done.
  assert (Hw : ∀ g0,
    (if is_StringLiteralNode arg then emit "writes"
     else if bool_decide (determinedType arg = PRIMITIVE_INTEGER)
             || bool_decide (determinedType arg = PRIMITIVE_BOOLEAN)
          then emit "writei"
     else if bool_decide (determinedType arg = PRIMITIVE_REAL) then emit "writef"
     else ret tt) g0
    = Done tt (set_code (code g0 ++ write_instruction arg) g0)).
  { intros g0. unfold write_instruction.
    destruct (is_StringLiteralNode arg); [done|].
    destruct (_ || _); [done|].
    destruct (bool_decide _); [done|].
    by rewrite run_ret, app_nil_r, set_code_code. }
  split.
  - intros (c & Hc & E). rewrite Hw in E. injection E as <-.
    exists c. split; [done|]. by tidy.
  - intros (c & Hc & ->). exists c. split; [done|]. rewrite Hw. by tidy.
Qed.

Lemma for_each_write_argument_Done l g g' :
  for_each write_argument l g = Done tt g' ↔
  ∃ cs, Forall2 (λ e c, Emits (visit_ExprNode e) g c) l cs
        ∧ g' = set_code
                 (code g ++ concat (zip_with (λ e c, c ++ write_instruction e) l cs))
                 g.
Proof.
  revert g g'. induction l as [|e l IH]; intros g g'; simpl.
  - split.
    + intros [= <-]. exists []. split; [constructor|].
      simpl. by rewrite app_nil_r, set_code_code.
    + intros (cs & Hcs & ->). inversion Hcs; subst.
      simpl. by rewrite app_nil_r, set_code_code.
  - rewrite bind_Done. split.
    + intros ([] & g1 & E1 & E).
      apply write_argument_Done in E1 as (c & Hc & ->).
      apply IH in E as (cs & Hcs & ->).
      exists (c :: cs). split.
      * constructor; [done|].
        eapply Forall2_impl; [exact Hcs|]. intros x y Hxy.
        by apply Emits_set_code in Hxy.
      * by tidy.
    + intros (cs & Hcs & ->). inversion Hcs as [|? c ? cs' Hc Hcs']; subst.
      exists tt, (set_code (code g ++ c ++ write_instruction e) g). split.
      * apply write_argument_Done. eauto.
      * apply IH. exists cs'. split.
        -- eapply Forall2_impl; [exact Hcs'|]. intros x y Hxy.
           by apply Emits_set_code.
        -- by tidy.
Qed.

(** X13.  [write] and [writeln] are lowered without a call: each argument
    is followed by [writes] for a string literal, [writei] for an integer
    or a boolean, [writef] for a real and by nothing for any other
    category, and [writeln] ends with a pushed newline and [writes].
    [read] and [readln] emit nothing at all, whatever their arguments.
    The resolved entry is not consulted for either. *)
Theorem write_lowering p args r g g' :
  (ident_name p = "write" ∨ ident_name p = "writeln" →
   visit_StatementNode (ProcedureCallStatementNode p args r) g = Done tt g' ↔
   ∃ cs,
     Forall2 (λ e c, Emits (visit_ExprNode e) g c) (default [] args) cs
     ∧ g' = set_code
              (code g
                 ++ concat (zip_with (λ e c, c ++ write_instruction e)
                              (default [] args) cs)
                 ++ (if decide (ident_name p = "writeln")
                     then [InsArg "pushs" (quote +:+ newline +:+ quote);
                           Ins "writes"]
                     else [])) g)
  ∧ (ident_name p = "read" ∨ ident_name p = "readln" →
     visit_StatementNode (ProcedureCallStatementNode p args r) g = Done tt g).
Proof.
  split.
  - intros Hp. simpl. unfold visit_ProcedureCallStatementNode.
    assert (Hname : bool_decide (ident_name p = "write")
                    || bool_decide (ident_name p = "writeln") = true).
    { destruct Hp as [-> | ->]; reflexivity. }
    rewrite Hname.
    assert (Hargs : ∀ g1,
      match args with
      | Some exprs => for_each write_argument exprs
      | None => ret tt
      end g = Done tt g1 ↔
      ∃ cs, Forall2 (λ e c, Emits (visit_ExprNode e) g c) (default [] args) cs
            ∧ g1 = set_code
                     (code g ++ concat (zip_with (λ e c, c ++ write_instruction e)
                                          (default [] args) cs)) g).
    { intros g1. destruct args as [l|]; [apply for_each_write_argument_Done|].
      simpl. split.
      - intros [= <-]. exists []. split; [constructor|].
        simpl. by rewrite app_nil_r, set_code_code.
      - intros (cs & Hcs & ->). inversion Hcs; subst.
        simpl. by rewrite app_nil_r, set_code_code. }
    assert (Hend : ∀ g0,
      when (bool_decide (ident_name p = "writeln"))
           (emit_arg "pushs" (quote +:+ newline +:+ quote) >> emit "writes") g0
      = Done tt
          (set_code
             (code g0 ++ (if decide (ident_name p = "writeln")
                          then [InsArg "pushs" (quote +:+ newline +:+ quote);
                                Ins "writes"]
                          else [])) g0)).
    { intros g0. destruct (decide (ident_name p = "writeln")) as [E|E].
      - rewrite bool_decide_eq_true_2 by done. cbn [when].
        rewrite bind_emit_arg, run_emit. by tidy.
      - rewrite bool_decide_eq_false_2 by done. cbn [when].
        by rewrite run_ret, app_nil_r, set_code_code. }
    rewrite bind_Done. split.
    + intros ([] & g1 & E1 & E). apply Hargs in E1 as (cs & Hcs & ->).
      rewrite Hend in E. injection E as <-. exists cs. split; [done|]. by tidy.
    + intros (cs & Hcs & ->). eexists tt, _. split.
      * apply Hargs. eauto.
      * rewrite Hend. by tidy.
  - intros Hp. simpl. unfold visit_ProcedureCallStatementNode.
    destruct Hp as [-> | ->]; reflexivity.
Qed.

(** ** Numbering the parameters *)

Lemma null_parameter_group l g :
  flat_parameters l = None → visit_ParameterList l g = Undefined.
Proof.
  unfold visit_ParameterList. revert g.
  induction l as [|[[[ids|] t]|] l IH]; intros g Hl; simpl in Hl.
  - done.
  - destruct (flat_parameters l) as [qs|] eqn:E; [done|].
    simpl. unfold bind. rewrite parameter_group. by apply IH.
  - simpl. unfold bind, visit_ParameterDeclaration. cbn [pd_type pd_ids].
    by destruct (astToSymbolType t ArrayDetails_default).
  - done.
Qed.

Lemma length_number_parameters start ps :
  length (number_parameters start ps) = length ps.
Proof.
  revert start. induction ps as [|[t i] ps IH]; intros start; simpl; [done|].
  by rewrite IH.
Qed.

(** X14.  The parameters of a subprogram are added to the table one by
    one in declaration order, group after group, and the parameter counter
    advances by one for each.  While the counter stays within [int], the
    [k]-th parameter of the list gets a parameter entry with its own name
    and offset [counter + k], so 0, 1, 2, ... from the reset counter of a
    subprogram.  A null group or a group with a null identifier list is a
    null dereference, and nothing else makes the list fail. *)
Theorem parameter_offsets l g :
  (visit_ParameterList l g = Undefined ↔ flat_parameters l = None)
  ∧ ∀ ps, flat_parameters l = Some ps →
      let entries := number_parameters (param_offset g) ps in
      visit_ParameterList l g
      = Done tt
          (set_param_offset
             (Nat.iter (length ps) (λ z, int_add z 1) (param_offset g))
             (set_symbolTable
                (fold_left (λ table entry, addSymbol entry table) entries
                   (symbolTable g)) g))
      ∧ length entries = length ps
      ∧ ∀ k t i,
          ps !! k = Some (t, i) →
          in_int (param_offset g) → in_int (param_offset g + Z.of_nat k) →
          ∃ e, entries !! k = Some e
               ∧ name e = ident_name i ∧ kind e = PARAMETER
               ∧ offset e = param_offset g + Z.of_nat k.
Proof.
  split.
  - split; [|apply null_parameter_group].
    intros E. destruct (flat_parameters l) as [ps|] eqn:Hps; [|done].
    by rewrite (parameter_list l ps g Hps) in E.
  - intros ps Hps entries. split; [by apply parameter_list|].
    split; [apply length_number_parameters|].
    intros k t i Hk Hs Hsk. by apply (number_parameters_lookup _ _ _ t).
Qed.

(** ** The key of a subprogram *)

Lemma string_app_nil_r (a : string) : a +:+ EmptyString = a.
Proof.
  induction a as [|x a IH]; [done|].
  change (String x (a +:+ EmptyString) = String x a). by rewrite IH.
Qed.

Lemma type_codes_app a b : type_codes (a ++ b) = type_codes a +:+ type_codes b.
Proof.
  induction a as [|t a IH]; [done|].
  change (("_" +:+ typeCode t) +:+ type_codes (a ++ b)
          = (("_" +:+ typeCode t) +:+ type_codes a) +:+ type_codes b).
  by rewrite IH, !string_app_assoc.
Qed.

Lemma group_codes {A} (ids : list A) t key :
  fold_left (λ key _, key +:+ "_" +:+ typeCode t) ids key
  = key +:+ type_codes (replicate (length ids) t).
Proof.
  revert key. induction ids as [|i ids IH]; intros key.
  - symmetry. apply string_app_nil_r.
  - cbn [fold_left length replicate]. rewrite IH.
    change (type_codes (t :: replicate (length ids) t))
      with (("_" +:+ typeCode t) +:+ type_codes (replicate (length ids) t)).
    by rewrite !string_app_assoc.
Qed.

Lemma list_codes (l : ParameterList) key :
  fold_left
    (λ key param_decl_group,
       match param_decl_group with
       | Some (mkParameterDeclaration (Some identifiers) (Some t)) =>
           let type := fst (astToSymbolType (Some t) ArrayDetails_default) in
           fold_left (λ key _, key +:+ "_" +:+ typeCode type) identifiers key
       | _ => key
       end) l key
  = key +:+ type_codes
              (l ≫= λ group,
                 match group with
                 | Some (mkParameterDeclaration (Some identifiers) (Some t)) =>
                     replicate (length identifiers)
                       (fst (astToSymbolType (Some t) ArrayDetails_default))
                 | _ => []
                 end).
Proof.
  revert key. induction l as [|group l IH]; intros key.
  - symmetry. apply string_app_nil_r.
  - cbn [fold_left]. rewrite IH, bind_cons, type_codes_app.
    destruct group as [[[ids|] [t|]]|]; cbn zeta;
      rewrite ?group_codes, ?string_app_nil_r, ?string_app_assoc; done.
Qed.

(** X15.  The key under which a subprogram is looked up is [f_] or [p_],
    the name, and one [_] and type letter per parameter identifier of each
    group that has both identifiers and a type.  The key does not tell the
    name from the letters: a subprogram without parameters whose name ends
    in the letters of another one's parameters is looked up under the same
    key as that other one.  A bare reference to a function calls the key
    of the function of that name without parameters, reserving the result
    cell and popping nothing. *)
Theorem mangledKey_shape h :
  mangledKey h
  = head_prefix h +:+ ident_name (head_name_of h) +:+ type_codes (signature h)
  ∧ (∀ l c,
       let longer := mkIdent (ident_name (head_name_of h)
                                +:+ type_codes (signature h)) l c in
       mangledKey (match h with
                   | FunctionHeadNode _ _ => FunctionHeadNode longer None
                   | ProcedureHeadNode _ _ => ProcedureHeadNode longer None
                   end) = mangledKey h)
  ∧ (∀ d i sc g,
       visit_ExprNode (IdExprNode d i FUNCTION sc) g
       = Done tt
           (set_code
              (code g ++ [InsArg "pushn" "1";
                          InsArg "pusha" (mangledKey (FunctionHeadNode i None));
                          Ins "call"]) g)).
Proof.
  assert (Hshape : ∀ h,
    mangledKey h
    = head_prefix h +:+ ident_name (head_name_of h) +:+ type_codes (signature h)).
  { intros h'. unfold mangledKey, signature.
    destruct (head_arguments_of h') as [[[l|]]|].
    - rewrite list_codes. destruct h'; simpl head_name_of; simpl head_prefix;
        by rewrite string_app_assoc.
    - destruct h'; simpl head_name_of; simpl head_prefix;
        by rewrite string_app_nil_r.
    - destruct h'; simpl head_name_of; simpl head_prefix;
        by rewrite string_app_nil_r. }
  split; [apply Hshape|]. split.
  - intros l c longer. rewrite (Hshape h).
    destruct h; rewrite Hshape; simpl head_name_of; simpl head_prefix;
      unfold signature; simpl head_arguments_of; simpl type_codes;
      by rewrite string_app_nil_r.
  - intros d i sc g. simpl. rewrite bind_emit_arg, bind_emit_arg, run_emit. by tidy.
Qed.

(** ** Names the table does not resolve *)

(** X16.  A name the table does not resolve ends the visit with an error
    that names it.  A reference, indexed or not, an identifier expression
    that is not a function and an indexed assignment throw before anything
    is emitted.  A non-indexed assignment looks the name up only after the
    right-hand side: its error leaves the code of the expression, and the
    conversion that follows it, in the stream. *)
Theorem unresolved_name i g :
  lookupSymbol (ident_name i) (symbolTable g) = None →
  (∀ d idx sc off,
     visit_ExprNode (VariableNode d i idx sc off) g
     = Thrown ("CodeGen: Symbol not found: " +:+ ident_name i) g)
  ∧ (∀ d k sc, k ≠ FUNCTION →
       visit_ExprNode (IdExprNode d i k sc) g
       = Thrown ("CodeGen: Symbol not found for identifier: " +:+ ident_name i) g)
  ∧ (∀ d idx sc off e,
       visit_StatementNode
         (AssignStatementNode (VariableNode d i (Some idx) sc off) e) g
       = Thrown ("CodeGen: Array symbol not found: " +:+ ident_name i) g)
  ∧ (∀ d sc off e c,
       Emits (visit_ExprNode e) g c →
       visit_StatementNode (AssignStatementNode (VariableNode d i None sc off) e) g
       = Thrown ("CodeGen: Symbol not found in assignment: " +:+ ident_name i)
           (set_code
              (code g ++ c
                 ++ (if bool_decide (d = PRIMITIVE_REAL)
                        && bool_decide (determinedType e = PRIMITIVE_INTEGER)
                     then [Ins "itof"] else [])) g)).
Proof.
  intros Hl. split; [|split; [|split]].
  - intros d idx sc off. simpl. by rewrite bind_lookup, Hl.
  - intros d k sc Hk. simpl. destruct (decide (k = FUNCTION)); [done|].
    by rewrite bind_lookup, Hl.
  - intros d idx sc off e. simpl. by rewrite bind_lookup, Hl.
  - intros d sc off e c Hc. simpl. unfold bind at 1.
    rewrite (Emits_run _ _ _ Hc).
    destruct (bool_decide (d = PRIMITIVE_REAL)
              && bool_decide (determinedType e = PRIMITIVE_INTEGER)); cbn [when].
    + rewrite bind_emit, bind_lookup, !symbolTable_set_code, Hl.
      unfold throw. by tidy.
    + rewrite bind_ret, bind_lookup, !symbolTable_set_code, Hl.
      unfold throw. by tidy.
Qed.

(** ** Compound statements *)

Lemma for_each_app {A} (f : A → Gen unit) l1 l2 g :
  for_each f (l1 ++ l2) g = (for_each f l1 >> for_each f l2) g.
Proof.
  revert g. induction l1 as [|x l1 IH]; intros g; simpl; [done|].
  unfold bind. destruct (f x g) as [[] g1| |]; [|done..]. apply IH.
Qed.

(** X17.  Statement lists are flattened.  A compound statement nested in
    a statement list generates what its statements would generate in its
    place, and a null statement or a compound statement without a list
    generates nothing: the outcome is that of the list without it. *)
Theorem compound_flattening l1 l2 g :
  let block l := visit_StatementNode (CompoundStatementNode (Some l)) g in
  (∀ l, block (l1 ++ Some (CompoundStatementNode (Some l)) :: l2)
        = block (l1 ++ l ++ l2))
  ∧ block (l1 ++ Some (CompoundStatementNode None) :: l2) = block (l1 ++ l2)
  ∧ block (l1 ++ None :: l2) = block (l1 ++ l2).
Proof.
  intros block. subst block. cbn beta.
  assert (Hblock : ∀ l g0,
    visit_StatementNode (CompoundStatementNode (Some l)) g0
    = visit_StatementList l g0) by done.
  rewrite !Hblock. unfold visit_StatementList.
  split; [|split].
  - intros l. rewrite !Hblock. unfold visit_StatementList.
    rewrite (for_each_app _ l1 (l ++ l2)), for_each_app. unfold bind.
    destruct (for_each _ l1 g) as [[] g1| |]; [|done..].
    rewrite for_each_app. cbn [for_each]. unfold bind.
    rewrite Hblock. unfold visit_StatementList. done.
  - rewrite !for_each_app. unfold bind.
    by destruct (for_each _ l1 g) as [[] g1| |].
  - rewrite !for_each_app. unfold bind.
    by destruct (for_each _ l1 g) as [[] g1| |].
Qed.

(** ** Jumps of a whole program *)

Lemma resolved_straight {A} (m : Gen A) : straight m → resolved m.
Proof.
  intros Hm g a g' E. destruct (straight_Done _ _ _ _ Hm E) as (c & -> & _ & Hj).
  exists c. rewrite code_set_code, Hj. split; [done|].
  intros t Ht. by apply elem_of_nil in Ht.
Qed.

Lemma resolved_bind {A B} (m : Gen A) (k : A → Gen B) :
  resolved m → (∀ a, resolved (k a)) → resolved (bind m k).
Proof.
  intros Hm Hk g b g'' E. apply bind_Done in E as (a & g' & E1 & E2).
  apply Hm in E1 as (c1 & Hc1 & Hj1). apply Hk in E2 as (c2 & Hc2 & Hj2).
  exists (c1 ++ c2). rewrite Hc2, Hc1, app_assoc. split; [done|].
  rewrite jump_targets_app, labels_of_app. intros t Ht.
  apply elem_of_app in Ht as [Ht|Ht]; apply elem_of_app; auto.
Qed.

Lemma resolved_quiet {A} (m : Gen A) :
  (∀ g a g', m g = Done a g' → code g' = code g) → resolved m.
Proof.
  intros Hm g a g' E. exists []. rewrite app_nil_r. split; [by eapply Hm|].
  intros t Ht. by apply elem_of_nil in Ht.
Qed.

Lemma resolved_for_each {A} (f : A → Gen unit) l :
  Forall (λ x, resolved (f x)) l → resolved (for_each f l).
Proof.
  induction 1 as [|x l Hx _ IH]; simpl.
  - apply resolved_straight, straight_ret.
  - apply resolved_bind; auto.
Qed.

Lemma straight_undefined {A} : straight (undefined (A:=A)).
Proof. by intros g. Qed.

Lemma straight_atGlobalScope : straight atGlobalScope.
Proof. apply straight_get. Qed.

#[local] Hint Resolve straight_atGlobalScope : straight.

Lemma straight_visit_VarDecl d : straight (visit_VarDecl d).
Proof.
  unfold visit_VarDecl.
  apply straight_bind; [apply straight_atGlobalScope|intros global].
  apply straight_bind; [apply straight_when; cbv zeta; repeat straight_step|intros _].
  destruct (vd_type d) as [[c|elt [low|] [high|]]|];
    try apply straight_ret; try apply straight_undefined.
  cbv zeta. destruct (bool_decide _); [apply straight_throw|].
  apply straight_for_each, Forall_forall. intros ident _. repeat straight_step.
Qed.

Lemma straight_visit_Declarations l : straight (visit_Declarations l).
Proof.
  unfold visit_Declarations.
  apply straight_bind; [apply straight_atGlobalScope|intros global].
  apply straight_bind; [apply straight_when; cbv zeta; repeat straight_step|intros _].
  apply straight_for_each, Forall_forall. intros d _. apply straight_visit_VarDecl.
Qed.

Lemma quiet_visit_ArgumentsNode a g g' :
  visit_ArgumentsNode a g = Done tt g' → code g' = code g.
Proof.
  unfold visit_ArgumentsNode. destruct (params a) as [l|].
  - destruct (flat_parameters l) as [ps|] eqn:E.
    + rewrite (parameter_list l ps g E). intros [= <-]. by destruct g.
    + by rewrite null_parameter_group.
  - by intros [= <-].
Qed.

Lemma resolved_interior node h : resolved (interior node h).
Proof.
  unfold interior. apply resolved_bind; [|intros _; apply resolved_bind; [|intros _]].
  - apply resolved_quiet. intros g [] g'.
    destruct (head_arguments_of h) as [a|]; [apply quiet_visit_ArgumentsNode|].
    by intros [= <-].
  - destruct (local_declarations node) as [d|]; apply resolved_straight;
      [apply straight_visit_Declarations|apply straight_ret].
  - destruct (sub_body node) as [b|]; [|apply resolved_straight, straight_ret].
    exact (resolved_visit_StatementNode (CompoundStatementNode b)).
Qed.

Lemma resolved_visit_SubprogramDeclaration s :
  resolved (visit_SubprogramDeclaration s).
Proof.
  intros g [] g' E. destruct s as [[h|] locals body]; [|by destruct g].
  pose proof (visit_SubprogramDeclaration_unfold h locals body g) as Hu.
  cbv zeta in Hu. rewrite Hu in E. clear Hu.
  destruct (lookupSymbol (mangledKey h) (symbolTable g)) as [entry|]; [|done].
  rewrite bind_assoc3 in E.
  change (match head_arguments_of h with
          | Some args => visit_ArgumentsNode args
          | None => ret tt
          end >>
          match locals with
          | Some d => visit_Declarations d
          | None => ret tt
          end >>
          match body with
          | Some b => visit_CompoundStatementNode b
          | None => ret tt
          end)
    with (interior (mkSubprogramDeclaration (Some h) locals body) h) in E.
  apply (bind_Steps_Done _ _ _ _ (parametric_interior _ h)) in E
    as (c & gb & Hs & Ek).
  rewrite subprogram_finish in Ek. injection Ek as <-.
  pose proof (Steps_run _ _ _ _ Hs) as Hrun.
  apply resolved_interior in Hrun as (c' & Hc' & Hj).
  rewrite !code_set_code in Hc'. apply app_inv_head in Hc' as <-.
  exists ([InsArg "jump" (getMangledName entry +:+ "_end");
           Label (getMangledName entry)]
            ++ c ++ (if is_ProcedureHeadNode h then [Ins "return"] else [])
            ++ [Label (getMangledName entry +:+ "_end")]).
  split; [by tidy|].
  rewrite !jump_targets_app, !labels_of_app.
  destruct (is_ProcedureHeadNode h); simpl; rewrite ?app_nil_r;
    intros t Ht; rewrite elem_of_cons in Ht;
    rewrite elem_of_cons, elem_of_app, list_elem_of_singleton;
    destruct Ht as [->|Ht]; auto.
Qed.

(** X20.  A generated program has no dangling jump.  In the code a
    program appends, every [jz] and every [jump] (those of the statements,
    the jump over each subprogram and the jump to [main_entry]) goes to a
    label defined in that code. *)
Theorem program_jumps_resolved node g g' :
  visit_ProgramNode node g = Done tt g' →
  ∃ c, code g' = code g ++ c
       ∧ ∀ target, target ∈ jump_targets c → target ∈ labels_of c.
Proof.
  intros E. unfold visit_ProgramNode in E. rewrite bind_emit in E.
  apply bind_Done in E as ([] & g1 & Ej & E).
  apply bind_Done in E as ([] & g2 & Es & E).
  rewrite bind_emitLabel in E.
  apply bind_Done in E as ([] & g3 & Ed & E).
  apply bind_Done in E as ([] & g4 & Em & E).
  rewrite run_emit in E. injection E as <-.
  assert (Hs : resolved (match subprogs node with
                         | Some s => visit_SubprogramDeclarations s
                         | None => ret tt
                         end)).
  { destruct (subprogs node) as [l|]; [|apply resolved_straight, straight_ret].
    apply resolved_for_each, Forall_forall. intros [s|] _.
    - apply resolved_visit_SubprogramDeclaration.
    - apply resolved_straight, straight_ret. }
  apply Hs in Es as (cs & Hcs & Hjs).
  assert (Hd : resolved (match decls node with
                         | Some d => visit_Declarations d
                         | None => ret tt
                         end)).
  { destruct (decls node) as [d|]; apply resolved_straight;
      [apply straight_visit_Declarations|apply straight_ret]. }
  apply Hd in Ed as (cd & Hcd & Hjd).
  assert (Hm : resolved (match mainCompoundStmt node with
                         | Some b => visit_CompoundStatementNode b
                         | None => ret tt
                         end)).
  { destruct (mainCompoundStmt node) as [b|]; [|apply resolved_straight, straight_ret].
    exact (resolved_visit_StatementNode (CompoundStatementNode b)). }
  apply Hm in Em as (cm & Hcm & Hjm).
  rewrite code_set_code in Hcd.
  assert (Hj1 : ∃ cj, code g1 = code g ++ [Ins "start"] ++ cj
                      ∧ (cj = [] ∨ cj = [InsArg "jump" "main_entry"])).
  { destruct (subprogs node) as [[|? ?]|].
    - injection Ej as <-. exists []. rewrite code_set_code. auto.
    - rewrite run_emit_arg in Ej. injection Ej as <-.
      exists [InsArg "jump" "main_entry"]. rewrite !code_set_code, <- app_assoc. auto.
    - injection Ej as <-. exists []. rewrite code_set_code. auto. }
  destruct Hj1 as (cj & Hcj & Hj).
  exists ([Ins "start"] ++ cj ++ cs ++ [Label "main_entry"] ++ cd ++ cm ++ [Ins "stop"]).
  split.
  { rewrite code_set_code, Hcm, Hcd, Hcs, Hcj. by rewrite <- !app_assoc. }
  rewrite !jump_targets_app, !labels_of_app. intros t Ht.
  assert (Hin : t ∈ jump_targets cj ++ jump_targets cs ++ jump_targets cd
                    ++ jump_targets cm) by (simpl in Ht; by rewrite app_nil_r in Ht).
  clear Ht. rewrite !elem_of_app in Hin.
  assert (Hmain : t ∈ jump_targets cj → t = "main_entry").
  { destruct Hj as [-> | ->]; simpl; intros Hx.
    - by apply elem_of_nil in Hx.
    - by apply list_elem_of_singleton in Hx. }
  simpl. rewrite app_nil_r, !elem_of_app, elem_of_cons, elem_of_app.
  destruct Hin as [Hx|[Hx|[Hx|Hx]]].
  - right. right. left. by apply Hmain.
  - right. left. by apply Hjs.
  - right. right. right. left. by apply Hjd.
  - right. right. right. right. by apply Hjm.
Qed.

(** ** What a statement leaves alone *)

Lemma keeps_tables_straight {A} (m : Gen A) : straight m → keeps_tables m.
Proof.
  intros Hm g. specialize (Hm g).
  destruct (m g) as [a g'|w g'|]; [| |done];
    destruct Hm as (c & -> & _); by destruct g.
Qed.

Lemma keeps_tables_bind {A B} (m : Gen A) (k : A → Gen B) :
  keeps_tables m → (∀ a, keeps_tables (k a)) → keeps_tables (bind m k).
Proof.
  intros Hm Hk g. unfold bind. specialize (Hm g).
  destruct (m g) as [a g1|w g1|]; [|done..].
  specialize (Hk a g1). destruct (k a g1) as [b g2|w g2|]; [| |done];
    rewrite Hk, Hm; by destruct g.
Qed.

Lemma keeps_tables_newLabel p : keeps_tables (newLabel p).
Proof. intros g. by destruct g. Qed.

Lemma keeps_tables_emitLabel l : keeps_tables (emitLabel l).
Proof. intros g. by destruct g. Qed.

Lemma keeps_tables_emit_arg i a : keeps_tables (emit_arg i a).
Proof. intros g. by destruct g. Qed.

Lemma keeps_tables_ret {A} (a : A) : keeps_tables (ret a).
Proof. intros g. by destruct g. Qed.

Lemma keeps_tables_for_each {A} (f : A → Gen unit) l :
  Forall (λ x, keeps_tables (f x)) l → keeps_tables (for_each f l).
Proof.
  induction 1 as [|x l Hx _ IH]; simpl; [apply keeps_tables_ret|].
  apply keeps_tables_bind; auto.
Qed.

Lemma keeps_tables_visit_StatementNode s : keeps_tables (visit_StatementNode s).
Proof.
  induction s as [v e|c th e IHt IHe|c b IHb|p a r|v|stmts IH]
    using StatementNode_induction; simpl.
  - apply keeps_tables_straight, straight_visit_AssignStatementNode.
  - apply keeps_tables_bind; [apply keeps_tables_newLabel|intros elseLabel].
    apply keeps_tables_bind; [apply keeps_tables_newLabel|intros endIfLabel].
    apply keeps_tables_bind;
      [apply keeps_tables_straight, straight_visit_ExprNode|intros _].
    apply keeps_tables_bind; [apply keeps_tables_emit_arg|intros _].
    apply keeps_tables_bind; [apply IHt|intros _].
    apply keeps_tables_bind;
      [destruct e; [apply keeps_tables_emit_arg|apply keeps_tables_ret]|intros _].
    apply keeps_tables_bind; [apply keeps_tables_emitLabel|intros _].
    apply keeps_tables_bind; [|intros _; apply keeps_tables_emitLabel].
    destruct e as [s2|]; [by apply IHe|apply keeps_tables_ret].
  - apply keeps_tables_bind; [apply keeps_tables_newLabel|intros startLabel].
    apply keeps_tables_bind; [apply keeps_tables_newLabel|intros endLabel].
    apply keeps_tables_bind; [apply keeps_tables_emitLabel|intros _].
    apply keeps_tables_bind;
      [apply keeps_tables_straight, straight_visit_ExprNode|intros _].
    apply keeps_tables_bind; [apply keeps_tables_emit_arg|intros _].
    apply keeps_tables_bind; [apply IHb|intros _].
    apply keeps_tables_bind; [apply keeps_tables_emit_arg|intros _].
    apply keeps_tables_emitLabel.
  - apply keeps_tables_straight, straight_visit_ProcedureCallStatementNode.
  - apply keeps_tables_straight, straight_visit_ReturnStatementNode.
  - destruct stmts as [l|]; [|apply keeps_tables_ret].
    apply keeps_tables_for_each. specialize (IH l eq_refl).
    eapply Forall_impl; [exact IH|]. intros [s|] Hs; [by apply Hs|].
    apply keeps_tables_ret.
Qed.

(** X21.  Statements leave the tables alone.  Whether a statement returns
    or throws, the symbol table, both offset counters and both subprogram
    contexts are the ones it was started with: a statement changes nothing
    but the code and the label counter. *)
Theorem statements_keep_tables s g :
  match visit_StatementNode s g with
  | Done _ g' | Thrown _ g' =>
      symbolTable g' = symbolTable g
      ∧ local_offset g' = local_offset g
      ∧ param_offset g' = param_offset g
      ∧ currentFunctionContext g' = currentFunctionContext g
      ∧ currentSubprogramEntry g' = currentSubprogramEntry g
  | Undefined => True
  end.
Proof.
  pose proof (keeps_tables_visit_StatementNode s g) as Hs.
  destruct (visit_StatementNode s g) as [[] g'|w g'|]; [| |done];
    rewrite Hs; by destruct g.
Qed.

End Properties.

(** * The properties on concrete programs *)

Section Instances.
Local Existing Instance reference.



(** A return statement without a value, visited with no subprogram
    context, returns normally and emits [return]. *)
Lemma bare_return_emits :
  currentSubprogramEntry (fresh_generator globals) = None
  ∧ visit_StatementNode (ReturnStatementNode None) (fresh_generator globals)
    = Done tt (set_code [Ins "return"] (fresh_generator globals)).
Proof. split; reflexivity. Qed.

(** With no context a [return] with a value throws; a bare [return]
    emits [return] with no context and inside [f] alike. *)
Lemma return_without_context_witness :
  (∀ value,
     visit_StatementNode (ReturnStatementNode (Some value)) (fresh_generator globals)
     = Thrown "CodeGen: Return statement found with no subprogram context."
         (fresh_generator globals))
  ∧ visit_StatementNode (ReturnStatementNode None) (fresh_generator globals)
    = Done tt (set_code (code (fresh_generator globals) ++ [Ins "return"])
                 (fresh_generator globals))
  ∧ visit_StatementNode (ReturnStatementNode None) inside_f
    = Done tt (set_code (code inside_f ++ [Ins "return"]) inside_f).
Proof.
  split; [|split].
  - apply (proj1 (return_without_context (fresh_generator globals))). reflexivity.
  - apply (proj2 (return_without_context (fresh_generator globals))).
  - apply (proj2 (return_without_context inside_f)).
Defined.

(** [1 / 2] on two integer operands emits two coercions. *)
Lemma integer_division_coerces :
  determinedType (int_ 1) = PRIMITIVE_INTEGER
  ∧ determinedType (int_ 2) = PRIMITIVE_INTEGER
  ∧ visit_ExprNode one_half (fresh_generator globals)
    = Done tt (set_code [InsArg "pushi" "1"; Ins "itof"; InsArg "pushi" "2";
                         Ins "itof"; Ins "fdiv"] (fresh_generator globals)).
Proof. repeat split; reflexivity. Qed.

Lemma binary_coercions_witness :
  coercion (is_real_op "/" PRIMITIVE_INTEGER PRIMITIVE_INTEGER) (int_ 1) = [Ins "itof"]
  ∧ coercion (is_real_op "/" PRIMITIVE_INTEGER PRIMITIVE_INTEGER) (int_ 2) = [Ins "itof"]
  ∧ coercion (is_real_op "+" PRIMITIVE_INTEGER PRIMITIVE_REAL) (int_ 1) = [Ins "itof"]
  ∧ coercion (is_real_op "+" PRIMITIVE_INTEGER PRIMITIVE_REAL) (real_ "2.000000") = []
  ∧ coercion (is_real_op "+" PRIMITIVE_INTEGER PRIMITIVE_INTEGER) (int_ 1) = []
  ∧ coercion (is_real_op "+" PRIMITIVE_INTEGER PRIMITIVE_INTEGER) (int_ 2) = [].
Proof.
  pose proof (binary_coercions PRIMITIVE_REAL "/" (int_ 1) (int_ 2)
                (fresh_generator globals) (fresh_generator globals))
    as (_ & _ & _ & _ & _ & _ & Hdiv).
  pose proof (binary_coercions PRIMITIVE_REAL "+" (int_ 1) (real_ "2.000000")
                (fresh_generator globals) (fresh_generator globals))
    as (_ & _ & Hmixed & _).
  pose proof (binary_coercions PRIMITIVE_INTEGER "+" (int_ 1) (int_ 2)
                (fresh_generator globals) (fresh_generator globals))
    as (_ & _ & _ & _ & _ & Hint & _).
  destruct (Hdiv eq_refl eq_refl eq_refl) as [H1 H2].
  destruct (Hmixed eq_refl eq_refl eq_refl) as [H3 H4].
  destruct (Hint eq_refl eq_refl) as [H5 H6]; [discriminate|].
  repeat split; assumption.
Defined.

(** [v: array[1..5] of real] at global scope allocates five cells and
    stores the handle with [storeg]; [w: array[5..1] of real] throws. *)
Lemma array_declaration_witness :
  visit_VarDecl w_decl (fresh_generator globals)
  = Thrown "Array size must be positive." (fresh_generator globals)
  ∧ visit_VarDecl v_decl (fresh_generator globals)
    = Done tt (set_code [InsArg "alloc" "5"; InsArg "storeg" "1"]
                 (fresh_generator globals))
  ∧ int_add (int_sub 5 1) 1 = 5 - 1 + 1.
Proof.
  split; [|split].
  - apply (proj1 (array_declaration (fresh_generator globals)
                    (fresh_generator globals) (Some TYPE_REAL) 5 1 [id_ "w"])).
    vm_compute. discriminate.
  - apply (proj1 (proj2 (array_declaration (fresh_generator globals) _
                           (Some TYPE_REAL) 1 5 [id_ "v"]))).
    + reflexivity.
    + exists [v_entry]. split; [|reflexivity].
      constructor; [reflexivity|constructor].
  - apply (proj2 (proj2 (array_declaration (fresh_generator globals)
                           (fresh_generator globals) (Some TYPE_REAL) 1 5 [id_ "v"])));
      vm_compute; split; discriminate.
Defined.

(** [v[2] := 3] and [v[x] := 3] store the integer as it is; [r := 3] into
    a real variable converts it first. *)
Lemma indexed_assignment_witness :
  (∃ arrayEntry c,
     lookupSymbol "v" globals = Some arrayEntry
     ∧ Emits (visit_ExprNode (int_ 3)) (fresh_generator globals) c
     ∧ set_code [InsArg "pushg" "1"; InsArg "pushi" "3"; InsArg "store" "1"]
         (fresh_generator globals)
       = set_code ([] ++ [slot_push GLOBAL 1] ++ c
                      ++ [InsArg "store"
                            (to_string (int_sub 2 (lowBound (arrayDetails arrayEntry))))])
           (fresh_generator globals))
  ∧ (∃ entry c,
       lookupSymbol "x" globals = Some entry
       ∧ Emits (visit_ExprNode (int_ 3)) (fresh_generator globals) c
       ∧ set_code [InsArg "pushi" "3"; Ins "itof"; InsArg "storeg" "0"]
           (fresh_generator globals)
         = set_code ([] ++ c ++ [Ins "itof"; slot_store entry GLOBAL])
             (fresh_generator globals)).
Proof.
  split.
  - apply (proj1 (proj1 (indexed_assignment PRIMITIVE_REAL (id_ "v") (int_ 2)
                           GLOBAL 1 (int_ 3) (fresh_generator globals) _))).
    reflexivity.
  - apply (proj1 (proj2 (indexed_assignment PRIMITIVE_REAL (id_ "x") (int_ 2)
                           GLOBAL 0 (int_ 3) (fresh_generator globals) _) eq_refl)).
    reflexivity.
Defined.

(** [if x then x := 1 else x := 2] from counter 0: the else-branch's code
    stands between [L_ELSE_0] and [L_END_IF_1]. *)
Lemma if_lowering_witness :
  ∃ cc c1 c2 ga,
    Emits (visit_ExprNode x_ref) (set_labelCounter 2 (fresh_generator globals)) cc
    ∧ Steps (visit_StatementNode (x_becomes 1))
        (set_labelCounter 2 (fresh_generator globals)) c1 ga
    ∧ Steps (visit_StatementNode (x_becomes 2)) ga c2
        (set_labelCounter 2
           (set_code [InsArg "pushg" "0"; InsArg "jz" "L_ELSE_0";
                      InsArg "pushi" "1"; InsArg "storeg" "0";
                      InsArg "jump" "L_END_IF_1"; Label "L_ELSE_0";
                      InsArg "pushi" "2"; InsArg "storeg" "0";
                      Label "L_END_IF_1"] (fresh_generator globals)))
    ∧ [InsArg "pushg" "0"; InsArg "jz" "L_ELSE_0"; InsArg "pushi" "1";
       InsArg "storeg" "0"; InsArg "jump" "L_END_IF_1"; Label "L_ELSE_0";
       InsArg "pushi" "2"; InsArg "storeg" "0"; Label "L_END_IF_1"]
      = [] ++ cc ++ [InsArg "jz" "L_ELSE_0"] ++ c1
          ++ [InsArg "jump" "L_END_IF_1"; Label "L_ELSE_0"]
          ++ c2 ++ [Label "L_END_IF_1"].
Proof.
  apply (proj1 (proj1 (if_lowering x_ref (x_becomes 1) (fresh_generator globals)
                         (set_labelCounter 2
                            (set_code [InsArg "pushg" "0"; InsArg "jz" "L_ELSE_0";
                                       InsArg "pushi" "1"; InsArg "storeg" "0";
                                       InsArg "jump" "L_END_IF_1"; Label "L_ELSE_0";
                                       InsArg "pushi" "2"; InsArg "storeg" "0";
                                       Label "L_END_IF_1"]
                               (fresh_generator globals))))
                  (x_becomes 2))).
  reflexivity.
Defined.

(** [procedure p(x: integer); begin x := 1 end] holds no return statement
    and its block ends in [return; p_p_i_end:]. *)
Lemma procedure_return_witness :
  ∃ entry c gb,
    lookupSymbol (mangledKey p_head) globals = Some entry
    ∧ Steps (interior p_decl p_head)
        (entered p_head entry (fresh_generator globals)) c gb
    ∧ mkCodeGenerator
        [InsArg "jump" "p_p_i_end"; Label "p_p_i"; InsArg "pushi" "1";
         InsArg "storel" "-1"; Ins "return"; Label "p_p_i_end"]
        0 globals 0 1 None None
      = set_code
          ([] ++ [InsArg "jump" (getMangledName entry +:+ "_end");
                  Label (getMangledName entry)]
              ++ c ++ [Ins "return"; Label (getMangledName entry +:+ "_end")])
          (left_scope (fresh_generator globals) gb).
Proof.
  apply (proj1 (procedure_return (id_ "p") _ None _ (fresh_generator globals) _)).
  reflexivity.
Defined.

(** C3, where the code departs from it.  Inside
    [procedure q(a: array[1..5] of integer)] the read [a[2]] is lowered to
    the single line [pushl -1]: the handle of [a] is pushed and no [load]
    with offset [2 - 1] follows.  The same read of the global array [v]
    gives [pushg 1; load 1]. *)
Theorem array_parameter_read :
  lookupSymbol "a" inside_q = Some a_entry
  ∧ lowBound (arrayDetails a_entry) = 1
  ∧ visit_ExprNode a_2 (fresh_generator inside_q)
    = Done tt (set_code [InsArg "pushl" "-1"] (fresh_generator inside_q))
  ∧ visit_ExprNode
      (VariableNode PRIMITIVE_REAL (id_ "v") (Some (int_ 2)) GLOBAL 1)
      (fresh_generator inside_q)
    = Done tt (set_code [InsArg "pushg" "1"; InsArg "load" "1"]
                 (fresh_generator inside_q)).
Proof. repeat split; reflexivity. Qed.

(** C4, where the code departs from it.  A program that declares the
    functions [foo] and [foo_end] is generated without error, and the label
    [f_foo_end] is defined twice: as the end label of [foo] and as the entry
    label of [foo_end]. *)
Theorem end_label_collision :
  ∃ text g',
    generateCode foo_program foo_table (fresh_generator []) = Done text g'
    ∧ labels_of (code g')
      = ["f_foo"; "f_foo_end"; "f_foo_end"; "f_foo_end_end"; "main_entry"]
    ∧ ¬ NoDup (labels_of (code g')).
Proof.
  eexists _, _. split; [vm_compute; reflexivity|]. split; [reflexivity|].
  intros Hn. simpl in Hn. apply NoDup_cons in Hn as [_ Hn].
  apply NoDup_cons in Hn as [Hn _]. apply Hn. by left.
Qed.

(** C6, where the code departs from it.  Inside
    [procedure q(a: array[1..5] of integer)], with [a] the parameter at
    offset 0, the assignment [a[2] := 5] reads the slot of [a] with
    [pushl 0], the offset and scope the reference carries, and not with
    [pushl -1]. *)
Theorem array_parameter_store :
  lookupSymbol "a" inside_q = Some a_entry
  ∧ kind a_entry = PARAMETER ∧ offset a_entry = 0
  ∧ visit_StatementNode a_2_becomes_5 (fresh_generator inside_q)
    = Done tt (set_code [InsArg "pushl" "0"; InsArg "pushi" "5"; InsArg "store" "1"]
                 (fresh_generator inside_q)).
Proof. repeat split; reflexivity. Qed.

(** ** Instances of the further properties *)

(** [return 1] inside [f], which returns a real and has two parameters:
    the value is converted and stored at [-3]. *)
Lemma return_value_store_witness :
  ∃ c,
    Emits (visit_ExprNode (int_ 1)) inside_f c
    ∧ set_code [InsArg "pushi" "1"; Ins "itof"; InsArg "storel" "-3"; Ins "return"]
        inside_f
      = set_code
          (code inside_f ++ c
             ++ (if bool_decide (functionReturnType f_entry = PRIMITIVE_REAL)
                    && bool_decide (determinedType (int_ 1) = PRIMITIVE_INTEGER)
                 then [Ins "itof"] else [])
             ++ [InsArg "storel"
                   (to_string (int_neg (int_add (numParameters f_entry) 1)));
                 Ins "return"]) inside_f.
Proof.
  apply (proj1 (return_value_store (int_ 1) f_entry inside_f _ eq_refl)).
  reflexivity.
Defined.

(** [-x] and [not x] on the integer [x], and an operator that is neither. *)
Lemma unary_lowering_witness :
  visit_ExprNode (UnaryOpNode PRIMITIVE_INTEGER "+" x_ref) (fresh_generator globals)
  = visit_ExprNode x_ref (fresh_generator globals).
Proof.
  apply (proj2 (unary_lowering PRIMITIVE_INTEGER "+" x_ref (fresh_generator globals)
                  (fresh_generator globals))); discriminate.
Defined.

(** [1 MOD_OP 2] throws once both operands are in the stream. *)
Lemma binary_operator_support_witness :
  visit_ExprNode one_mod_two (fresh_generator globals)
  = Thrown "CodeGen: Unsupported binary op 'MOD_OP'"
      (set_code [InsArg "pushi" "1"; InsArg "pushi" "2"] (fresh_generator globals)).
Proof.
  apply (proj2 (binary_operator_support "MOD_OP") PRIMITIVE_INTEGER (int_ 1) (int_ 2)
           (fresh_generator globals) [InsArg "pushi" "1"] [InsArg "pushi" "2"]).
  - unfold binary_ops. rewrite !elem_of_cons, elem_of_nil.
    intros Hop. repeat destruct Hop as [Hop|Hop]; discriminate || done.
  - intros pre. reflexivity.
  - intros pre. reflexivity.
Defined.

(** The loop generated after [if_else]: its three jumps go to labels of
    its own. *)
Lemma statement_jumps_resolved_witness :
  ∃ c, code after_loop = code after_if_else ++ c
       ∧ ∀ target, target ∈ jump_targets c → target ∈ labels_of c.
Proof. apply (statement_jumps_resolved loop after_if_else after_loop). reflexivity. Defined.

(** [if_else] from counter 0 and the loop after it: six labels, all
    distinct. *)
Lemma labels_never_reused_witness :
  (labelCounter (fresh_generator globals) ≤ labelCounter after_if_else)%N
  ∧ (labelCounter after_if_else ≤ labelCounter after_loop)%N
  ∧ ∃ c1 c2,
      code after_if_else = code (fresh_generator globals) ++ c1
      ∧ code after_loop = code after_if_else ++ c2
      ∧ NoDup (labels_of c1 ++ labels_of c2).
Proof.
  apply (labels_never_reused if_else loop (fresh_generator globals) after_if_else
           after_if_else after_loop); [reflexivity|reflexivity|].
  simpl. lia.
Defined.

(** [x, y: integer; z: real]: one [pushn 3] at global scope, [pushn 2] and
    [pushn 1] inside a subprogram. *)
Lemma scalar_declarations_witness :
  visit_Declarations scalars (fresh_generator globals)
  = Done tt (set_code [InsArg "pushn" "3"] (fresh_generator globals))
  ∧ visit_Declarations scalars (fresh_generator inside_q)
    = Done tt (set_code [InsArg "pushn" "2"; InsArg "pushn" "1"]
                 (fresh_generator inside_q)).
Proof.
  split.
  - apply (scalar_declarations scalars (fresh_generator globals)).
    + repeat constructor.
    + vm_compute. discriminate.
  - apply (scalar_declarations scalars (fresh_generator inside_q)).
    + repeat constructor.
    + vm_compute. discriminate.
Defined.

(** The global [x] is read with [pushg 0] and written with [storeg 0],
    even by a reference that carries the offset 7. *)
Lemma scalar_round_trip_witness :
  visit_ExprNode (VariableNode PRIMITIVE_INTEGER (id_ "x") None GLOBAL 7)
    (fresh_generator globals)
  = Done tt (set_code [InsArg "pushg" "0"] (fresh_generator globals))
  ∧ ∃ c, [InsArg "pushi" "1"; InsArg "storeg" "0"]
         = [] ++ c ++ [InsArg "storeg" "0"].
Proof.
  destruct (scalar_round_trip (id_ "x") GLOBAL x_entry (fresh_generator globals)
              eq_refl) as (Hread & _ & Hstore).
  split; [apply Hread|].
  apply (Hstore PRIMITIVE_INTEGER 7 (int_ 1)
           (set_code [InsArg "pushi" "1"; InsArg "storeg" "0"]
              (fresh_generator globals))).
  reflexivity.
Defined.

(** [writeln('n = ', x)]: [writes] after the literal, [writei] after the
    integer, then the newline. *)
Lemma write_lowering_witness :
  visit_StatementNode writeln_x (fresh_generator globals)
  = Done tt
      (set_code
         [InsArg "pushs" (quote +:+ "n = " +:+ quote); Ins "writes";
          InsArg "pushg" "0"; Ins "writei";
          InsArg "pushs" (quote +:+ newline +:+ quote); Ins "writes"]
         (fresh_generator globals)).
Proof.
  apply (proj1 (write_lowering (id_ "writeln") _ None (fresh_generator globals) _)).
  - by right.
  - exists [[InsArg "pushs" (quote +:+ "n = " +:+ quote)]; [InsArg "pushg" "0"]].
    split; [|reflexivity].
    repeat constructor.
Defined.

(** In [(a, b: integer; c: real)] the parameter [c] is numbered 2. *)
Lemma parameter_offsets_witness :
  ∃ e, number_parameters (param_offset (fresh_generator globals))
         [(Some (StandardTypeNode TYPE_INTEGER), id_ "a");
          (Some (StandardTypeNode TYPE_INTEGER), id_ "b");
          (Some (StandardTypeNode TYPE_REAL), id_ "c")] !! 2%nat = Some e
       ∧ name e = "c" ∧ kind e = PARAMETER
       ∧ offset e = param_offset (fresh_generator globals) + Z.of_nat 2.
Proof.
  destruct (proj2 (parameter_offsets two_groups (fresh_generator globals)) _ eq_refl)
    as (_ & _ & Hk).
  apply (Hk 2%nat (Some (StandardTypeNode TYPE_REAL)) (id_ "c") eq_refl);
    vm_compute; split; discriminate.
Defined.

(** [y] is not in the table: the read throws at once, the assignment
    [y := 1] after [pushi 1]. *)
Lemma unresolved_name_witness :
  visit_ExprNode (VariableNode PRIMITIVE_INTEGER (id_ "y") None GLOBAL 0)
    (fresh_generator globals)
  = Thrown "CodeGen: Symbol not found: y" (fresh_generator globals)
  ∧ visit_StatementNode
      (AssignStatementNode (VariableNode PRIMITIVE_INTEGER (id_ "y") None GLOBAL 0)
         (int_ 1)) (fresh_generator globals)
    = Thrown "CodeGen: Symbol not found in assignment: y"
        (set_code [InsArg "pushi" "1"] (fresh_generator globals)).
Proof.
  destruct (unresolved_name (id_ "y") (fresh_generator globals) eq_refl)
    as (Hread & _ & _ & Hstore).
  split; [apply Hread|].
  apply (Hstore PRIMITIVE_INTEGER GLOBAL 0 (int_ 1) [InsArg "pushi" "1"]).
  intros pre. reflexivity.
Defined.

(** [v[2]] and [v[x]] on the global array [v: array[1..5] of real]. *)
Lemma array_load_witness :
  visit_ExprNode (VariableNode PRIMITIVE_REAL (id_ "v") (Some (int_ 2)) GLOBAL 1)
    (fresh_generator globals)
  = Done tt (set_code [InsArg "pushg" "1"; InsArg "load" "1"]
               (fresh_generator globals))
  ∧ visit_ExprNode (VariableNode PRIMITIVE_REAL (id_ "v") (Some x_ref) GLOBAL 1)
      (fresh_generator globals)
    = Done tt (set_code [InsArg "pushg" "1"; InsArg "pushg" "0"; InsArg "pushi" "1";
                         Ins "sub"; Ins "loadn"] (fresh_generator globals)).
Proof.
  assert (Hk : kind v_entry ≠ PARAMETER) by discriminate.
  split.
  - apply (proj2 (array_load PRIMITIVE_REAL (id_ "v") (int_ 2) GLOBAL 1 v_entry
                    (fresh_generator globals) _ eq_refl Hk eq_refl)).
    reflexivity.
  - apply (proj2 (array_load PRIMITIVE_REAL (id_ "v") x_ref GLOBAL 1 v_entry
                    (fresh_generator globals) _ eq_refl Hk eq_refl)).
    exists [InsArg "pushg" "0"]. split; [|reflexivity].
    intros pre. reflexivity.
Defined.

(** The jumps of [small_program]: to [main_entry], over [p], and those of
    the [if]. *)
Lemma program_jumps_resolved_witness :
  ∃ c, code after_small_program = code (fresh_generator globals) ++ c
       ∧ ∀ target, target ∈ jump_targets c → target ∈ labels_of c.
Proof.
  apply (program_jumps_resolved small_program (fresh_generator globals)
           after_small_program).
  reflexivity.
Defined.

End Instances.
